(** * Diagram engine of VisualizadorDiagrama: a shallow embedding

    The development follows [LogicaNodal.py] (classes [Nodo] and [Diagrama])
    and the two endpoints of [server.py] that mutate a diagram directly
    ([actualizar_nodo] and [eliminar_enlace]).

    Representation of Python objects.  A [Nodo] object receives its [id] once,
    at creation, from the strictly increasing counter [_siguiente_id]; no code
    assigns [id] afterwards and [Nodo] defines no [__eq__].  A reference to a
    [Nodo] is therefore represented by that id, [x.id] on a reference is the
    reference itself, and [x in lista] (identity comparison) is membership of
    the id.  The store [objetos] holds every [Nodo] object ever created,
    registered or not, because a Python list may still reference an object
    after [del self.nodos[id]]; the dictionary [self.nodos] always maps an id
    to the object carrying it (its only assignment is
    [self.nodos[nodo.id] = nodo]) and is represented by its keys in insertion
    order.

    Constraint sets are never mutated in place by the source (new sets are
    built with [a | b]), so sharing a set object between a parent's and a
    child's layer list is not observable and the sets are plain values. *)

From stdpp Require Import gmap strings list relations sorting pretty.

Open Scope Z_scope.

(** ** Data model *)

(** class [Nodo] (the [id] is the key of the object in the store). *)
Record Nodo := Mk_Nodo {
  nombre : string;
  hijos : list Z;
  padres : list Z;
  restricciones_propias : gset string;
  restricciones_heredadas : list (gset string);
  homologos : gset Z;
  contenido : string;
  gitURL : string
}.

(** [Nodo()]: the constructor gives empty fields. *)
Definition Nodo_nuevo : Nodo :=
  Mk_Nodo "" [] [] ∅ [] ∅ "" "".

#[global] Instance Nodo_inhabited : Inhabited Nodo := populate Nodo_nuevo.

Definition con_nombre (v : string) (n : Nodo) : Nodo :=
  Mk_Nodo v (hijos n) (padres n) (restricciones_propias n)
          (restricciones_heredadas n) (homologos n) (contenido n) (gitURL n).
Definition con_hijos (v : list Z) (n : Nodo) : Nodo :=
  Mk_Nodo (nombre n) v (padres n) (restricciones_propias n)
          (restricciones_heredadas n) (homologos n) (contenido n) (gitURL n).
Definition con_padres (v : list Z) (n : Nodo) : Nodo :=
  Mk_Nodo (nombre n) (hijos n) v (restricciones_propias n)
          (restricciones_heredadas n) (homologos n) (contenido n) (gitURL n).
Definition con_heredadas (v : list (gset string)) (n : Nodo) : Nodo :=
  Mk_Nodo (nombre n) (hijos n) (padres n) (restricciones_propias n)
          v (homologos n) (contenido n) (gitURL n).
Definition con_homologos (v : gset Z) (n : Nodo) : Nodo :=
  Mk_Nodo (nombre n) (hijos n) (padres n) (restricciones_propias n)
          (restricciones_heredadas n) v (contenido n) (gitURL n).
Definition con_contenido (v : string) (n : Nodo) : Nodo :=
  Mk_Nodo (nombre n) (hijos n) (padres n) (restricciones_propias n)
          (restricciones_heredadas n) (homologos n) v (gitURL n).
Definition con_gitURL (v : string) (n : Nodo) : Nodo :=
  Mk_Nodo (nombre n) (hijos n) (padres n) (restricciones_propias n)
          (restricciones_heredadas n) (homologos n) (contenido n) v.

(** property [Nodo.restricciones]: the inherited layers followed by the
    node's own constraints as last layer. *)
Definition restricciones (n : Nodo) : list (gset string) :=
  restricciones_heredadas n ++ [restricciones_propias n].

(** class [Diagrama].  [objetos] is the object store, [nodos] the keys of the
    dictionary [self.nodos] in insertion order.  The dictionary
    [nodos_visibles] is never read or written by the code and is left out. *)
Record Diagrama := Mk_Diagrama {
  d_nombre : string;
  objetos : gmap Z Nodo;
  nodos : list Z;
  _siguiente_id : Z;
  nodo_raiz_id : option Z
}.

(** Dereference of a node reference.  An id that no object carries yet
    reads as a blank [Nodo()]; no such reference exists in a state the
    program can reach. *)
Definition obj (d : Diagrama) (k : Z) : Nodo := objetos d !!! k.

(** In-place mutation of the object referenced by [k]. *)
Definition mutar (k : Z) (f : Nodo → Nodo) (d : Diagrama) : Diagrama :=
  Mk_Diagrama (d_nombre d) (<[k := f (obj d k)]> (objetos d)) (nodos d)
              (_siguiente_id d) (nodo_raiz_id d).

(** [self.nodos[k] = nodo] for the object [nodo] whose id is [k]: the object
    enters the store, and the key is appended unless already present. *)
Definition dict_asignar (k : Z) (n : Nodo) (d : Diagrama) : Diagrama :=
  Mk_Diagrama (d_nombre d) (<[k := n]> (objetos d))
              (if bool_decide (k ∈ nodos d) then nodos d else nodos d ++ [k])
              (_siguiente_id d) (nodo_raiz_id d).

(** [del self.nodos[k]]: the key leaves the dictionary, the object stays
    wherever it is still referenced. *)
Definition dict_borrar (k : Z) (d : Diagrama) : Diagrama :=
  Mk_Diagrama (d_nombre d) (objetos d)
              (filter (λ j, j ≠ k) (nodos d))
              (_siguiente_id d) (nodo_raiz_id d).

(** [k in self.nodos] *)
Definition registrado (d : Diagrama) (k : Z) : bool :=
  bool_decide (k ∈ nodos d).

(** ** Diagram construction *)

Definition _crear_nodo_raiz (d : Diagrama) : Diagrama :=
  let nid := _siguiente_id d in
  let d := Mk_Diagrama (d_nombre d) (objetos d) (nodos d) (nid + 1)
                       (nodo_raiz_id d) in
  let nodo := con_nombre (d_nombre d) Nodo_nuevo in
  let d := dict_asignar nid nodo d in
  Mk_Diagrama (d_nombre d) (objetos d) (nodos d) (_siguiente_id d) (Some nid).

Definition Diagrama_init (nombre_diagrama : string) : Diagrama :=
  _crear_nodo_raiz (Mk_Diagrama nombre_diagrama ∅ [] 1 None).

(** ** Homolog tracker *)

(** One iteration of the loop of [actualizarHomologos] over
    [self.nodos.values()]. *)
Definition paso_homologos (id : Z) (nom : string)
    (acc : gset Z * Diagrama) (k : Z) : gset Z * Diagrama :=
  let '(homs, d) := acc in
  if bool_decide (nombre (obj d k) = nom) && bool_decide (k ≠ id)
  then (homs ∪ {[k]},
        mutar k (λ n, con_homologos (homologos n ∪ {[id]}) n) d)
  else (homs, d).

Definition actualizarHomologos (d : Diagrama) (id : Z) (nom : string)
    : Diagrama :=
  if negb (registrado d id) then d
  else
    let '(homs, d1) := foldl (paso_homologos id nom) (∅, d) (nodos d) in
    mutar id (con_homologos homs) d1.

(** ** Node creation *)

(** [lista.insert(i, x)] for [0 <= i <= len(lista)]. *)
Definition list_insertar {A} (i : nat) (x : A) (l : list A) : list A :=
  take i l ++ x :: drop i l.

(** [if num_hijo is not None and 0 <= num_hijo <= len(padre.hijos):
       padre.hijos.insert(num_hijo, nodo)
     else: padre.hijos.append(nodo)] *)
Definition anexar_hijo (num_hijo : option Z) (nid : Z) (hs : list Z)
    : list Z :=
  match num_hijo with
  | Some k =>
      if bool_decide (0 ≤ k) && bool_decide (k ≤ Z.of_nat (length hs))
      then list_insertar (Z.to_nat k) nid hs
      else hs ++ [nid]
  | None => hs ++ [nid]
  end.

(** The part of [añadirNodo] before the call to [actualizarHomologos]. *)
Definition añadido (d : Diagrama) (nom : string) (id_padre : option Z)
    (num_hijo : option Z) : Diagrama :=
  let nid := _siguiente_id d in
  let d := Mk_Diagrama (d_nombre d) (objetos d) (nodos d) (nid + 1)
                       (nodo_raiz_id d) in
  let nodo := con_nombre nom Nodo_nuevo in
  let '(nodo, d) :=
    match id_padre with
    | Some p =>
        if registrado d p then
          let padre := obj d p in
          let nodo := con_padres (padres nodo ++ [p]) nodo in
          let nodo := con_heredadas (restricciones padre) nodo in
          (nodo, mutar p (con_hijos (anexar_hijo num_hijo nid (hijos padre))) d)
        else (nodo, d)
    | None => (nodo, d)
    end in
  dict_asignar nid nodo d.

Definition añadirNodo (d : Diagrama) (nom : string) (id_padre : option Z)
    (num_hijo : option Z) : Z * Diagrama :=
  let nid := _siguiente_id d in
  let d := añadido d nom id_padre num_hijo in
  let d := actualizarHomologos d nid nom in
  (nid, d).

(** ** Cycle guard *)

(** The loop [for hijo in ...: if tiene_descendiente(hijo.id, objetivo):
    return True] threading the set [visitados]. *)
Fixpoint buscar_en_hijos (rec : Z → gset Z → option (bool * gset Z))
    (hs : list Z) (visitados : gset Z) : option (bool * gset Z) :=
  match hs with
  | [] => Some (false, visitados)
  | h :: hs' =>
      match rec h visitados with
      | None => None
      | Some (true, v) => Some (true, v)
      | Some (false, v) => buscar_en_hijos rec hs' v
      end
  end.

(** The closure [tiene_descendiente] of [_creaCiclo]; [None] only when the
    recursion depth exceeds [fuel]. *)
Fixpoint tiene_descendiente (fuel : nat) (d : Diagrama) (objetivo : Z)
    (nodo_id : Z) (visitados : gset Z) : option (bool * gset Z) :=
  match fuel with
  | O => None
  | S fuel' =>
      if bool_decide (nodo_id = objetivo) then Some (true, visitados)
      else if bool_decide (nodo_id ∈ visitados) then Some (false, visitados)
      else
        let visitados := visitados ∪ {[nodo_id]} in
        if registrado d nodo_id then
          buscar_en_hijos (tiene_descendiente fuel' d objetivo)
                          (hijos (obj d nodo_id)) visitados
        else Some (false, visitados)
  end.

Definition _creaCiclo (fuel : nat) (d : Diagrama) (id_padre id_hijo : Z)
    : option bool :=
  fst <$> tiene_descendiente fuel d id_padre id_hijo ∅.

(** ** Constraint propagation *)

(** [zip_longest(la, lb, fillvalue=...)] *)
Fixpoint zip_longest {A B} (fa : A) (fb : B) (la : list A) (lb : list B)
    : list (A * B) :=
  match la, lb with
  | [], _ => (λ b, (fa, b)) <$> lb
  | _, [] => (λ a, (a, fb)) <$> la
  | a :: la', b :: lb' => (a, b) :: zip_longest fa fb la' lb'
  end.

(** [[a | b for a, b in zip_longest(nuevas, actuales, fillvalue=set())]] *)
Definition combinar (nuevas actuales : list (gset string))
    : list (gset string) :=
  (λ ab : gset string * gset string, ab.1 ∪ ab.2)
    <$> zip_longest ∅ ∅ nuevas actuales.

(** A loop whose body may run out of fuel. *)
Fixpoint para_cada {S A} (cuerpo : S → A → option S) (s : S) (l : list A)
    : option S :=
  match l with
  | [] => Some s
  | x :: l' =>
      match cuerpo s x with
      | None => None
      | Some s' => para_cada cuerpo s' l'
      end
  end.

Fixpoint _propagarRestricciones (fuel : nat) (d : Diagrama) (id_nodo : Z)
    : option Diagrama :=
  match fuel with
  | O => None
  | S fuel' =>
      if negb (registrado d id_nodo) then Some d
      else
        para_cada
          (λ d hijo,
             let nuevas_restricciones := restricciones (obj d id_nodo) in
             let restricciones_actuales :=
               restricciones_heredadas (obj d hijo) in
             let d :=
               mutar hijo
                 (con_heredadas
                    (combinar nuevas_restricciones restricciones_actuales))
                 d in
             _propagarRestricciones fuel' d hijo)
          d (hijos (obj d id_nodo))
  end.

(** ** Linking *)

Definition enlazarNodos (fuel : nat) (d : Diagrama) (id_padre id_hijo : Z)
    : option (bool * Diagrama) :=
  if negb (registrado d id_padre) || negb (registrado d id_hijo)
  then Some (false, d)
  else if bool_decide (id_hijo ∈ hijos (obj d id_padre)) then Some (false, d)
  else
    match _creaCiclo fuel d id_padre id_hijo with
    | None => None
    | Some true => Some (false, d)
    | Some false =>
        let d := mutar id_padre (λ n, con_hijos (hijos n ++ [id_hijo]) n) d in
        let d := mutar id_hijo (λ n, con_padres (padres n ++ [id_padre]) n) d in
        let nuevas_restricciones := restricciones (obj d id_padre) in
        let restricciones_actuales :=
          restricciones_heredadas (obj d id_hijo) in
        let d :=
          mutar id_hijo
            (con_heredadas
               (combinar nuevas_restricciones restricciones_actuales))
            d in
        match _propagarRestricciones fuel d id_hijo with
        | None => None
        | Some d => Some (true, d)
        end
    end.

(** ** Deletion *)

(** [if padre.id in self.nodos:
       padre.hijos = [h for h in padre.hijos if h.id != id]] *)
Definition quitar_de_padre (id : Z) (d : Diagrama) (p : Z) : Diagrama :=
  if registrado d p
  then mutar p (λ n, con_hijos (filter (λ h, h ≠ id) (hijos n)) n) d
  else d.

(** [for padre in nodo.padres: ...] *)
Definition quitar_de_padres (id : Z) (d : Diagrama) (ps : list Z) : Diagrama :=
  foldl (quitar_de_padre id) d ps.

(** [if homologo_id in self.nodos:
       self.nodos[homologo_id].homologos.discard(id)] *)
Definition quitar_de_homologo (id : Z) (d : Diagrama) (h : Z) : Diagrama :=
  if registrado d h
  then mutar h (λ n, con_homologos (homologos n ∖ {[id]}) n) d
  else d.

(** [for homologo_id in homologos: ...] *)
Definition quitar_de_homologos (id : Z) (d : Diagrama) (hs : list Z)
    : Diagrama :=
  foldl (quitar_de_homologo id) d hs.

Fixpoint eliminarNodo (fuel : nat) (d : Diagrama) (id : Z)
    : option (bool * Diagrama) :=
  match fuel with
  | O => None
  | S fuel' =>
      if negb (registrado d id) then Some (false, d)
      else
        let hijos_copia := hijos (obj d id) in
        match para_cada (λ d hijo, snd <$> eliminarNodo fuel' d hijo)
                        d hijos_copia with
        | None => None
        | Some d =>
            let nodo_homologos := homologos (obj d id) in
            let d := quitar_de_padres id d (padres (obj d id)) in
            let d := dict_borrar id d in
            let d := quitar_de_homologos id d (elements nodo_homologos) in
            Some (true, d)
        end
  end.

(** [obtenerNodo]: [None] when the id is not registered, else the record
    of [to_dict]. *)
Record NodoDict := Mk_NodoDict {
  nd_id : Z;
  nd_nombre : string;
  nd_hijos : list Z;
  nd_padres : list Z;
  nd_restricciones_propias : gset string;
  nd_restricciones_heredadas : list (gset string);
  nd_homologos : gset Z;
  nd_contenido : string;
  nd_gitURL : string
}.

Definition to_dict (k : Z) (n : Nodo) : NodoDict :=
  Mk_NodoDict k (nombre n) (hijos n) (padres n) (restricciones_propias n)
              (restricciones_heredadas n) (homologos n) (contenido n)
              (gitURL n).

Definition obtenerNodo (d : Diagrama) (id : Z) : option NodoDict :=
  if negb (registrado d id) then None else Some (to_dict id (obj d id)).

(** ** Endpoints of [server.py] that act on a diagram *)

Inductive Respuesta :=
| Mensaje (m : string)
| HTTPException (status_code : Z) (detail : string).

(** [list.remove(x)]: drops the first occurrence. *)
Fixpoint list_quitar (x : Z) (l : list Z) : list Z :=
  match l with
  | [] => []
  | y :: l' => if bool_decide (y = x) then l' else y :: list_quitar x l'
  end.

(** [eliminar_enlace], for the diagram [diag] already looked up. *)
Definition eliminar_enlace (d : Diagrama) (id_padre id_hijo : Z)
    : Respuesta * Diagrama :=
  if negb (registrado d id_padre) || negb (registrado d id_hijo)
  then (HTTPException 404 "Nodo no encontrado", d)
  else
    let d :=
      if bool_decide (id_hijo ∈ hijos (obj d id_padre))
      then mutar id_padre (λ n, con_hijos (list_quitar id_hijo (hijos n)) n) d
      else d in
    let d :=
      if bool_decide (id_padre ∈ padres (obj d id_hijo))
      then mutar id_hijo (λ n, con_padres (list_quitar id_padre (padres n)) n) d
      else d in
    (Mensaje "Enlace eliminado", d).

(** [NodoUpdate] *)
Record NodoUpdate := Mk_NodoUpdate {
  u_nombre : option string;
  u_contenido : option string;
  u_gitURL : option string
}.

(** [actualizar_nodo], for the diagram [diag] already looked up. *)
Definition actualizar_nodo (d : Diagrama) (nodo_id : Z) (datos : NodoUpdate)
    : Respuesta * Diagrama :=
  if negb (registrado d nodo_id)
  then (HTTPException 404 "Nodo no encontrado", d)
  else
    let d :=
      match u_nombre datos with
      | Some nom =>
          actualizarHomologos (mutar nodo_id (con_nombre nom) d) nodo_id nom
      | None => d
      end in
    let d :=
      match u_contenido datos with
      | Some c => mutar nodo_id (con_contenido c) d
      | None => d
      end in
    let d :=
      match u_gitURL datos with
      | Some g => mutar nodo_id (con_gitURL g) d
      | None => d
      end in
    (Mensaje "Nodo actualizado", d).

(** * Properties *)

(** ** The store *)

Lemma obj_mutar k f d j :
  obj (mutar k f d) j = if bool_decide (j = k) then f (obj d k) else obj d j.
Proof.
  unfold obj, mutar; simpl. case_bool_decide as Hj.
  - subst j. by rewrite lookup_total_insert_eq.
  - by rewrite lookup_total_insert_ne.
Qed.

Lemma obj_mutar_eq k f d : obj (mutar k f d) k = f (obj d k).
Proof. rewrite obj_mutar. by rewrite bool_decide_eq_true_2. Qed.

Lemma obj_mutar_ne k f d j : j ≠ k → obj (mutar k f d) j = obj d j.
Proof. intros. rewrite obj_mutar. by rewrite bool_decide_eq_false_2. Qed.

Lemma nodos_mutar k f d : nodos (mutar k f d) = nodos d.
Proof. done. Qed.

Lemma registrado_mutar k f d j : registrado (mutar k f d) j = registrado d j.
Proof. done. Qed.

Lemma registrado_true d k : registrado d k = true ↔ k ∈ nodos d.
Proof. unfold registrado. apply bool_decide_eq_true. Qed.

Lemma registrado_false d k : registrado d k = false ↔ k ∉ nodos d.
Proof. unfold registrado. apply bool_decide_eq_false. Qed.

(** ** Edges, reachability, acyclicity *)

(** [arista d a b]: the registered node [a] lists [b] among its children. *)
Definition arista (d : Diagrama) (a b : Z) : Prop :=
  a ∈ nodos d ∧ b ∈ hijos (obj d a).

(** No registered node reaches itself through one or more children edges. *)
Definition aciclico (d : Diagrama) : Prop := ∀ k, ¬ tc (arista d) k k.

(** Adding the edge [p -> c] to a relation keeps it free of cycles as long
    as [p] is not reachable from [c]. *)
Section añadir_arista.
Context (R R' : relation Z) (p c : Z).
Hypothesis HR' : ∀ a b, R' a b → R a b ∨ (a = p ∧ b = c).

Lemma tc_añadir_arista a b :
  tc R' a b → tc R a b ∨ (rtc R a p ∧ rtc R c b).
Proof.
  induction 1 as [a b Hab|a b z Hab _ IH].
  - destruct (HR' _ _ Hab) as [?|[-> ->]].
    + left. by apply tc_once.
    + right. split; apply rtc_refl.
  - destruct (HR' _ _ Hab) as [HRab|[-> ->]].
    + destruct IH as [IH|[IH1 IH2]].
      * left. by eapply tc_l.
      * right. split; [by eapply rtc_l|done].
    + right. split; [apply rtc_refl|].
      destruct IH as [IH|[_ IH2]]; [by apply tc_rtc|done].
Qed.

Lemma sin_ciclo_añadir_arista :
  (∀ k, ¬ tc R k k) → ¬ rtc R c p → ∀ k, ¬ tc R' k k.
Proof.
  intros Hac Hcp k Hk.
  destruct (tc_añadir_arista _ _ Hk) as [?|[H1 H2]]; [by eapply Hac|].
  apply Hcp. by etrans.
Qed.

Lemma tc_añadir_arista_desde_c b :
  ¬ rtc R c p → tc R' c b → tc R c b.
Proof.
  intros Hcp Hcb.
  destruct (tc_añadir_arista _ _ Hcb) as [?|[H1 _]]; [done|].
  by destruct Hcp.
Qed.
End añadir_arista.

Lemma tc_sub {A} (R R' : relation A) :
  (∀ a b, R' a b → R a b) → ∀ a b, tc R' a b → tc R a b.
Proof.
  intros Hsub a b Hab.
  induction Hab as [a b Hab|a b z Hab _ IH].
  - apply tc_once. by apply Hsub.
  - eapply tc_l; [by apply Hsub|done].
Qed.

Lemma rtc_sub {A} (R R' : relation A) :
  (∀ a b, R' a b → R a b) → ∀ a b, rtc R' a b → rtc R a b.
Proof.
  intros Hsub a b Hab.
  induction Hab as [|a b z Hab _ IH]; [apply rtc_refl|].
  eapply rtc_l; [by apply Hsub|done].
Qed.

Lemma aciclico_sub d d' :
  (∀ a b, arista d' a b → arista d a b) → aciclico d → aciclico d'.
Proof.
  intros Hsub Hac k Hk. apply (Hac k). by eapply tc_sub.
Qed.

(** ** The cycle guard computes reachability *)

Section ciclo.
Context (d : Diagrama) (objetivo : Z).

Lemma buscar_en_hijos_true rec hs vis vis' :
  buscar_en_hijos rec hs vis = Some (true, vis') →
  ∃ h v v', h ∈ hs ∧ rec h v = Some (true, v').
Proof.
  revert vis. induction hs as [|h hs IH]; intros vis; simpl; [done|].
  destruct (rec h vis) as [[[] v]|] eqn:Hrec; [|intros Hb|done].
  - intros _. exists h, vis, v. split; [left|done].
  - destruct (IH _ Hb) as (h' & v1 & v2 & ? & ?).
    exists h', v1, v2. split; [by right|done].
Qed.

Lemma tiene_descendiente_true fuel x vis vis' :
  tiene_descendiente fuel d objetivo x vis = Some (true, vis') →
  rtc (arista d) x objetivo.
Proof.
  revert x vis vis'. induction fuel as [|fuel IH]; intros x vis vis'; [done|].
  simpl. case_bool_decide as Hx; [subst; intros; apply rtc_refl|].
  case_bool_decide; [done|].
  destruct (registrado d x) eqn:Hreg; [|done].
  intros (h & v & v' & Hh & Hrec)%buscar_en_hijos_true.
  eapply rtc_l; [|by eapply IH].
  split; [by apply registrado_true|done].
Qed.

(** What a negative answer guarantees about the visited set. *)
Definition barrido (vis vis' : gset Z) : Prop :=
  vis ⊆ vis' ∧ (objetivo ∉ vis → objetivo ∉ vis') ∧
  ∀ y z, y ∈ vis' → y ∉ vis → arista d y z → z ∈ vis'.

Lemma buscar_en_hijos_false rec hs vis vis' :
  (∀ h v v', rec h v = Some (false, v') → h ∈ v' ∧ barrido v v') →
  buscar_en_hijos rec hs vis = Some (false, vis') →
  (∀ h, h ∈ hs → h ∈ vis') ∧ barrido vis vis'.
Proof.
  intros Hrec. revert vis.
  induction hs as [|h hs IH]; intros vis; simpl.
  - intros [= ->]. split; [by intros ? ?%elem_of_nil|].
    unfold barrido. set_solver.
  - destruct (rec h vis) as [[[] v]|] eqn:Hh; [done| |done].
    intros Hb. destruct (Hrec _ _ _ Hh) as (Hhv & Hsub & Hobj & Hcl).
    destruct (IH _ Hb) as (Hhs & Hsub' & Hobj' & Hcl').
    split.
    + intros h' [->|?]%elem_of_cons; [set_solver|by apply Hhs].
    + split; [set_solver|]. split; [tauto|].
      intros y z Hy Hny Hyz.
      destruct (decide (y ∈ v)); [|by eapply Hcl'].
      apply Hsub'. by eapply Hcl.
Qed.

Lemma tiene_descendiente_false fuel x vis vis' :
  tiene_descendiente fuel d objetivo x vis = Some (false, vis') →
  x ∈ vis' ∧ barrido vis vis'.
Proof.
  revert x vis vis'. induction fuel as [|fuel IH]; intros x vis vis'; [done|].
  simpl. case_bool_decide as Hx; [done|].
  case_bool_decide as Hvis.
  { intros [= ->]. split; [done|]. unfold barrido. set_solver. }
  destruct (registrado d x) eqn:Hreg.
  - intros Hb. apply buscar_en_hijos_false in Hb; [|by apply IH].
    destruct Hb as (Hhs & Hsub & Hobj & Hcl).
    split; [set_solver|]. split; [set_solver|]. split; [set_solver|].
    intros y z Hy Hny Hyz.
    destruct (decide (y = x)) as [->|]; [apply Hhs, Hyz|].
    eapply Hcl; [done|set_solver|done].
  - intros [= <-]. split; [set_solver|]. split; [set_solver|].
    split; [set_solver|].
    intros y z Hy Hny [Hreg' _].
    assert (y = x) as -> by set_solver.
    apply registrado_false in Hreg. done.
Qed.
End ciclo.

Lemma _creaCiclo_spec fuel d id_padre id_hijo b :
  _creaCiclo fuel d id_padre id_hijo = Some b →
  (b = true ↔ rtc (arista d) id_hijo id_padre).
Proof.
  unfold _creaCiclo.
  destruct (tiene_descendiente fuel d id_padre id_hijo ∅) as [[b' vis]|] eqn:Htd;
    [|done].
  intros [= <-]. destruct b'; simpl.
  - split; [intros _|done]. by eapply tiene_descendiente_true.
  - split; [done|]. intros Hreach. exfalso.
    apply tiene_descendiente_false in Htd as (Hin & _ & Hobj & Hcl).
    assert (∀ y, rtc (arista d) id_hijo y → y ∈ vis) as Hall.
    { apply rtc_ind_r; [done|]. intros y z _ Hyz Hy.
      eapply Hcl; [done|set_solver|done]. }
    apply Hobj; [set_solver|]. by apply Hall.
Qed.

(** The registered ids as a finite set, to count them. *)
Definition registrados (d : Diagrama) : gset Z := list_to_set (nodos d).

Lemma elem_of_registrados d k : k ∈ registrados d ↔ k ∈ nodos d.
Proof. unfold registrados. apply elem_of_list_to_set. Qed.

Lemma size_registrados d : (size (registrados d) ≤ length (nodos d))%nat.
Proof.
  unfold registrados. induction (nodos d) as [|k l IH].
  - by rewrite list_to_set_nil, size_empty.
  - rewrite list_to_set_cons, size_union_alt, size_singleton. simpl.
    assert (size (list_to_set l ∖ {[k]} : gset Z)
            ≤ size (list_to_set l : gset Z))%nat
      by (apply subseteq_size; set_solver).
    lia.
Qed.

Section ciclo_termina.
Context (d : Diagrama) (objetivo : Z).

Lemma buscar_en_hijos_termina (P : gset Z → Prop) rec hs vis :
  P vis →
  (∀ h v, P v → ∃ b v', rec h v = Some (b, v') ∧ (b = false → P v')) →
  is_Some (buscar_en_hijos rec hs vis).
Proof.
  intros HP Hrec. revert vis HP.
  induction hs as [|h hs IH]; intros vis HP; simpl; [done|].
  destruct (Hrec h vis HP) as ([] & v' & -> & HP'); [done|].
  apply IH. by apply HP'.
Qed.

Lemma tiene_descendiente_termina fuel x vis :
  (size (registrados d ∖ vis) < fuel)%nat →
  is_Some (tiene_descendiente fuel d objetivo x vis).
Proof.
  revert x vis. induction fuel as [|fuel IH]; intros x vis Hsz; [lia|].
  simpl. case_bool_decide; [done|]. case_bool_decide as Hvis; [done|].
  destruct (registrado d x) eqn:Hreg; [|done].
  apply registrado_true in Hreg.
  apply (buscar_en_hijos_termina
           (λ v, (size (registrados d ∖ v) < fuel)%nat)).
  - assert (registrados d ∖ (vis ∪ {[x]}) ⊂ registrados d ∖ vis) as Hsub.
    { apply elem_of_registrados in Hreg. set_solver. }
    apply subset_size in Hsub. lia.
  - intros h v Hv. destruct (IH h v Hv) as [[b v'] Hr].
    exists b, v'. split; [done|]. intros ->.
    apply tiene_descendiente_false in Hr as (_ & Hsub & _).
    assert (size (registrados d ∖ v') ≤ size (registrados d ∖ v))%nat
      by (apply subseteq_size; set_solver).
    lia.
Qed.
End ciclo_termina.

Lemma _creaCiclo_termina fuel d id_padre id_hijo :
  (length (nodos d) < fuel)%nat →
  is_Some (_creaCiclo fuel d id_padre id_hijo).
Proof.
  intros Hf. unfold _creaCiclo.
  destruct (tiene_descendiente_termina d id_padre fuel id_hijo ∅) as [r ->];
    [|done].
  pose proof (size_registrados d).
  assert (size (registrados d ∖ ∅) ≤ size (registrados d))%nat
    by (apply subseteq_size; set_solver).
  lia.
Qed.

(** ** Loops with fuel *)

Lemma para_cada_inv {S A} (I : S → Prop) (cuerpo : S → A → option S) s l s' :
  I s →
  (∀ s x s', x ∈ l → I s → cuerpo s x = Some s' → I s') →
  para_cada cuerpo s l = Some s' → I s'.
Proof.
  revert s. induction l as [|x l IH]; intros s Hs Hstep; simpl.
  - by intros [= <-].
  - destruct (cuerpo s x) as [s1|] eqn:Hx; [|done].
    apply IH.
    + eapply Hstep; [left|done..].
    + intros ?????. eapply Hstep; [by right|done..].
Qed.

Lemma para_cada_termina {S A} (I : S → Prop) (cuerpo : S → A → option S) s l :
  I s →
  (∀ s x, x ∈ l → I s → ∃ s', cuerpo s x = Some s' ∧ I s') →
  ∃ s', para_cada cuerpo s l = Some s' ∧ I s'.
Proof.
  revert s. induction l as [|x l IH]; intros s Hs Hstep; simpl; [by eauto|].
  destruct (Hstep s x) as (s1 & -> & Hs1); [left|done|].
  apply IH; [done|]. intros ????. apply Hstep; [by right|done].
Qed.

(** ** Constraint layers *)

(** Layer [i] of a layer list, empty past its end. *)
Definition capa (l : list (gset string)) (i : nat) : gset string :=
  default ∅ (l !! i).

(** Layer-wise inclusion: no layer is lost and every layer only grows. *)
Definition capas_le (l1 l2 : list (gset string)) : Prop :=
  (length l1 ≤ length l2)%nat ∧ ∀ i, capa l1 i ⊆ capa l2 i.

Lemma capas_le_refl l : capas_le l l.
Proof. by split. Qed.

Lemma capas_le_trans l1 l2 l3 :
  capas_le l1 l2 → capas_le l2 l3 → capas_le l1 l3.
Proof.
  intros [? H1] [? H2]. split; [lia|].
  intros i. transitivity (capa l2 i); [apply H1|apply H2].
Qed.

Lemma length_combinar a b :
  length (combinar a b) = (length a `max` length b)%nat.
Proof.
  unfold combinar. rewrite length_fmap. revert b.
  induction a as [|x a IH]; intros [|y b]; simpl;
    rewrite ?length_fmap; try done.
  by rewrite IH.
Qed.

Lemma capa_combinar a b i : capa (combinar a b) i = capa a i ∪ capa b i.
Proof.
  unfold combinar, capa. revert b i.
  induction a as [|x a IH]; intros b i.
  - simpl. rewrite !list_lookup_fmap.
    destruct (b !! i); simpl; set_solver.
  - destruct b as [|y b].
    + simpl. destruct i as [|i]; simpl; [set_solver|].
      rewrite !list_lookup_fmap. destruct (a !! i); simpl; set_solver.
    + destruct i as [|i]; simpl; [done|]. apply IH.
Qed.

Lemma capas_le_combinar_l a b : capas_le a (combinar a b).
Proof.
  split; [rewrite length_combinar; lia|].
  intros i. rewrite capa_combinar. set_solver.
Qed.

Lemma capas_le_combinar_r a b : capas_le b (combinar a b).
Proof.
  split; [rewrite length_combinar; lia|].
  intros i. rewrite capa_combinar. set_solver.
Qed.

(** ** Propagation touches nothing but the layers of strict descendants *)

Definition sin_capas (n : Nodo) : Nodo := con_heredadas [] n.

(** Two states that differ at most in inherited layers. *)
Record misma_forma (d d' : Diagrama) : Prop := Mk_misma_forma {
  mf_nombre : d_nombre d' = d_nombre d;
  mf_nodos : nodos d' = nodos d;
  mf_siguiente : _siguiente_id d' = _siguiente_id d;
  mf_raiz : nodo_raiz_id d' = nodo_raiz_id d;
  mf_obj : ∀ k, sin_capas (obj d' k) = sin_capas (obj d k)
}.

Lemma misma_forma_refl d : misma_forma d d.
Proof. by split. Qed.

Lemma misma_forma_trans d1 d2 d3 :
  misma_forma d1 d2 → misma_forma d2 d3 → misma_forma d1 d3.
Proof.
  intros [] []. split; try congruence; intros k; by etrans.
Qed.

Lemma misma_forma_mutar d k v : misma_forma d (mutar k (con_heredadas v) d).
Proof.
  split; try done. intros j. rewrite obj_mutar. by case_bool_decide; subst.
Qed.

Lemma mf_hijos d d' k : misma_forma d d' → hijos (obj d' k) = hijos (obj d k).
Proof. intros [_ _ _ _ H]. apply (f_equal hijos (H k)). Qed.

Lemma mf_padres d d' k :
  misma_forma d d' → padres (obj d' k) = padres (obj d k).
Proof. intros [_ _ _ _ H]. apply (f_equal padres (H k)). Qed.

Lemma mf_propias d d' k :
  misma_forma d d' →
  restricciones_propias (obj d' k) = restricciones_propias (obj d k).
Proof. intros [_ _ _ _ H]. apply (f_equal restricciones_propias (H k)). Qed.

Lemma mf_nombre_nodo d d' k :
  misma_forma d d' → nombre (obj d' k) = nombre (obj d k).
Proof. intros [_ _ _ _ H]. apply (f_equal nombre (H k)). Qed.

Lemma mf_homologos d d' k :
  misma_forma d d' → homologos (obj d' k) = homologos (obj d k).
Proof. intros [_ _ _ _ H]. apply (f_equal homologos (H k)). Qed.

Lemma mf_registrado d d' k :
  misma_forma d d' → registrado d' k = registrado d k.
Proof. intros H. unfold registrado. by rewrite (mf_nodos _ _ H). Qed.

Lemma mf_arista d d' a b : misma_forma d d' → arista d' a b ↔ arista d a b.
Proof.
  intros H. unfold arista. by rewrite (mf_nodos _ _ H), (mf_hijos _ _ _ H).
Qed.

Lemma mf_tc d d' a b :
  misma_forma d d' → tc (arista d') a b → tc (arista d) a b.
Proof. intros H. apply tc_sub. intros x y Hxy. by apply (mf_arista d d'). Qed.

Lemma mf_aciclico d d' : misma_forma d d' → aciclico d → aciclico d'.
Proof.
  intros H. apply aciclico_sub. intros x y Hxy. by apply (mf_arista d d').
Qed.

(** What a run of [_propagarRestricciones] from [x] does to the state. *)
Record propagado (d : Diagrama) (x : Z) (d' : Diagrama) : Prop := Mk_propagado {
  pr_forma : misma_forma d d';
  pr_crece : ∀ k, capas_le (restricciones_heredadas (obj d k))
                           (restricciones_heredadas (obj d' k));
  pr_marco : ∀ k, ¬ tc (arista d) x k →
                  restricciones_heredadas (obj d' k)
                  = restricciones_heredadas (obj d k)
}.

Lemma propagado_refl d x : propagado d x d.
Proof. split; [apply misma_forma_refl|intros; apply capas_le_refl|done]. Qed.

Lemma _propagarRestricciones_propagado fuel d x d' :
  _propagarRestricciones fuel d x = Some d' → propagado d x d'.
Proof.
  revert d x d'. induction fuel as [|fuel IH]; intros d x d'; [done|].
  simpl. destruct (registrado d x) eqn:Hreg; simpl.
  2:{ intros [= <-]. apply propagado_refl. }
  apply registrado_true in Hreg.
  apply (para_cada_inv (propagado d x)); [apply propagado_refl|].
  intros s h s' Hh [Hf Hc Hm] Hs'. apply IH in Hs' as [Hf' Hc' Hm'].
  set (v := combinar (restricciones (obj s x))
                     (restricciones_heredadas (obj s h))) in *.
  pose proof (misma_forma_mutar s h v) as Hf1.
  assert (arista d x h) as Hxh by done.
  split.
  - eauto using misma_forma_trans.
  - intros k. eapply capas_le_trans; [apply Hc|].
    eapply capas_le_trans; [|apply Hc'].
    rewrite obj_mutar. case_bool_decide; [subst k|apply capas_le_refl].
    simpl. apply capas_le_combinar_r.
  - intros k Hk.
    assert (k ≠ h) as Hkh by (intros ->; apply Hk; by apply tc_once).
    rewrite Hm'.
    + rewrite obj_mutar_ne by done. by apply Hm.
    + intros Hhk. apply Hk. eapply tc_l; [done|].
      eapply mf_tc; [|done]. eauto using misma_forma_trans.
Qed.

(** ** Propagation terminates on an acyclic diagram *)

Lemma _propagarRestricciones_termina_en fuel d x (S : gset Z) :
  aciclico d →
  (∀ y, rtc (arista d) x y → y ∈ nodos d → y ∈ S) →
  (size S < fuel)%nat →
  is_Some (_propagarRestricciones fuel d x).
Proof.
  revert d x S. induction fuel as [|fuel IH]; intros d x S Hac HS Hsz; [lia|].
  simpl. destruct (registrado d x) eqn:Hreg; simpl; [|done].
  apply registrado_true in Hreg.
  assert (x ∈ S) as HxS by (apply HS; [apply rtc_refl|done]).
  destruct (para_cada_termina (misma_forma d)
    (λ d0 hijo,
       _propagarRestricciones fuel
         (mutar hijo
            (con_heredadas
               (combinar (restricciones (obj d0 x))
                         (restricciones_heredadas (obj d0 hijo)))) d0) hijo)
    d (hijos (obj d x))) as (d' & -> & _); [apply misma_forma_refl| |done].
  intros s h Hh Hf.
  set (s1 := mutar h _ s).
  assert (misma_forma d s1) as Hf1.
  { eapply misma_forma_trans; [done|apply misma_forma_mutar]. }
  destruct (IH s1 h (S ∖ {[x]})) as [s' Hs'].
  - by eapply mf_aciclico.
  - intros y Hy Hyreg.
    assert (rtc (arista d) h y) as Hy'.
    { eapply rtc_sub; [|done]. intros a b Hab. by apply (mf_arista d s1). }
    assert (tc (arista d) x y) as Hxy.
    { eapply tc_rtc_r; [apply tc_once|done]. done. }
    apply elem_of_difference. split.
    + apply HS; [by apply tc_rtc|]. by rewrite <-(mf_nodos _ _ Hf1).
    + intros ->%elem_of_singleton. by apply (Hac x).
  - assert (S ∖ {[x]} ⊂ S) as Hsub by set_solver.
    apply subset_size in Hsub. lia.
  - exists s'. split; [done|].
    apply _propagarRestricciones_propagado in Hs' as [Hf' _ _].
    by eapply misma_forma_trans.
Qed.

Lemma _propagarRestricciones_termina fuel d x :
  aciclico d → (length (nodos d) < fuel)%nat →
  is_Some (_propagarRestricciones fuel d x).
Proof.
  intros Hac Hf.
  apply (_propagarRestricciones_termina_en fuel d x (registrados d)); [done| |].
  - intros y _ Hy. by apply elem_of_registrados.
  - pose proof (size_registrados d). lia.
Qed.

(** ** Linking *)

(** The state of [enlazarNodos] once the edge is stored and the child's
    layers are merged, right before the propagation starts. *)
Definition enlazado (d : Diagrama) (id_padre id_hijo : Z) : Diagrama :=
  let d := mutar id_padre (λ n, con_hijos (hijos n ++ [id_hijo]) n) d in
  let d := mutar id_hijo (λ n, con_padres (padres n ++ [id_padre]) n) d in
  mutar id_hijo
    (con_heredadas
       (combinar (restricciones (obj d id_padre))
                 (restricciones_heredadas (obj d id_hijo))))
    d.

(** The conditions under which [enlazarNodos] accepts a link. *)
Definition enlazable (d : Diagrama) (id_padre id_hijo : Z) : Prop :=
  id_padre ∈ nodos d ∧ id_hijo ∈ nodos d ∧
  (id_hijo ∉ hijos (obj d id_padre)) ∧
  ¬ rtc (arista d) id_hijo id_padre.

Lemma enlazable_ne d p c : enlazable d p c → p ≠ c.
Proof. intros (_ & _ & _ & Hr) ->. apply Hr, rtc_refl. Qed.

Ltac campos_mutar :=
  unfold enlazado, restricciones; simpl;
  rewrite ?obj_mutar; repeat (case_bool_decide; simplify_eq; simpl);
  rewrite ?obj_mutar; repeat (case_bool_decide; simplify_eq; simpl);
  try done.

Lemma nodos_enlazado d p c : nodos (enlazado d p c) = nodos d.
Proof. done. Qed.

Lemma hijos_enlazado d p c k :
  hijos (obj (enlazado d p c) k)
  = if bool_decide (k = p) then hijos (obj d p) ++ [c] else hijos (obj d k).
Proof. campos_mutar. Qed.

Lemma padres_enlazado d p c k :
  padres (obj (enlazado d p c) k)
  = if bool_decide (k = c) then padres (obj d c) ++ [p] else padres (obj d k).
Proof. campos_mutar. Qed.

Lemma heredadas_enlazado d p c k :
  restricciones_heredadas (obj (enlazado d p c) k)
  = if bool_decide (k = c)
    then combinar (restricciones (obj d p)) (restricciones_heredadas (obj d c))
    else restricciones_heredadas (obj d k).
Proof. campos_mutar. Qed.

Lemma propias_enlazado d p c k :
  restricciones_propias (obj (enlazado d p c) k)
  = restricciones_propias (obj d k).
Proof. campos_mutar. Qed.

Lemma nombre_enlazado d p c k :
  nombre (obj (enlazado d p c) k) = nombre (obj d k).
Proof. campos_mutar. Qed.

Lemma homologos_enlazado d p c k :
  homologos (obj (enlazado d p c) k) = homologos (obj d k).
Proof. campos_mutar. Qed.

Lemma arista_enlazado d p c a b :
  arista (enlazado d p c) a b → arista d a b ∨ (a = p ∧ b = c).
Proof.
  unfold arista. rewrite nodos_enlazado, hijos_enlazado.
  case_bool_decide; [subst a|tauto].
  intros [? [?| ->%list_elem_of_singleton]%elem_of_app]; tauto.
Qed.

Lemma arista_enlazado_2 d p c a b :
  arista d a b → arista (enlazado d p c) a b.
Proof.
  unfold arista. rewrite nodos_enlazado, hijos_enlazado.
  case_bool_decide; [subst a|tauto]. set_solver.
Qed.

Lemma aciclico_enlazado d p c :
  aciclico d → ¬ rtc (arista d) c p → aciclico (enlazado d p c).
Proof.
  intros Hac Hr. unfold aciclico.
  eapply (sin_ciclo_añadir_arista (arista d)); [|done..].
  apply arista_enlazado.
Qed.

(** [enlazarNodos], case by case. *)
Lemma enlazarNodos_casos fuel d p c b d' :
  enlazarNodos fuel d p c = Some (b, d') →
  (b = false ∧ d' = d ∧ ¬ enlazable d p c) ∨
  (b = true ∧ enlazable d p c ∧
   _propagarRestricciones fuel (enlazado d p c) c = Some d').
Proof.
  unfold enlazarNodos, enlazable.
  destruct (registrado d p) eqn:Hp; simpl.
  2:{ intros [= <- <-]. left. apply registrado_false in Hp. tauto. }
  destruct (registrado d c) eqn:Hc; simpl.
  2:{ intros [= <- <-]. left. apply registrado_false in Hc. tauto. }
  apply registrado_true in Hp, Hc.
  case_bool_decide as Hin.
  { intros [= <- <-]. left. tauto. }
  destruct (_creaCiclo fuel d p c) as [ciclo|] eqn:Hciclo; [|done].
  apply _creaCiclo_spec in Hciclo.
  destruct ciclo.
  { intros [= <- <-]. left. split; [done|]. split; [done|].
    intros (_ & _ & _ & Hr). apply Hr. by apply Hciclo. }
  fold (enlazado d p c).
  destruct (_propagarRestricciones fuel (enlazado d p c) c) as [d1|] eqn:Hpr;
    [|done].
  intros [= <- <-]. right. repeat split; try done.
  intros Hr. apply Hciclo in Hr. done.
Qed.

Lemma enlazarNodos_termina fuel d p c :
  aciclico d → (length (nodos d) < fuel)%nat →
  is_Some (enlazarNodos fuel d p c).
Proof.
  intros Hac Hf. unfold enlazarNodos.
  destruct (negb (registrado d p) || negb (registrado d c)); [done|].
  case_bool_decide; [done|].
  destruct (_creaCiclo_termina fuel d p c Hf) as [ciclo Hciclo].
  rewrite Hciclo. destruct ciclo; [done|].
  apply _creaCiclo_spec in Hciclo.
  fold (enlazado d p c).
  destruct (_propagarRestricciones_termina fuel (enlazado d p c) c)
    as [d1 ->]; [|done..].
  apply aciclico_enlazado; [done|].
  intros Hr. apply Hciclo in Hr. done.
Qed.

(** The result of [enlazarNodos] does not depend on the fuel once there is
    enough of it. *)
Lemma enlazarNodos_rechaza fuel d p c :
  (length (nodos d) < fuel)%nat → ¬ enlazable d p c →
  enlazarNodos fuel d p c = Some (false, d).
Proof.
  intros Hf Hne. unfold enlazarNodos, enlazable in *.
  destruct (registrado d p) eqn:Hp; simpl; [|done].
  destruct (registrado d c) eqn:Hc; simpl; [|done].
  apply registrado_true in Hp, Hc.
  case_bool_decide as Hin; [done|].
  destruct (_creaCiclo_termina fuel d p c Hf) as [ciclo Hciclo].
  rewrite Hciclo. apply _creaCiclo_spec in Hciclo.
  destruct ciclo; [done|]. exfalso. apply Hne. repeat split; try done.
  intros Hr. apply Hciclo in Hr. done.
Qed.

(** ** The graph invariant *)

(** What every state reached by the operations satisfies: ids are fresh,
    registered nodes only reference registered nodes, the two directions of
    an edge agree, no edge is stored twice, and there is no cycle. *)
Record bien_formado (d : Diagrama) : Prop := Mk_bien_formado {
  bf_fresco : ∀ k, k ∈ nodos d → k < _siguiente_id d;
  bf_hijos_reg : ∀ k h, k ∈ nodos d → h ∈ hijos (obj d k) → h ∈ nodos d;
  bf_padres_reg : ∀ k q, k ∈ nodos d → q ∈ padres (obj d k) → q ∈ nodos d;
  bf_consistente : ∀ p c, p ∈ nodos d → c ∈ nodos d →
                          c ∈ hijos (obj d p) ↔ p ∈ padres (obj d c);
  bf_nodup_hijos : ∀ k, k ∈ nodos d → NoDup (hijos (obj d k));
  bf_nodup_padres : ∀ k, k ∈ nodos d → NoDup (padres (obj d k));
  bf_aciclico : aciclico d
}.

(** The part of a node that the graph and the layers depend on. *)
Definition estructura (n : Nodo)
    : list Z * list Z * gset string * list (gset string) :=
  (hijos n, padres n, restricciones_propias n, restricciones_heredadas n).

(** Two states with the same registry and the same graph and layers; names,
    homologs and contents may differ. *)
Record mismo_grafo (d d' : Diagrama) : Prop := Mk_mismo_grafo {
  mg_nodos : nodos d' = nodos d;
  mg_siguiente : _siguiente_id d' = _siguiente_id d;
  mg_obj : ∀ k, estructura (obj d' k) = estructura (obj d k)
}.

Lemma mismo_grafo_refl d : mismo_grafo d d.
Proof. by split. Qed.

Lemma mismo_grafo_trans d1 d2 d3 :
  mismo_grafo d1 d2 → mismo_grafo d2 d3 → mismo_grafo d1 d3.
Proof. intros [] []. split; try congruence; intros k; by etrans. Qed.

Lemma mg_hijos d d' k : mismo_grafo d d' → hijos (obj d' k) = hijos (obj d k).
Proof. intros [_ _ H]. specialize (H k). unfold estructura in H. congruence. Qed.

Lemma mg_padres d d' k :
  mismo_grafo d d' → padres (obj d' k) = padres (obj d k).
Proof. intros [_ _ H]. specialize (H k). unfold estructura in H. congruence. Qed.

Lemma mg_propias d d' k :
  mismo_grafo d d' →
  restricciones_propias (obj d' k) = restricciones_propias (obj d k).
Proof. intros [_ _ H]. specialize (H k). unfold estructura in H. congruence. Qed.

Lemma mg_heredadas d d' k :
  mismo_grafo d d' →
  restricciones_heredadas (obj d' k) = restricciones_heredadas (obj d k).
Proof. intros [_ _ H]. specialize (H k). unfold estructura in H. congruence. Qed.

Lemma mismo_grafo_mutar d k f :
  (∀ n, estructura (f n) = estructura n) → mismo_grafo d (mutar k f d).
Proof.
  intros Hf. split; try done. intros j. rewrite obj_mutar.
  case_bool_decide; [subst; apply Hf|done].
Qed.

(** The invariant only looks at the registry and at the edges. *)
Lemma bien_formado_ext d e :
  bien_formado d →
  (∀ k, k ∈ nodos e ↔ k ∈ nodos d) →
  _siguiente_id d ≤ _siguiente_id e →
  (∀ k, hijos (obj e k) = hijos (obj d k)) →
  (∀ k, padres (obj e k) = padres (obj d k)) →
  bien_formado e.
Proof.
  intros [H1 H2 H3 H4 H5 H6 H7] Hn Hs Hh Hp.
  split.
  - intros k Hk%Hn. specialize (H1 k Hk). lia.
  - intros k h ?%Hn. rewrite Hh, Hn. eauto.
  - intros k q ?%Hn. rewrite Hp, Hn. eauto.
  - intros p c ?%Hn ?%Hn. rewrite Hh, Hp. auto.
  - intros k ?%Hn. rewrite Hh. auto.
  - intros k ?%Hn. rewrite Hp. auto.
  - eapply aciclico_sub; [|done].
    intros a b. unfold arista. rewrite Hh, Hn. done.
Qed.

Lemma bien_formado_mismo_grafo d e :
  mismo_grafo d e → bien_formado d → bien_formado e.
Proof.
  intros Hg Hbf. eapply bien_formado_ext; [done|..].
  - intros k. by rewrite (mg_nodos _ _ Hg).
  - rewrite (mg_siguiente _ _ Hg). lia.
  - intros k. by apply mg_hijos.
  - intros k. by apply mg_padres.
Qed.

Lemma bien_formado_misma_forma d e :
  misma_forma d e → bien_formado d → bien_formado e.
Proof.
  intros Hf Hbf. eapply bien_formado_ext; [done|..].
  - intros k. by rewrite (mf_nodos _ _ Hf).
  - rewrite (mf_siguiente _ _ Hf). lia.
  - intros k. by apply mf_hijos.
  - intros k. by apply mf_padres.
Qed.

(** The homolog tracker leaves the graph alone. *)
Lemma paso_homologos_mismo_grafo id nom l homs d homs' d' :
  foldl (paso_homologos id nom) (homs, d) l = (homs', d') → mismo_grafo d d'.
Proof.
  revert homs d. induction l as [|k l IH]; intros homs d; simpl.
  - intros [= _ <-]. apply mismo_grafo_refl.
  - destruct (bool_decide (nombre (obj d k) = nom) && bool_decide (k ≠ id));
      intros Hl; apply IH in Hl; [|done].
    eapply mismo_grafo_trans; [|done]. by apply mismo_grafo_mutar.
Qed.

Lemma actualizarHomologos_mismo_grafo d id nom :
  mismo_grafo d (actualizarHomologos d id nom).
Proof.
  unfold actualizarHomologos.
  destruct (negb (registrado d id)); [apply mismo_grafo_refl|].
  destruct (foldl (paso_homologos id nom) (∅, d) (nodos d)) as [homs d1] eqn:Hl.
  apply paso_homologos_mismo_grafo in Hl.
  eapply mismo_grafo_trans; [done|]. by apply mismo_grafo_mutar.
Qed.

Lemma actualizar_nodo_mismo_grafo d id datos :
  mismo_grafo d (actualizar_nodo d id datos).2.
Proof.
  unfold actualizar_nodo.
  destruct (negb (registrado d id)); simpl; [apply mismo_grafo_refl|].
  destruct datos as [[nom|] [c|] [g|]]; simpl;
    repeat first
      [ apply mismo_grafo_refl
      | eapply mismo_grafo_trans; [|by apply mismo_grafo_mutar]
      | eapply mismo_grafo_trans; [|apply actualizarHomologos_mismo_grafo] ].
Qed.

(** *** Edge-level changes that keep the invariant *)

Lemma bien_formado_arista_nueva d e p c :
  bien_formado d → p ∈ nodos d → c ∈ nodos d →
  ¬ rtc (arista d) c p →
  (∀ k, k ∈ nodos e ↔ k ∈ nodos d) →
  _siguiente_id d ≤ _siguiente_id e →
  (∀ k h, k ∈ nodos d →
     h ∈ hijos (obj e k) ↔ h ∈ hijos (obj d k) ∨ (k = p ∧ h = c)) →
  (∀ k q, k ∈ nodos d →
     q ∈ padres (obj e k) ↔ q ∈ padres (obj d k) ∨ (k = c ∧ q = p)) →
  (∀ k, k ∈ nodos d → NoDup (hijos (obj e k))) →
  (∀ k, k ∈ nodos d → NoDup (padres (obj e k))) →
  bien_formado e.
Proof.
  intros [H1 H2 H3 H4 H5 H6 H7] Hp Hc Hr Hn Hs Hh Hq Hnh Hnq.
  split.
  - intros k Hk%Hn. specialize (H1 k Hk). lia.
  - intros k h Hk%Hn [?|[-> ->]]%Hh; [|by apply Hn|done]. apply Hn. eauto.
  - intros k q Hk%Hn [?|[-> ->]]%Hq; [|by apply Hn|done]. apply Hn. eauto.
  - intros a b Ha%Hn Hb%Hn. rewrite Hh, Hq by done.
    rewrite (H4 a b) by done. naive_solver.
  - intros k ?%Hn. auto.
  - intros k ?%Hn. auto.
  - unfold aciclico.
    eapply (sin_ciclo_añadir_arista (arista d) _ p c); [|done..].
    intros a b [Ha%Hn Hab]. apply Hh in Hab; [|done].
    destruct Hab as [?|[-> ->]]; [left; by split|by right].
Qed.

Lemma bien_formado_arista_quitada d e p c :
  bien_formado d →
  (∀ k, k ∈ nodos e ↔ k ∈ nodos d) →
  _siguiente_id d ≤ _siguiente_id e →
  (∀ k h, k ∈ nodos d →
     h ∈ hijos (obj e k) ↔ h ∈ hijos (obj d k) ∧ ¬ (k = p ∧ h = c)) →
  (∀ k q, k ∈ nodos d →
     q ∈ padres (obj e k) ↔ q ∈ padres (obj d k) ∧ ¬ (k = c ∧ q = p)) →
  (∀ k, k ∈ nodos d → NoDup (hijos (obj e k))) →
  (∀ k, k ∈ nodos d → NoDup (padres (obj e k))) →
  bien_formado e.
Proof.
  intros [H1 H2 H3 H4 H5 H6 H7] Hn Hs Hh Hq Hnh Hnq.
  split.
  - intros k Hk%Hn. specialize (H1 k Hk). lia.
  - intros k h Hk%Hn [? _]%Hh; [|done]. apply Hn. eauto.
  - intros k q Hk%Hn [? _]%Hq; [|done]. apply Hn. eauto.
  - intros a b Ha%Hn Hb%Hn. rewrite Hh, Hq by done.
    rewrite (H4 a b) by done. naive_solver.
  - intros k ?%Hn. auto.
  - intros k ?%Hn. auto.
  - eapply aciclico_sub; [|done].
    intros a b [Ha%Hn Hab]. apply Hh in Hab as [? _]; [|done]. by split.
Qed.

Lemma bien_formado_nodo_nuevo d e nid :
  bien_formado d → nid ∉ nodos d →
  (∀ k, k ∈ nodos e ↔ k ∈ nodos d ∨ k = nid) →
  _siguiente_id d ≤ _siguiente_id e → nid < _siguiente_id e →
  hijos (obj e nid) = [] → padres (obj e nid) = [] →
  (∀ k, k ∈ nodos d → hijos (obj e k) = hijos (obj d k)) →
  (∀ k, k ∈ nodos d → padres (obj e k) = padres (obj d k)) →
  bien_formado e.
Proof.
  intros [H1 H2 H3 H4 H5 H6 H7] Hnid Hn Hs Hlt Hh0 Hp0 Hh Hq.
  assert (∀ k x, k ∈ nodos e → x ∈ hijos (obj e k) →
                 k ∈ nodos d ∧ x ∈ hijos (obj d k)) as Hhe.
  { intros k x [Hk| ->]%Hn Hx.
    - rewrite Hh in Hx by done. done.
    - rewrite Hh0 in Hx. by apply elem_of_nil in Hx. }
  assert (∀ k x, k ∈ nodos e → x ∈ padres (obj e k) →
                 k ∈ nodos d ∧ x ∈ padres (obj d k)) as Hqe.
  { intros k x [Hk| ->]%Hn Hx.
    - rewrite Hq in Hx by done. done.
    - rewrite Hp0 in Hx. by apply elem_of_nil in Hx. }
  split.
  - intros k [Hk| ->]%Hn; [|done]. specialize (H1 k Hk). lia.
  - intros k h Hk Hx. destruct (Hhe _ _ Hk Hx). apply Hn. eauto.
  - intros k q Hk Hx. destruct (Hqe _ _ Hk Hx). apply Hn. eauto.
  - intros a b Ha Hb. split.
    + intros Hx. destruct (Hhe _ _ Ha Hx) as [Ha' Hx'].
      assert (b ∈ nodos d) by eauto.
      rewrite Hq by done. by apply H4.
    + intros Hx. destruct (Hqe _ _ Hb Hx) as [Hb' Hx'].
      assert (a ∈ nodos d) by eauto.
      rewrite Hh by done. by apply H4.
  - intros k [Hk| ->]%Hn; [rewrite Hh by done; auto|].
    rewrite Hh0. constructor.
  - intros k [Hk| ->]%Hn; [rewrite Hq by done; auto|].
    rewrite Hp0. constructor.
  - eapply aciclico_sub; [|done].
    intros a b [Ha Hab]. destruct (Hhe _ _ Ha Hab). by split.
Qed.

(** *** Creation *)

Lemma bien_formado_init nom : bien_formado (Diagrama_init nom).
Proof.
  split; simpl.
  - intros k ->%list_elem_of_singleton. done.
  - intros k h ->%list_elem_of_singleton. by intros ?%elem_of_nil.
  - intros k h ->%list_elem_of_singleton. by intros ?%elem_of_nil.
  - intros p c ->%list_elem_of_singleton ->%list_elem_of_singleton.
    split; by intros ?%elem_of_nil.
  - intros k ->%list_elem_of_singleton. constructor.
  - intros k ->%list_elem_of_singleton. constructor.
  - intros k Hk.
    assert (∀ a b, arista (Diagrama_init nom) a b → False) as Hno.
    { intros a b [->%list_elem_of_singleton Hb]. by apply elem_of_nil in Hb. }
    destruct Hk as [a b Hab|a b c Hab _]; by eapply Hno.
Qed.

(** The parent that [añadirNodo] really uses: the one given, when it is
    registered. *)
Definition padre_valido (d : Diagrama) (id_padre : option Z) : option Z :=
  match id_padre with
  | Some p => if registrado d p then Some p else None
  | None => None
  end.

Lemma nodos_añadido d nom ip nh :
  _siguiente_id d ∉ nodos d →
  nodos (añadido d nom ip nh) = nodos d ++ [_siguiente_id d].
Proof.
  intros Hf. unfold añadido.
  destruct ip as [p|]; [destruct (registrado _ p)|]; simpl;
    by rewrite bool_decide_eq_false_2.
Qed.

Lemma siguiente_añadido d nom ip nh :
  _siguiente_id (añadido d nom ip nh) = _siguiente_id d + 1.
Proof.
  unfold añadido. by destruct ip as [p|]; [destruct (registrado _ p)|].
Qed.

Lemma obj_dict_asignar k n d j :
  obj (dict_asignar k n d) j = if bool_decide (j = k) then n else obj d j.
Proof.
  unfold obj, dict_asignar; simpl. case_bool_decide.
  - subst. by rewrite lookup_total_insert_eq.
  - by rewrite lookup_total_insert_ne.
Qed.

Lemma obj_añadido d nom ip nh k :
  obj (añadido d nom ip nh) k =
  match padre_valido d ip with
  | Some p =>
      if bool_decide (k = _siguiente_id d)
      then con_heredadas (restricciones (obj d p))
             (con_padres [p] (con_nombre nom Nodo_nuevo))
      else if bool_decide (k = p)
      then con_hijos (anexar_hijo nh (_siguiente_id d) (hijos (obj d p)))
                     (obj d p)
      else obj d k
  | None =>
      if bool_decide (k = _siguiente_id d) then con_nombre nom Nodo_nuevo
      else obj d k
  end.
Proof.
  unfold añadido, padre_valido.
  destruct ip as [p|]; [|by rewrite obj_dict_asignar].
  change (registrado (Mk_Diagrama _ _ _ _ _) p) with (registrado d p).
  destruct (registrado d p); rewrite obj_dict_asignar; [|done].
  case_bool_decide; [done|]. rewrite obj_mutar. by case_bool_decide; subst.
Qed.

Lemma elem_of_list_insertar {A} i (x y : A) l :
  y ∈ list_insertar i x l ↔ y = x ∨ y ∈ l.
Proof.
  unfold list_insertar. rewrite elem_of_app, elem_of_cons.
  assert (y ∈ l ↔ y ∈ take i l ∨ y ∈ drop i l) as ->; [|tauto].
  by rewrite <-elem_of_app, take_drop.
Qed.

Lemma NoDup_list_insertar {A} i (x : A) l :
  x ∉ l → NoDup l → NoDup (list_insertar i x l).
Proof.
  intros Hx Hl. unfold list_insertar.
  assert (take i l ++ x :: drop i l ≡ₚ x :: l) as ->.
  { rewrite <-Permutation_middle. by rewrite take_drop. }
  by constructor.
Qed.

Lemma elem_of_anexar_hijo nh nid hs y :
  y ∈ anexar_hijo nh nid hs ↔ y ∈ hs ∨ y = nid.
Proof.
  unfold anexar_hijo.
  destruct nh as [k|];
    [destruct (bool_decide (0 ≤ k) && bool_decide (k ≤ Z.of_nat (length hs)))|];
    rewrite ?elem_of_list_insertar, ?elem_of_app, ?list_elem_of_singleton; tauto.
Qed.

Lemma NoDup_anexar_hijo nh nid hs :
  nid ∉ hs → NoDup hs → NoDup (anexar_hijo nh nid hs).
Proof.
  intros Hx Hl. unfold anexar_hijo.
  destruct nh as [k|];
    [destruct (bool_decide (0 ≤ k) && bool_decide (k ≤ Z.of_nat (length hs)))|];
    [by apply NoDup_list_insertar| |];
    (apply NoDup_app; split; [done|]; split; [|apply NoDup_singleton]);
    intros y Hy ->%list_elem_of_singleton; done.
Qed.

Lemma bien_formado_fresco d : bien_formado d → _siguiente_id d ∉ nodos d.
Proof. intros Hbf Hin. apply (bf_fresco _ Hbf) in Hin. lia. Qed.

Lemma padre_valido_Some d ip p :
  padre_valido d ip = Some p → ip = Some p ∧ p ∈ nodos d.
Proof.
  unfold padre_valido. destruct ip as [q|]; [|done].
  destruct (registrado d q) eqn:Hq; [|done].
  intros [= ->]. by apply registrado_true in Hq.
Qed.

Lemma bien_formado_añadido d nom ip nh :
  bien_formado d → bien_formado (añadido d nom ip nh).
Proof.
  intros Hbf. pose proof (bien_formado_fresco d Hbf) as Hnid.
  set (x0 := dict_asignar (_siguiente_id d) (con_nombre nom Nodo_nuevo)
               (Mk_Diagrama (d_nombre d) (objetos d) (nodos d) ((_siguiente_id d) + 1)
                            (nodo_raiz_id d))).
  assert (bien_formado x0) as Hx0.
  { apply (bien_formado_nodo_nuevo d x0 (_siguiente_id d)); try done.
    - intros k. unfold x0; simpl. rewrite bool_decide_eq_false_2 by done.
      rewrite elem_of_app, list_elem_of_singleton. done.
    - unfold x0; simpl. lia.
    - unfold x0; simpl. lia.
    - unfold x0. rewrite obj_dict_asignar. by rewrite bool_decide_eq_true_2.
    - unfold x0. rewrite obj_dict_asignar. by rewrite bool_decide_eq_true_2.
    - intros k Hk. unfold x0. rewrite obj_dict_asignar.
      rewrite bool_decide_eq_false_2; [done|]. by intros ->.
    - intros k Hk. unfold x0. rewrite obj_dict_asignar.
      rewrite bool_decide_eq_false_2; [done|]. by intros ->. }
  assert (∀ k, k ∈ nodos x0 ↔ k ∈ nodos d ∨ k = (_siguiente_id d)) as Hn0.
  { intros k. unfold x0; simpl. rewrite bool_decide_eq_false_2 by done.
    rewrite elem_of_app, list_elem_of_singleton. done. }
  assert (∀ k, obj x0 k
               = if bool_decide (k = (_siguiente_id d)) then con_nombre nom Nodo_nuevo
                 else obj d k) as Ho0.
  { intros k. unfold x0. by rewrite obj_dict_asignar. }
  assert (∀ k, k ∈ nodos (añadido d nom ip nh) ↔ k ∈ nodos x0) as Hn.
  { intros k. rewrite nodos_añadido by done. rewrite Hn0.
    rewrite elem_of_app, list_elem_of_singleton. done. }
  destruct (padre_valido d ip) as [p|] eqn:Hpv.
  - apply padre_valido_Some in Hpv as Hp. destruct Hp as [-> Hp].
    assert (p ≠ (_siguiente_id d)) as Hpn by (by intros ->).
    apply (bien_formado_arista_nueva x0 _ p (_siguiente_id d)); try done.
    + apply Hn0. by left.
    + apply Hn0. by right.
    + intros Hr. apply rtc_inv in Hr as [?|(y & [_ Hy] & _)]; [done|].
      rewrite Ho0, bool_decide_eq_true_2 in Hy by done.
      by apply elem_of_nil in Hy.
    + rewrite siguiente_añadido. unfold x0; simpl. lia.
    + intros k h Hk. rewrite obj_añadido, Hpv, Ho0.
      case_bool_decide as Hkn; [subst k; simpl|].
      { split; [by intros ?%elem_of_nil|]. intros [?%elem_of_nil|[? _]]; done. }
      case_bool_decide as Hkp; [subst k; simpl|naive_solver].
      rewrite elem_of_anexar_hijo. naive_solver.
    + intros k q Hk. rewrite obj_añadido, Hpv, Ho0.
      case_bool_decide as Hkn; [subst k; simpl|].
      { rewrite list_elem_of_singleton. split; [intros ->; by right|].
        intros [?%elem_of_nil|[_ ->]]; done. }
      case_bool_decide as Hkp; [subst k; simpl|]; naive_solver.
    + intros k Hk. rewrite obj_añadido, Hpv.
      case_bool_decide as Hkn; [subst k; simpl; constructor|].
      apply Hn0 in Hk as [Hk|?]; [|done].
      case_bool_decide as Hkp; [subst k; simpl|by apply (bf_nodup_hijos _ Hbf)].
      apply NoDup_anexar_hijo; [|by apply (bf_nodup_hijos _ Hbf)].
      intros Hin. apply Hnid. by eapply (bf_hijos_reg _ Hbf).
    + intros k Hk. rewrite obj_añadido, Hpv.
      case_bool_decide as Hkn; [subst k; simpl; apply NoDup_singleton|].
      apply Hn0 in Hk as [Hk|?]; [|done].
      case_bool_decide as Hkp; [subst k; simpl|]; by apply (bf_nodup_padres _ Hbf).
  - eapply bien_formado_ext; [apply Hx0|done|..].
    + rewrite siguiente_añadido. unfold x0; simpl. lia.
    + intros k. by rewrite obj_añadido, Hpv, Ho0.
    + intros k. by rewrite obj_añadido, Hpv, Ho0.
Qed.

Lemma bien_formado_añadirNodo d nom ip nh :
  bien_formado d → bien_formado (añadirNodo d nom ip nh).2.
Proof.
  intros Hbf. unfold añadirNodo; simpl.
  eapply bien_formado_mismo_grafo; [apply actualizarHomologos_mismo_grafo|].
  by apply bien_formado_añadido.
Qed.

(** *** Linking and unlinking *)

Lemma bien_formado_enlazado d p c :
  bien_formado d → enlazable d p c → bien_formado (enlazado d p c).
Proof.
  intros Hbf (Hp & Hc & Hnin & Hr).
  apply (bien_formado_arista_nueva d _ p c); try done.
  - intros k h Hk. rewrite hijos_enlazado.
    case_bool_decide; [subst k|naive_solver].
    rewrite elem_of_app, list_elem_of_singleton. naive_solver.
  - intros k q Hk. rewrite padres_enlazado.
    case_bool_decide; [subst k|naive_solver].
    rewrite elem_of_app, list_elem_of_singleton. naive_solver.
  - intros k Hk. rewrite hijos_enlazado.
    case_bool_decide; [subst k|by apply (bf_nodup_hijos _ Hbf)].
    apply NoDup_app. split; [by apply (bf_nodup_hijos _ Hbf)|].
    split; [|apply NoDup_singleton].
    by intros y Hy ->%list_elem_of_singleton.
  - intros k Hk. rewrite padres_enlazado.
    case_bool_decide; [subst k|by apply (bf_nodup_padres _ Hbf)].
    apply NoDup_app. split; [by apply (bf_nodup_padres _ Hbf)|].
    split; [|apply NoDup_singleton].
    intros y Hy ->%list_elem_of_singleton.
    apply Hnin. by apply (bf_consistente _ Hbf).
Qed.

Lemma bien_formado_enlazarNodos fuel d p c b d' :
  bien_formado d → enlazarNodos fuel d p c = Some (b, d') → bien_formado d'.
Proof.
  intros Hbf [(_ & -> & _)|(_ & Hen & Hpr)]%enlazarNodos_casos; [done|].
  apply _propagarRestricciones_propagado in Hpr as [Hf _ _].
  eapply bien_formado_misma_forma; [done|]. by apply bien_formado_enlazado.
Qed.

Lemma list_quitar_fuera x l : x ∉ l → list_quitar x l = l.
Proof.
  induction l as [|y l IH]; [done|]. intros Hx; simpl.
  rewrite bool_decide_eq_false_2 by set_solver.
  f_equal. apply IH. set_solver.
Qed.

Lemma elem_of_list_quitar x y l :
  NoDup l → y ∈ list_quitar x l ↔ y ∈ l ∧ y ≠ x.
Proof.
  induction 1 as [|z l Hz Hl IH]; simpl; [set_solver|].
  case_bool_decide; [subst z|]; set_solver.
Qed.

Lemma NoDup_list_quitar x l : NoDup l → NoDup (list_quitar x l).
Proof.
  induction 1 as [|z l Hz Hl IH]; simpl; [constructor|].
  case_bool_decide; [done|]. constructor; [|done].
  intros Hin. apply Hz. clear -Hin.
  induction l as [|w l IH]; simpl in *; [done|].
  case_bool_decide; set_solver.
Qed.

Lemma nodos_eliminar_enlace d p c :
  nodos (eliminar_enlace d p c).2 = nodos d.
Proof.
  unfold eliminar_enlace.
  destruct (negb (registrado d p) || negb (registrado d c)); simpl; [done|].
  by repeat case_bool_decide.
Qed.

Lemma siguiente_eliminar_enlace d p c :
  _siguiente_id (eliminar_enlace d p c).2 = _siguiente_id d.
Proof.
  unfold eliminar_enlace.
  destruct (negb (registrado d p) || negb (registrado d c)); simpl; [done|].
  by repeat case_bool_decide.
Qed.

Lemma eliminar_enlace_campos d p c :
  p ∈ nodos d → c ∈ nodos d →
  ∀ k,
    hijos (obj (eliminar_enlace d p c).2 k)
    = (if bool_decide (k = p) then list_quitar c (hijos (obj d p))
       else hijos (obj d k)) ∧
    padres (obj (eliminar_enlace d p c).2 k)
    = (if bool_decide (k = c) then list_quitar p (padres (obj d c))
       else padres (obj d k)).
Proof.
  intros Hp%registrado_true Hc%registrado_true k.
  unfold eliminar_enlace. rewrite Hp, Hc.
  cbn [negb orb snd].
  set (d1 := if bool_decide (c ∈ hijos (obj d p)) then _ else d).
  assert (∀ j, hijos (obj d1 j)
               = (if bool_decide (j = p) then list_quitar c (hijos (obj d p))
                  else hijos (obj d j)) ∧
               padres (obj d1 j) = padres (obj d j)) as H1.
  { intros j. unfold d1. case_bool_decide as Hin.
    - rewrite obj_mutar. by case_bool_decide; subst.
    - case_bool_decide; subst; [|done]. by rewrite list_quitar_fuera. }
  destruct (H1 c) as [_ ->].
  case_bool_decide as Hin.
  - rewrite obj_mutar. case_bool_decide; subst; simpl.
    + by destruct (H1 c) as [-> ->].
    + by destruct (H1 k) as [-> ->].
  - destruct (H1 k) as [-> ->]. split; [done|].
    case_bool_decide; subst; [|done]. by rewrite list_quitar_fuera.
Qed.

Lemma hijos_eliminar_enlace d p c k :
  p ∈ nodos d → c ∈ nodos d →
  hijos (obj (eliminar_enlace d p c).2 k)
  = if bool_decide (k = p) then list_quitar c (hijos (obj d p))
    else hijos (obj d k).
Proof. intros Hp Hc. by destruct (eliminar_enlace_campos d p c Hp Hc k). Qed.

Lemma padres_eliminar_enlace d p c k :
  p ∈ nodos d → c ∈ nodos d →
  padres (obj (eliminar_enlace d p c).2 k)
  = if bool_decide (k = c) then list_quitar p (padres (obj d c))
    else padres (obj d k).
Proof. intros Hp Hc. by destruct (eliminar_enlace_campos d p c Hp Hc k). Qed.

Lemma estructura_resto_eliminar_enlace d p c k :
  restricciones_propias (obj (eliminar_enlace d p c).2 k)
  = restricciones_propias (obj d k) ∧
  restricciones_heredadas (obj (eliminar_enlace d p c).2 k)
  = restricciones_heredadas (obj d k) ∧
  nombre (obj (eliminar_enlace d p c).2 k) = nombre (obj d k) ∧
  homologos (obj (eliminar_enlace d p c).2 k) = homologos (obj d k).
Proof.
  unfold eliminar_enlace.
  destruct (negb (registrado d p) || negb (registrado d c)); simpl; [done|].
  repeat case_bool_decide; rewrite ?obj_mutar;
    repeat (case_bool_decide; simplify_eq; simpl);
    rewrite ?obj_mutar; repeat (case_bool_decide; simplify_eq; simpl); done.
Qed.

Lemma bien_formado_eliminar_enlace d p c :
  bien_formado d → bien_formado (eliminar_enlace d p c).2.
Proof.
  intros Hbf.
  destruct (decide (p ∈ nodos d ∧ c ∈ nodos d)) as [[Hp Hc]|Hno].
  2:{ unfold eliminar_enlace.
      destruct (registrado d p) eqn:Hp; simpl; [|done].
      destruct (registrado d c) eqn:Hc; simpl; [|done].
      apply registrado_true in Hp, Hc. tauto. }
  apply (bien_formado_arista_quitada d _ p c); try done.
  - intros k. by rewrite nodos_eliminar_enlace.
  - rewrite siguiente_eliminar_enlace. lia.
  - intros k h Hk. rewrite hijos_eliminar_enlace by done.
    case_bool_decide; [subst k|naive_solver].
    rewrite elem_of_list_quitar by (by apply (bf_nodup_hijos _ Hbf)).
    naive_solver.
  - intros k q Hk. rewrite padres_eliminar_enlace by done.
    case_bool_decide; [subst k|naive_solver].
    rewrite elem_of_list_quitar by (by apply (bf_nodup_padres _ Hbf)).
    naive_solver.
  - intros k Hk. rewrite hijos_eliminar_enlace by done.
    case_bool_decide; [subst k; apply NoDup_list_quitar|];
      by apply (bf_nodup_hijos _ Hbf).
  - intros k Hk. rewrite padres_eliminar_enlace by done.
    case_bool_decide; [subst k; apply NoDup_list_quitar|];
      by apply (bf_nodup_padres _ Hbf).
Qed.

(** *** Deletion *)

Lemma quitar_de_padre_campos id p d k :
  nodos (quitar_de_padre id d p) = nodos d ∧
  _siguiente_id (quitar_de_padre id d p) = _siguiente_id d ∧
  hijos (obj (quitar_de_padre id d p) k)
  = (if bool_decide (k = p ∧ k ∈ nodos d)
     then filter (λ h, h ≠ id) (hijos (obj d k))
     else hijos (obj d k)) ∧
  con_hijos [] (obj (quitar_de_padre id d p) k) = con_hijos [] (obj d k).
Proof.
  unfold quitar_de_padre. destruct (registrado d p) eqn:Hp.
  - apply registrado_true in Hp. rewrite obj_mutar.
    split; [done|]. split; [done|].
    destruct (decide (k = p)) as [->|Hkp].
    + rewrite !bool_decide_eq_true_2 by done. done.
    + rewrite bool_decide_eq_false_2 by done.
      rewrite bool_decide_eq_false_2 by tauto. done.
  - apply registrado_false in Hp.
    split; [done|]. split; [done|]. split; [|done].
    rewrite bool_decide_eq_false_2; [done|]. intros [-> ?]. done.
Qed.

Lemma quitar_de_padres_campos id ps d k :
  nodos (quitar_de_padres id d ps) = nodos d ∧
  _siguiente_id (quitar_de_padres id d ps) = _siguiente_id d ∧
  hijos (obj (quitar_de_padres id d ps) k)
  = (if bool_decide (k ∈ ps ∧ k ∈ nodos d)
     then filter (λ h, h ≠ id) (hijos (obj d k))
     else hijos (obj d k)) ∧
  con_hijos [] (obj (quitar_de_padres id d ps) k) = con_hijos [] (obj d k).
Proof.
  unfold quitar_de_padres.
  revert d. induction ps as [|p ps IH]; intros d; cbn [foldl].
  { split; [done|]. split; [done|]. split; [|done].
    rewrite bool_decide_eq_false_2; [done|].
    intros [?%elem_of_nil _]. done. }
  destruct (IH (quitar_de_padre id d p)) as (Hn & Hs & Hh & Hr). clear IH.
  destruct (quitar_de_padre_campos id p d k) as (Hn1 & Hs1 & Hh1 & Hr1).
  rewrite Hn, Hs, Hh, Hr, Hn1, Hs1, Hh1, Hr1.
  clear Hn Hs Hh Hr Hn1 Hs1 Hh1 Hr1.
  split; [done|]. split; [done|]. split; [|done].
  destruct (decide (k ∈ nodos d)) as [Hk|Hk].
  2:{ rewrite !bool_decide_eq_false_2 by tauto. done. }
  destruct (decide (k = p)) as [->|Hkp].
  - rewrite (bool_decide_eq_true_2 (p = p ∧ _)) by done.
    rewrite (bool_decide_eq_true_2 (p ∈ p :: ps ∧ _)) by (split; [left|done]).
    case_bool_decide; [|done].
    rewrite list_filter_filter. apply list_filter_iff. tauto.
  - rewrite (bool_decide_eq_false_2 (k = p ∧ _)) by tauto.
    rewrite (bool_decide_ext (k ∈ p :: ps ∧ k ∈ nodos d)
                             (k ∈ ps ∧ k ∈ nodos d)) by set_solver.
    done.
Qed.

Lemma quitar_de_homologos_mismo_grafo id hs d :
  mismo_grafo d (quitar_de_homologos id d hs).
Proof.
  unfold quitar_de_homologos.
  revert d. induction hs as [|h hs IH]; intros d; cbn [foldl].
  { apply mismo_grafo_refl. }
  eapply mismo_grafo_trans; [|apply IH].
  unfold quitar_de_homologo. destruct (registrado d h).
  - by apply mismo_grafo_mutar.
  - apply mismo_grafo_refl.
Qed.

(** Deletion only shrinks: it registers nothing, adds no child to any list
    and leaves parents' lists and layers alone. *)
Record encogido (d d' : Diagrama) : Prop := Mk_encogido {
  en_nodos : ∀ k, k ∈ nodos d' → k ∈ nodos d;
  en_hijos : ∀ k h, h ∈ hijos (obj d' k) → h ∈ hijos (obj d k);
  en_siguiente : _siguiente_id d' = _siguiente_id d;
  en_padres : ∀ k, padres (obj d' k) = padres (obj d k);
  en_propias : ∀ k, restricciones_propias (obj d' k)
                    = restricciones_propias (obj d k);
  en_heredadas : ∀ k, restricciones_heredadas (obj d' k)
                      = restricciones_heredadas (obj d k)
}.

Lemma encogido_refl d : encogido d d.
Proof. by split. Qed.

Lemma encogido_trans d1 d2 d3 :
  encogido d1 d2 → encogido d2 d3 → encogido d1 d3.
Proof.
  intros [A1 A2 A3 A4 A5 A6] [B1 B2 B3 B4 B5 B6].
  split; [eauto|eauto|congruence|..]; intros k.
  - by rewrite B4.
  - by rewrite B5.
  - by rewrite B6.
Qed.

Lemma encogido_arista d d' a b : encogido d d' → arista d' a b → arista d a b.
Proof. intros [H1 H2 _ _ _ _] [Ha Hb]. split; eauto. Qed.

Lemma encogido_aciclico d d' : encogido d d' → aciclico d → aciclico d'.
Proof.
  intros He. apply aciclico_sub. intros a b. by apply encogido_arista.
Qed.

Lemma encogido_mismo_grafo d d' : mismo_grafo d d' → encogido d d'.
Proof.
  intros Hg. split.
  - intros k. by rewrite (mg_nodos _ _ Hg).
  - intros k h. by rewrite (mg_hijos _ _ _ Hg).
  - apply Hg.
  - intros k. by apply mg_padres.
  - intros k. by apply mg_propias.
  - intros k. by apply mg_heredadas.
Qed.

(** The last part of [eliminarNodo], after the children are gone. *)
Definition desregistrar (d : Diagrama) (id : Z) : Diagrama :=
  let nodo_homologos := homologos (obj d id) in
  let d := quitar_de_padres id d (padres (obj d id)) in
  let d := dict_borrar id d in
  quitar_de_homologos id d (elements nodo_homologos).

Lemma desregistrar_campos d id :
  (∀ k, k ∈ nodos (desregistrar d id) ↔ k ∈ nodos d ∧ k ≠ id) ∧
  _siguiente_id (desregistrar d id) = _siguiente_id d ∧
  ∀ k,
    hijos (obj (desregistrar d id) k)
    = (if bool_decide (k ∈ padres (obj d id) ∧ k ∈ nodos d)
       then filter (λ h, h ≠ id) (hijos (obj d k))
       else hijos (obj d k)) ∧
    padres (obj (desregistrar d id) k) = padres (obj d k) ∧
    restricciones_propias (obj (desregistrar d id) k)
    = restricciones_propias (obj d k) ∧
    restricciones_heredadas (obj (desregistrar d id) k)
    = restricciones_heredadas (obj d k).
Proof.
  unfold desregistrar.
  pose proof (quitar_de_padres_campos id (padres (obj d id)) d) as Hq.
  set (d2 := quitar_de_padres id d (padres (obj d id))) in *.
  pose proof (quitar_de_homologos_mismo_grafo id
                (elements (homologos (obj d id))) (dict_borrar id d2)) as Hg.
  split; [|split].
  - intros k. rewrite (mg_nodos _ _ Hg). unfold dict_borrar; simpl.
    rewrite list_elem_of_filter.
    destruct (Hq k) as (-> & _). tauto.
  - rewrite (mg_siguiente _ _ Hg). simpl.
    by destruct (Hq 0) as (_ & -> & _).
  - intros k.
    rewrite (mg_hijos _ _ _ Hg), (mg_padres _ _ _ Hg), (mg_propias _ _ _ Hg),
      (mg_heredadas _ _ _ Hg).
    change (obj (dict_borrar id d2) k) with (obj d2 k).
    destruct (Hq k) as (_ & _ & Hh & Hr).
    rewrite Hh. split; [done|].
    split; [apply (f_equal padres Hr)|].
    split; [apply (f_equal restricciones_propias Hr)|].
    apply (f_equal restricciones_heredadas Hr).
Qed.

Lemma encogido_desregistrar d id : encogido d (desregistrar d id).
Proof.
  destruct (desregistrar_campos d id) as (Hn & Hs & Hk).
  split; try done; try (intros k; by destruct (Hk k) as (_ & ? & ? & ?)).
  - intros k ?%Hn. tauto.
  - intros k h. destruct (Hk k) as (-> & _).
    case_bool_decide; [|done]. by intros [_ ?]%list_elem_of_filter.
Qed.

Lemma eliminarNodo_S fuel d id :
  eliminarNodo (S fuel) d id =
  if negb (registrado d id) then Some (false, d)
  else
    match para_cada (λ d hijo, snd <$> eliminarNodo fuel d hijo)
                    d (hijos (obj d id)) with
    | None => None
    | Some d => Some (true, desregistrar d id)
    end.
Proof. done. Qed.

(** Whatever the state, a run of [eliminarNodo] that returns has only shrunk
    it, has answered whether the id was registered, and leaves the id
    unregistered. *)
Lemma eliminarNodo_encoge fuel d id b d' :
  eliminarNodo fuel d id = Some (b, d') →
  encogido d d' ∧ (id ∉ nodos d') ∧
  (b = true ↔ id ∈ nodos d) ∧ (b = false → d' = d).
Proof.
  revert d id b d'. induction fuel as [|fuel IH]; intros d id b d'; [done|].
  rewrite eliminarNodo_S.
  destruct (registrado d id) eqn:Hreg; simpl.
  2:{ intros [= <- <-]. apply registrado_false in Hreg.
      split; [apply encogido_refl|]. split; [done|]. split; [|done].
      split; [done|]. done. }
  apply registrado_true in Hreg.
  destruct (para_cada _ d (hijos (obj d id))) as [d1|] eqn:Hloop; [|done].
  intros [= <- <-].
  assert (encogido d d1) as He1.
  { revert Hloop. apply para_cada_inv; [apply encogido_refl|].
    intros s x s' _ Hs Hx.
    destruct (eliminarNodo fuel s x) as [[b1 s1]|] eqn:Hx1; [|done].
    simpl in Hx. injection Hx as <-.
    apply IH in Hx1 as [? _]. by eapply encogido_trans. }
  split; [|split; [|split]].
  - eapply encogido_trans; [done|]. apply encogido_desregistrar.
  - destruct (desregistrar_campos d1 id) as (Hn & _). rewrite Hn. tauto.
  - done.
  - done.
Qed.

(** Deletion terminates on an acyclic diagram. *)
Lemma eliminarNodo_termina_en fuel d x (S : gset Z) :
  aciclico d →
  (∀ y, rtc (arista d) x y → y ∈ nodos d → y ∈ S) →
  (size S < fuel)%nat →
  is_Some (eliminarNodo fuel d x).
Proof.
  revert d x S. induction fuel as [|fuel IH]; intros d x S Hac HS Hsz; [lia|].
  rewrite eliminarNodo_S.
  destruct (registrado d x) eqn:Hreg; simpl; [|done].
  apply registrado_true in Hreg.
  assert (x ∈ S) as HxS by (apply HS; [apply rtc_refl|done]).
  destruct (para_cada_termina (encogido d)
              (λ d0 hijo, snd <$> eliminarNodo fuel d0 hijo)
              d (hijos (obj d x))) as (d1 & -> & _);
    [apply encogido_refl| |done].
  intros s h Hh He.
  destruct (IH s h (S ∖ {[x]})) as [[b s'] Hs'].
  - by eapply encogido_aciclico.
  - intros y Hy Hyreg.
    assert (rtc (arista d) h y) as Hy'.
    { eapply rtc_sub; [|done]. intros a b. by apply encogido_arista. }
    assert (tc (arista d) x y) as Hxy.
    { eapply tc_rtc_r; [apply tc_once|done]. done. }
    apply elem_of_difference. split.
    + apply HS; [by apply tc_rtc|]. by apply (en_nodos _ _ He).
    + intros ->%elem_of_singleton. by apply (Hac x).
  - assert (S ∖ {[x]} ⊂ S) as Hsub by set_solver.
    apply subset_size in Hsub. lia.
  - exists s'. rewrite Hs'. split; [done|].
    apply eliminarNodo_encoge in Hs' as [? _]. by eapply encogido_trans.
Qed.

Lemma eliminarNodo_termina fuel d x :
  aciclico d → (length (nodos d) < fuel)%nat →
  is_Some (eliminarNodo fuel d x).
Proof.
  intros Hac Hf.
  apply (eliminarNodo_termina_en fuel d x (registrados d)); [done| |].
  - intros y _ Hy. by apply elem_of_registrados.
  - pose proof (size_registrados d). lia.
Qed.

Lemma para_cada_inv2 {S A} (I : S → Prop) (Q : A → S → Prop)
    (cuerpo : S → A → option S) s l s' :
  I s →
  (∀ s x s', x ∈ l → I s → cuerpo s x = Some s' → I s' ∧ Q x s') →
  (∀ s y s' x, y ∈ l → I s → cuerpo s y = Some s' → Q x s → Q x s') →
  para_cada cuerpo s l = Some s' →
  I s' ∧ ∀ x, x ∈ l → Q x s'.
Proof.
  revert s. induction l as [|x l IH]; intros s Hs Hstep Hstable; simpl.
  { intros [= <-]. split; [done|]. by intros x ?%elem_of_nil. }
  destruct (cuerpo s x) as [s1|] eqn:Hx; [|done]. intros Hl.
  destruct (Hstep s x s1) as [Hs1 Hq1]; [left|done..|].
  assert (I s' ∧ Q x s') as [_ Hq].
  { apply (para_cada_inv (λ t, I t ∧ Q x t) cuerpo s1 l s'); [done| |done].
    intros t y t' Hy [Ht Hqt] Hyt. split.
    - eapply Hstep; [by right|done..].
    - eapply Hstable; [by right|done..]. }
  destruct (IH s1) as [Hs' Hqs]; try done.
  - intros ?????. eapply Hstep; [by right|done..].
  - intros ???????. eapply Hstable; [by right|done..].
  - split; [done|]. intros y [->|Hy]%elem_of_cons; [done|by apply Hqs].
Qed.

Lemma bien_formado_desregistrar d x :
  bien_formado d → x ∈ nodos d → (∀ h, h ∉ hijos (obj d x)) →
  bien_formado (desregistrar d x).
Proof.
  intros Hbf Hx Hsin.
  destruct (desregistrar_campos d x) as (Hn & Hs & Hk).
  assert (∀ k h, k ∈ nodos d → k ≠ x →
            h ∈ hijos (obj (desregistrar d x) k)
            ↔ h ∈ hijos (obj d k) ∧ h ≠ x) as Hh.
  { intros k h Hkr Hkx. destruct (Hk k) as (-> & _).
    case_bool_decide as Hpar.
    - by rewrite list_elem_of_filter, (comm and).
    - split; [|tauto]. intros Hin. split; [done|]. intros ->.
      apply Hpar. split; [|done]. by apply (bf_consistente _ Hbf). }
  assert (∀ k, padres (obj (desregistrar d x) k) = padres (obj d k)) as Hq.
  { intros k. by destruct (Hk k) as (_ & ? & _). }
  assert (∀ k q, k ∈ nodos d → q ∈ padres (obj d k) → q ≠ x) as Hqx.
  { intros k q Hkr Hin ->. apply (Hsin k). by apply (bf_consistente _ Hbf). }
  split.
  - intros k [Hkr _]%Hn. rewrite Hs. by apply (bf_fresco _ Hbf).
  - intros k h [Hkr Hkx]%Hn [Hin Hhx]%Hh; [|done..].
    apply Hn. split; [|done]. by eapply (bf_hijos_reg _ Hbf).
  - intros k q [Hkr Hkx]%Hn. rewrite Hq. intros Hin.
    apply Hn. split; [by eapply (bf_padres_reg _ Hbf)|by eapply Hqx].
  - intros a b [Ha Hax]%Hn [Hb Hbx]%Hn. rewrite Hh, Hq by done.
    rewrite (bf_consistente _ Hbf a b) by done. tauto.
  - intros k [Hkr Hkx]%Hn. destruct (Hk k) as (-> & _).
    case_bool_decide; [apply NoDup_filter|]; by apply (bf_nodup_hijos _ Hbf).
  - intros k [Hkr Hkx]%Hn. rewrite Hq. by apply (bf_nodup_padres _ Hbf).
  - eapply encogido_aciclico; [apply encogido_desregistrar|].
    apply (bf_aciclico _ Hbf).
Qed.

(** Deletion keeps the invariant, and only descendants of the deleted node
    leave the registry. *)
Lemma eliminarNodo_bien_formado fuel d x b d' :
  bien_formado d → eliminarNodo fuel d x = Some (b, d') →
  bien_formado d' ∧
  ∀ k, k ∈ nodos d → ¬ rtc (arista d) x k → k ∈ nodos d'.
Proof.
  revert d x b d'. induction fuel as [|fuel IH]; intros d x b d' Hbf; [done|].
  rewrite eliminarNodo_S.
  destruct (registrado d x) eqn:Hreg; simpl.
  2:{ by intros [= <- <-]. }
  apply registrado_true in Hreg.
  destruct (para_cada _ d (hijos (obj d x))) as [d1|] eqn:Hloop; [|done].
  intros [= <- <-].
  pose proof (bf_aciclico _ Hbf) as Hac.
  apply (para_cada_inv2
           (λ s, bien_formado s ∧ encogido d s ∧ x ∈ nodos s ∧
                 ∀ k, k ∈ nodos d → ¬ rtc (arista d) x k → k ∈ nodos s)
           (λ h s, h ∉ nodos s)) in Hloop.
  - destruct Hloop as [(Hbf1 & He1 & Hx1 & Hsurv) Hout].
    assert (∀ h, h ∉ hijos (obj d1 x)) as Hsin.
    { intros h Hh. apply (Hout h); [by apply (en_hijos _ _ He1)|].
      by eapply (bf_hijos_reg _ Hbf1). }
    split; [by apply bien_formado_desregistrar|].
    intros k Hk Hnr. destruct (desregistrar_campos d1 x) as (Hn & _).
    apply Hn. split; [by apply Hsurv|]. intros ->. apply Hnr, rtc_refl.
  - split; [done|]. split; [apply encogido_refl|]. done.
  - intros s h s' Hh (Hbfs & Hes & Hxs & Hsurv) Hbody.
    destruct (eliminarNodo fuel s h) as [[b1 s1]|] eqn:Hdel; [|done].
    simpl in Hbody. injection Hbody as <-.
    destruct (IH _ _ _ _ Hbfs Hdel) as [Hbf1 Hsurv1].
    apply eliminarNodo_encoge in Hdel as (He1 & Hh1 & _).
    assert (∀ k, rtc (arista s) h k → tc (arista d) x k) as Hdesc.
    { intros k Hr. eapply tc_rtc_r; [apply tc_once; by split|].
      eapply rtc_sub; [|done]. intros a c. by apply encogido_arista. }
    split; [|done]. split; [done|]. split; [by eapply encogido_trans|].
    split.
    + apply Hsurv1; [done|]. intros Hr%Hdesc. by apply (Hac x).
    + intros k Hk Hnr. apply Hsurv1; [by apply Hsurv|].
      intros Hr%Hdesc. by apply Hnr, tc_rtc.
  - intros s y s' h Hy _ Hbody Hq Hin. apply Hq.
    destruct (eliminarNodo fuel s y) as [[b1 s1]|] eqn:Hdel; [|done].
    simpl in Hbody. injection Hbody as <-.
    apply eliminarNodo_encoge in Hdel as (He1 & _). by apply (en_nodos _ _ He1).
Qed.


(** ** Reachable states *)

(** The operations that mutate a diagram: the four of [Diagrama] and the two
    endpoints that write to its nodes directly. *)
Inductive Op :=
| OpAñadir (nom : string) (id_padre num_hijo : option Z)
| OpEliminar (id : Z)
| OpEnlazar (id_padre id_hijo : Z)
| OpDesenlazar (id_padre id_hijo : Z)
| OpActualizar (id : Z) (datos : NodoUpdate).

Definition paso (d : Diagrama) (op : Op) (d' : Diagrama) : Prop :=
  match op with
  | OpAñadir nom id_padre num_hijo =>
      d' = (añadirNodo d nom id_padre num_hijo).2
  | OpEliminar id => ∃ fuel b, eliminarNodo fuel d id = Some (b, d')
  | OpEnlazar id_padre id_hijo =>
      ∃ fuel b, enlazarNodos fuel d id_padre id_hijo = Some (b, d')
  | OpDesenlazar id_padre id_hijo =>
      d' = (eliminar_enlace d id_padre id_hijo).2
  | OpActualizar id datos => d' = (actualizar_nodo d id datos).2
  end.

(** States reached from a fresh diagram by operations among [permitida]. *)
Inductive alcanzable_con (permitida : Op → Prop) : Diagrama → Prop :=
| alc_inicio nom : alcanzable_con permitida (Diagrama_init nom)
| alc_paso d op d' :
    alcanzable_con permitida d → permitida op → paso d op d' →
    alcanzable_con permitida d'.

Definition alcanzable : Diagrama → Prop := alcanzable_con (λ _, True).

Definition sin_desenlazar (op : Op) : Prop :=
  match op with OpDesenlazar _ _ => False | _ => True end.

Lemma paso_bien_formado d op d' :
  bien_formado d → paso d op d' → bien_formado d'.
Proof.
  intros Hbf. destruct op as [nom ip nh|id|p c|p c|id datos]; simpl.
  - intros ->. by apply bien_formado_añadirNodo.
  - intros (fuel & b & Hel). by destruct (eliminarNodo_bien_formado _ _ _ _ _ Hbf Hel).
  - intros (fuel & b & Hen). by eapply bien_formado_enlazarNodos.
  - intros ->. by apply bien_formado_eliminar_enlace.
  - intros ->. eapply bien_formado_mismo_grafo; [|done].
    apply actualizar_nodo_mismo_grafo.
Qed.

Lemma alcanzable_con_bien_formado permitida d :
  alcanzable_con permitida d → bien_formado d.
Proof.
  induction 1 as [nom|d op d' _ IH _ Hpaso].
  - apply bien_formado_init.
  - by eapply paso_bien_formado.
Qed.

Lemma alcanzable_con_mono (P Q : Op → Prop) d :
  (∀ op, P op → Q op) → alcanzable_con P d → alcanzable_con Q d.
Proof.
  intros HPQ. induction 1 as [nom|d op d' _ IH Hop Hpaso].
  - apply alc_inicio.
  - eapply alc_paso; eauto.
Qed.

(** ** Example states *)

(** [Diagrama("P")], then [añadirNodo("A", 1)] and [añadirNodo("B", 1)]. *)
Definition ej_P : Diagrama := Diagrama_init "P".
Definition ej_PA : Diagrama := (añadirNodo ej_P "A" (Some 1) None).2.
Definition ej_PAB : Diagrama := (añadirNodo ej_PA "B" (Some 1) None).2.

Lemma alcanzable_ej_PAB permitida :
  (∀ nom ip nh, permitida (OpAñadir nom ip nh)) →
  alcanzable_con permitida ej_PAB.
Proof.
  intros Hp.
  apply (alc_paso _ ej_PA (OpAñadir "B" (Some 1) None)); [|apply Hp|done].
  apply (alc_paso _ ej_P (OpAñadir "A" (Some 1) None)); [|apply Hp|done].
  apply alc_inicio.
Qed.

Definition ej_PAB_23 : Diagrama :=
  match enlazarNodos 4 ej_PAB 2 3 with
  | Some (_, d) => d
  | None => ej_PAB
  end.

Lemma ej_PAB_enlaza : enlazarNodos 4 ej_PAB 2 3 = Some (true, ej_PAB_23).
Proof. vm_compute. reflexivity. Qed.

(** ** Layers as a function of the parents *)

(** The layers a node would have if they were recomputed from its current
    parents: the layer-wise union of the parents' full stacks. *)
Definition derivadas (d : Diagrama) (k : Z) : list (gset string) :=
  foldr (λ q acc, combinar (restricciones (obj d q)) acc) []
        (padres (obj d k)).

(** Number of inherited layers of a node. *)
Definition profundidad (d : Diagrama) (k : Z) : nat :=
  length (restricciones_heredadas (obj d k)).

(** No operation of the program writes [restricciones_propias]: every
    constraint set of a reachable state is empty. *)
Definition vacias (d : Diagrama) : Prop :=
  ∀ k, restricciones_propias (obj d k) = ∅ ∧
       Forall (λ s, s = ∅) (restricciones_heredadas (obj d k)).

(** An edge whose child has at least one layer more than the parent. *)
Definition arista_al_dia (d : Diagrama) (a b : Z) : Prop :=
  (profundidad d a + 1 ≤ profundidad d b)%nat.

(** A node none of whose layers is unaccounted for: some parent has enough
    layers to justify them. *)
Definition capas_justificadas (d : Diagrama) (k : Z) : Prop :=
  profundidad d k = 0%nat ∨
  ∃ q, q ∈ padres (obj d k) ∧ (profundidad d k ≤ profundidad d q + 1)%nat.

Record capas_ok (d : Diagrama) : Prop := Mk_capas_ok {
  co_vacias : vacias d;
  co_justificadas : ∀ k, k ∈ nodos d → capas_justificadas d k;
  co_al_dia : ∀ a b, arista d a b → arista_al_dia d a b
}.

Lemma Forall_vacio_combinar a b :
  Forall (λ s, s = ∅) a → Forall (λ s, s = ∅) b →
  Forall (λ s : gset string, s = ∅) (combinar a b).
Proof.
  intros Ha. revert b. unfold combinar.
  induction Ha as [|x a -> Ha IH]; intros b Hb.
  - simpl. rewrite <-list_fmap_compose. apply Forall_fmap.
    eapply Forall_impl; [done|]. intros s ->. simpl. set_solver.
  - destruct Hb as [|y b -> Hb]; simpl.
    + constructor; [set_solver|]. rewrite <-list_fmap_compose.
      apply Forall_fmap. eapply Forall_impl; [done|].
      intros s ->. simpl. set_solver.
    + constructor; [set_solver|]. by apply IH.
Qed.

Lemma vacias_restricciones d k :
  vacias d → Forall (λ s, s = ∅) (restricciones (obj d k)).
Proof.
  intros Hv. destruct (Hv k) as [Hp Hh]. unfold restricciones.
  apply Forall_app. split; [done|]. by constructor.
Qed.

Lemma lista_vacia_eq (l1 l2 : list (gset string)) :
  Forall (λ s, s = ∅) l1 → Forall (λ s, s = ∅) l2 →
  length l1 = length l2 → l1 = l2.
Proof.
  intros H1. revert l2. induction H1 as [|x l1 -> H1 IH]; intros l2 H2 Hl.
  - by destruct l2.
  - destruct H2 as [|y l2 -> H2]; [done|]. f_equal. apply IH; [done|].
    simpl in Hl. lia.
Qed.

Lemma length_restricciones d k :
  length (restricciones (obj d k)) = (profundidad d k + 1)%nat.
Proof. unfold restricciones, profundidad. by rewrite length_app. Qed.

(** With the invariant, the stored layers are the derived ones. *)
Lemma capas_ok_derivadas d k :
  bien_formado d → capas_ok d → k ∈ nodos d →
  restricciones_heredadas (obj d k) = derivadas d k.
Proof.
  intros Hbf [Hv Hj Had] Hk.
  assert (∀ l, Forall (λ s, s = ∅)
                 (foldr (λ q acc, combinar (restricciones (obj d q)) acc) [] l))
    as Hvd.
  { induction l as [|q l IH]; simpl; [constructor|].
    apply Forall_vacio_combinar; [by apply vacias_restricciones|done]. }
  apply lista_vacia_eq; [apply Hv|apply Hvd|].
  fold (profundidad d k). unfold derivadas.
  assert (∀ q, q ∈ padres (obj d k) →
            (profundidad d q + 1 ≤ profundidad d k)%nat) as Hinf.
  { intros q Hq. apply Had. split; [by eapply (bf_padres_reg _ Hbf)|].
    apply (bf_consistente _ Hbf); [by eapply (bf_padres_reg _ Hbf)|done..]. }
  pose proof (Hj k Hk) as Hsup. unfold capas_justificadas in Hsup.
  revert Hinf Hsup. generalize (profundidad d k) as n.
  induction (padres (obj d k)) as [|q l IH]; intros n Hinf Hsup; simpl.
  - destruct Hsup as [->|(q & Hq%elem_of_nil & _)]; done.
  - rewrite length_combinar, length_restricciones.
    assert (profundidad d q + 1 ≤ n)%nat by (apply Hinf; left).
    destruct (decide (n ≤ profundidad d q + 1)%nat) as [Hle|Hgt].
    + assert (length (foldr (λ q acc, combinar (restricciones (obj d q)) acc)
                        [] l) ≤ n)%nat; [|lia].
      clear -Hinf. induction l as [|q' l IH]; simpl; [lia|].
      rewrite length_combinar, length_restricciones.
      assert (profundidad d q' + 1 ≤ n)%nat by (apply Hinf; right; left).
      assert (length (foldr (λ q acc, combinar (restricciones (obj d q)) acc)
                        [] l) ≤ n)%nat; [|lia].
      apply IH. intros q'' [->|Hq]%elem_of_cons; apply Hinf;
        [left|right; by right].
    + rewrite <-(IH n); [lia| |].
      * intros q' Hq'. apply Hinf. by right.
      * destruct Hsup as [->|(q' & [->|Hq']%elem_of_cons & Hle)];
          [lia|lia|]. right. by exists q'.
Qed.

Lemma capas_ok_init nom : capas_ok (Diagrama_init nom).
Proof.
  assert (∀ k, restricciones_heredadas (obj (Diagrama_init nom) k) = [] ∧
               restricciones_propias (obj (Diagrama_init nom) k) = ∅) as H0.
  { intros k. unfold obj, Diagrama_init, _crear_nodo_raiz; simpl.
    destruct (decide (k = 1)) as [->|Hk].
    - by rewrite lookup_total_insert_eq.
    - rewrite lookup_total_insert_ne by done.
      by rewrite lookup_total_empty. }
  split.
  - intros k. destruct (H0 k) as [-> ->]. split; [done|constructor].
  - intros k _. left. unfold profundidad. by destruct (H0 k) as [-> _].
  - intros a b [->%list_elem_of_singleton Hb]. simpl in Hb.
    by apply elem_of_nil in Hb.
Qed.

Lemma capas_ok_mismo_grafo d e : mismo_grafo d e → capas_ok d → capas_ok e.
Proof.
  intros Hg [Hv Hj Had].
  assert (∀ k, profundidad e k = profundidad d k) as HL.
  { intros k. unfold profundidad. by rewrite (mg_heredadas _ _ _ Hg). }
  split.
  - intros k. rewrite (mg_propias _ _ _ Hg), (mg_heredadas _ _ _ Hg). apply Hv.
  - intros k Hk. rewrite (mg_nodos _ _ Hg) in Hk.
    unfold capas_justificadas. rewrite HL, (mg_padres _ _ _ Hg).
    destruct (Hj k Hk) as [?|(q & ? & ?)]; [by left|].
    right. exists q. by rewrite HL.
  - intros a b [Ha Hb]. unfold arista_al_dia. rewrite !HL. apply Had.
    rewrite (mg_nodos _ _ Hg) in Ha. rewrite (mg_hijos _ _ _ Hg) in Hb.
    by split.
Qed.

Lemma capas_ok_encogido d e : encogido d e → capas_ok d → capas_ok e.
Proof.
  intros He [Hv Hj Had].
  assert (∀ k, profundidad e k = profundidad d k) as HL.
  { intros k. unfold profundidad. by rewrite (en_heredadas _ _ He). }
  split.
  - intros k. rewrite (en_propias _ _ He), (en_heredadas _ _ He). apply Hv.
  - intros k Hk%(en_nodos _ _ He).
    unfold capas_justificadas. rewrite HL, (en_padres _ _ He).
    destruct (Hj k Hk) as [?|(q & ? & ?)]; [by left|].
    right. exists q. by rewrite HL.
  - intros a b Hab%(encogido_arista _ _ _ _ He).
    unfold arista_al_dia. rewrite !HL. by apply Had.
Qed.

Lemma capas_ok_añadido d nom ip nh :
  bien_formado d → capas_ok d → capas_ok (añadido d nom ip nh).
Proof.
  intros Hbf [Hv Hj Had].
  pose proof (bien_formado_fresco d Hbf) as Hnid.
  assert (∀ k, k ∈ nodos d →
            obj (añadido d nom ip nh) k
            = match padre_valido d ip with
              | Some p =>
                  if bool_decide (k = p)
                  then con_hijos (anexar_hijo nh (_siguiente_id d)
                                    (hijos (obj d p))) (obj d p)
                  else obj d k
              | None => obj d k
              end) as Hviejo.
  { intros k Hk. rewrite obj_añadido.
    assert (k ≠ _siguiente_id d) by (by intros ->).
    destruct (padre_valido d ip); by rewrite bool_decide_eq_false_2. }
  assert (∀ k, k ∈ nodos d →
            profundidad (añadido d nom ip nh) k = profundidad d k ∧
            padres (obj (añadido d nom ip nh) k) = padres (obj d k)) as HL.
  { intros k Hk. unfold profundidad. rewrite (Hviejo k Hk).
    destruct (padre_valido d ip); [|done].
    by case_bool_decide; subst. }
  split.
  - intros k. rewrite obj_añadido.
    destruct (padre_valido d ip) as [p|].
    + case_bool_decide; simpl.
      * split; [done|]. by apply vacias_restricciones.
      * case_bool_decide; subst; simpl; apply Hv.
    + case_bool_decide; simpl; [split; [done|constructor]|apply Hv].
  - intros k Hk. rewrite nodos_añadido in Hk by done.
    apply elem_of_app in Hk as [Hk| ->%list_elem_of_singleton].
    + unfold capas_justificadas. destruct (HL k Hk) as [-> ->].
      destruct (Hj k Hk) as [?|(q & Hq & Hle)]; [by left|].
      right. exists q. split; [done|].
      destruct (HL q) as [-> _]; [|done]. by eapply (bf_padres_reg _ Hbf).
    + unfold capas_justificadas, profundidad. rewrite !obj_añadido.
      destruct (padre_valido d ip) as [p|] eqn:Hpv.
      * apply padre_valido_Some in Hpv as [_ Hp].
        assert (p ≠ _siguiente_id d) by (by intros ->).
        right. exists p. rewrite bool_decide_eq_true_2 by done. simpl.
        split; [by left|].
        rewrite obj_añadido. rewrite (bool_decide_eq_false_2 (p = _)) by done.
        destruct (padre_valido d ip) as [p'|]; [|].
        -- rewrite length_restricciones. unfold profundidad.
           case_bool_decide; subst; simpl; lia.
        -- rewrite length_restricciones. unfold profundidad. lia.
      * left. by rewrite bool_decide_eq_true_2.
  - intros a b [Ha Hb]. rewrite nodos_añadido in Ha by done.
    apply elem_of_app in Ha as [Ha| ->%list_elem_of_singleton].
    2:{ rewrite obj_añadido, bool_decide_eq_true_2 in Hb by done.
        destruct (padre_valido d ip); by apply elem_of_nil in Hb. }
    unfold arista_al_dia. destruct (HL a Ha) as [-> _].
    rewrite (Hviejo a Ha) in Hb.
    destruct (padre_valido d ip) as [p|] eqn:Hpv.
    + apply padre_valido_Some in Hpv as Hp. destruct Hp as [_ Hp].
      destruct (decide (b = _siguiente_id d)) as [->|Hbn].
      * unfold profundidad at 2. rewrite obj_añadido, Hpv.
        rewrite bool_decide_eq_true_2 by done. simpl.
        rewrite length_restricciones.
        case_bool_decide as Hap; [subst a; lia|].
        exfalso. apply Hnid. exact (bf_hijos_reg _ Hbf a _ Ha Hb).
      * assert (b ∈ hijos (obj d a)) as Hb'.
        { case_bool_decide; [subst a|done]. simpl in Hb.
          apply elem_of_anexar_hijo in Hb as [?|?]; done. }
        destruct (HL b) as [-> _]; [exact (bf_hijos_reg _ Hbf a _ Ha Hb')|].
        by apply Had.
    + destruct (HL b) as [-> _]; [exact (bf_hijos_reg _ Hbf a _ Ha Hb)|].
      by apply Had.
Qed.

Lemma profundidad_mutar_combinar t x h k :
  profundidad
    (mutar h (con_heredadas (combinar (restricciones (obj t x))
                                      (restricciones_heredadas (obj t h)))) t) k
  = if bool_decide (k = h)
    then ((profundidad t x + 1) `max` profundidad t h)%nat
    else profundidad t k.
Proof.
  unfold profundidad. rewrite obj_mutar. case_bool_decide; [|done]. simpl.
  by rewrite length_combinar, length_restricciones.
Qed.

Lemma vacias_mutar_combinar t x h :
  vacias t →
  vacias (mutar h (con_heredadas (combinar (restricciones (obj t x))
                                  (restricciones_heredadas (obj t h)))) t).
Proof.
  intros Hv k. rewrite obj_mutar. case_bool_decide; [subst k; simpl|apply Hv].
  split; [apply Hv|].
  apply Forall_vacio_combinar; [by apply vacias_restricciones|apply Hv].
Qed.

Lemma propagado_profundidad d x d' k :
  propagado d x d' → (profundidad d k ≤ profundidad d' k)%nat.
Proof. intros [_ Hc _]. apply Hc. Qed.

(** One pass of [_propagarRestricciones] from [x] brings every edge that
    leaves [x] up to date, keeps up to date every edge that was, and leaves
    no layer unaccounted for. *)
Lemma _propagarRestricciones_capas fuel s x s' :
  _propagarRestricciones fuel s x = Some s' →
  bien_formado s → vacias s →
  (∀ k, k ∈ nodos s → capas_justificadas s k) →
  vacias s' ∧ (∀ k, k ∈ nodos s → capas_justificadas s' k) ∧
  ∀ a b, arista s a b → arista_al_dia s a b ∨ a = x → arista_al_dia s' a b.
Proof.
  revert s x s'. induction fuel as [|fuel IH]; intros s x s'; [done|].
  simpl. destruct (registrado s x) eqn:Hreg; simpl.
  2:{ intros [= <-] _ Hv Hj. split; [done|]. split; [done|].
      intros a b [Ha _] [?| ->]; [done|].
      apply registrado_false in Hreg. done. }
  apply registrado_true in Hreg. intros Hloop Hbf Hv Hj.
  pose proof (bf_aciclico _ Hbf) as Hac.
  (* the effect of one iteration of the loop *)
  assert (∀ t h t',
            h ∈ hijos (obj s x) → misma_forma s t → vacias t →
            (∀ k, k ∈ nodos s → capas_justificadas t k) →
            _propagarRestricciones fuel
              (mutar h (con_heredadas
                          (combinar (restricciones (obj t x))
                                    (restricciones_heredadas (obj t h)))) t) h
            = Some t' →
            misma_forma s t' ∧ vacias t' ∧
            (∀ k, k ∈ nodos s → capas_justificadas t' k) ∧
            profundidad t' x = profundidad t x ∧
            (∀ k, (profundidad t k ≤ profundidad t' k)%nat) ∧
            arista_al_dia t' x h ∧
            (∀ a b, arista s a b → arista_al_dia t a b → a ≠ x →
                    arista_al_dia t' a b)) as Hcuerpo.
  { intros t h t' Hh Hmf Hvt Hjt Hprop.
    set (t1 := mutar h _ t) in *.
    assert (misma_forma t t1) as Hmf1 by apply misma_forma_mutar.
    assert (misma_forma s t1) as Hmfs1 by (by eapply misma_forma_trans).
    assert (bien_formado t1) as Hbf1 by (by eapply bien_formado_misma_forma).
    assert (arista s x h) as Hxh by done.
    assert (x ≠ h) as Hne by (intros ->; by apply (Hac h), tc_once).
    assert (h ∈ nodos s) as Hhreg by (by eapply (bf_hijos_reg _ Hbf)).
    assert (∀ k, profundidad t1 k
                 = if bool_decide (k = h)
                   then ((profundidad t x + 1) `max` profundidad t h)%nat
                   else profundidad t k) as HL1
      by apply profundidad_mutar_combinar.
    assert (∀ k, (profundidad t k ≤ profundidad t1 k)%nat) as Hmono1.
    { intros k. rewrite HL1. case_bool_decide; [subst; lia|lia]. }
    assert (vacias t1) as Hv1 by (by apply vacias_mutar_combinar).
    assert (∀ k, padres (obj t1 k) = padres (obj s k)) as Hpad1
      by (intros k; by apply mf_padres).
    assert (∀ k, padres (obj t k) = padres (obj s k)) as Hpad
      by (intros k; by apply mf_padres).
    assert (∀ k, k ∈ nodos t1 → capas_justificadas t1 k) as Hj1.
    { intros k Hk. rewrite (mf_nodos _ _ Hmfs1) in Hk.
      unfold capas_justificadas. rewrite Hpad1.
      destruct (decide (k = h)) as [->|Hkh].
      - destruct (decide (profundidad t h ≤ profundidad t x + 1)%nat).
        + right. exists x. split.
          * by apply (bf_consistente _ Hbf).
          * rewrite !HL1, bool_decide_eq_true_2 by done.
            rewrite bool_decide_eq_false_2 by done. lia.
        + destruct (Hjt h Hk) as [H0|(q & Hq & Hle)]; [lia|].
          right. exists q. rewrite Hpad in Hq. split; [done|].
          rewrite HL1, bool_decide_eq_true_2 by done.
          pose proof (Hmono1 q). lia.
      - destruct (Hjt k Hk) as [H0|(q & Hq & Hle)].
        + left. by rewrite HL1, bool_decide_eq_false_2.
        + right. exists q. rewrite Hpad in Hq. split; [done|].
          rewrite (HL1 k), bool_decide_eq_false_2 by done.
          pose proof (Hmono1 q). lia. }
    pose proof (_propagarRestricciones_propagado _ _ _ _ Hprop) as Hpr.
    destruct (IH _ _ _ Hprop Hbf1 Hv1 Hj1) as (Hv' & Hj' & Had').
    assert (profundidad t' x = profundidad t x) as HLx.
    { unfold profundidad. rewrite (pr_marco _ _ _ Hpr).
      - change (profundidad t1 x = profundidad t x).
        by rewrite HL1, bool_decide_eq_false_2.
      - intros Htc. apply (Hac x). eapply tc_l; [done|].
        by eapply mf_tc. }
    split; [eapply misma_forma_trans; [done|apply Hpr]|].
    split; [done|]. split.
    { intros k Hk. apply Hj'. by rewrite (mf_nodos _ _ Hmfs1). }
    split; [done|]. split.
    { intros k. pose proof (propagado_profundidad _ _ _ k Hpr).
      pose proof (Hmono1 k). lia. }
    split.
    - apply Had'; [by apply (mf_arista s t1)|]. left.
      unfold arista_al_dia.
      rewrite (HL1 x), (HL1 h), (bool_decide_eq_false_2 (x = h)),
        (bool_decide_eq_true_2 (h = h)) by done. lia.
    - intros a b Hab Hdia Hax. apply Had'; [by apply (mf_arista s t1)|].
      destruct (decide (a = h)) as [->|Hah]; [by right|]. left.
      unfold arista_al_dia in *. rewrite (HL1 a), bool_decide_eq_false_2 by done.
      pose proof (Hmono1 b). lia. }
  apply (para_cada_inv2
           (λ t, misma_forma s t ∧ vacias t ∧
                 (∀ k, k ∈ nodos s → capas_justificadas t k) ∧
                 profundidad t x = profundidad s x ∧
                 ∀ a b, arista s a b → arista_al_dia s a b → a ≠ x →
                        arista_al_dia t a b)
           (λ h t, arista_al_dia t x h)) in Hloop.
  - destruct Hloop as [(Hmf & Hv' & Hj' & HLx & Hed) Hq].
    split; [done|]. split; [done|].
    intros a b Hab Hcaso.
    destruct (decide (a = x)) as [->|Hax]; [apply Hq, Hab|].
    destruct Hcaso as [?|?]; [by apply Hed|done].
  - split; [apply misma_forma_refl|]. done.
  - intros t h t' Hh (Hmf & Hvt & Hjt & HLx & Hed) Hbody.
    destruct (Hcuerpo t h t' Hh Hmf Hvt Hjt Hbody)
      as (Hmf' & Hv' & Hj' & HLx' & Hmono & Hdia & Hed').
    split; [|done]. split; [done|]. split; [done|]. split; [done|].
    split; [congruence|]. intros a b Hab Hd Hax. apply Hed'; [done| |done].
    by apply Hed.
  - intros t y t' h Hy (Hmf & Hvt & Hjt & HLx & Hed) Hbody Hq.
    destruct (Hcuerpo t y t' Hy Hmf Hvt Hjt Hbody)
      as (_ & _ & _ & HLx' & Hmono & _).
    unfold arista_al_dia in *. rewrite HLx'. pose proof (Hmono h). lia.
Qed.

Lemma capas_ok_enlazarNodos fuel d p c b d' :
  bien_formado d → capas_ok d →
  enlazarNodos fuel d p c = Some (b, d') → capas_ok d'.
Proof.
  intros Hbf Hco [(_ & -> & _)|(_ & Hen & Hpr)]%enlazarNodos_casos; [done|].
  destruct Hco as [Hv Hj Had].
  pose proof (enlazable_ne _ _ _ Hen) as Hpc.
  pose proof (bien_formado_enlazado _ _ _ Hbf Hen) as Hbfe.
  destruct Hen as (Hp & Hc & Hnin & Hr).
  assert (∀ k, profundidad (enlazado d p c) k
               = if bool_decide (k = c)
                 then ((profundidad d p + 1) `max` profundidad d c)%nat
                 else profundidad d k) as HL.
  { intros k. unfold profundidad. rewrite heredadas_enlazado.
    case_bool_decide; [|done].
    by rewrite length_combinar, length_restricciones. }
  assert (∀ k, (profundidad d k ≤ profundidad (enlazado d p c) k)%nat) as Hmono.
  { intros k. rewrite HL. case_bool_decide; [subst k|]; lia. }
  assert (vacias (enlazado d p c)) as Hve.
  { intros k. rewrite propias_enlazado, heredadas_enlazado.
    split; [apply Hv|]. case_bool_decide; [|apply Hv].
    apply Forall_vacio_combinar; [by apply vacias_restricciones|apply Hv]. }
  assert (∀ k, k ∈ nodos (enlazado d p c) →
               capas_justificadas (enlazado d p c) k) as Hje.
  { intros k Hk. rewrite nodos_enlazado in Hk.
    unfold capas_justificadas. rewrite padres_enlazado.
    destruct (decide (k = c)) as [->|Hkc].
    - rewrite bool_decide_eq_true_2 by done.
      destruct (decide (profundidad d c ≤ profundidad d p + 1)%nat).
      + right. exists p. split; [set_solver|].
        rewrite !HL, bool_decide_eq_true_2 by done.
        rewrite bool_decide_eq_false_2 by done. lia.
      + destruct (Hj c Hk) as [?|(q & Hq & Hle)]; [lia|].
        right. exists q. split; [set_solver|].
        rewrite HL, bool_decide_eq_true_2 by done.
        pose proof (Hmono q). lia.
    - rewrite bool_decide_eq_false_2 by done.
      destruct (Hj k Hk) as [?|(q & Hq & Hle)].
      + left. by rewrite HL, bool_decide_eq_false_2.
      + right. exists q. split; [done|].
        rewrite (HL k), bool_decide_eq_false_2 by done.
        pose proof (Hmono q). lia. }
  destruct (_propagarRestricciones_capas _ _ _ _ Hpr Hbfe Hve Hje)
    as (Hv' & Hj' & Had').
  apply _propagarRestricciones_propagado in Hpr as [Hmf _ _].
  split; [done| |].
  - intros k Hk. apply Hj'. by rewrite <-(mf_nodos _ _ Hmf).
  - intros a0 b0 Hab%(mf_arista _ _ _ _ Hmf). apply Had'; [done|].
    destruct (decide (a0 = c)) as [->|Hac]; [by right|]. left.
    unfold arista_al_dia. rewrite (HL a0), bool_decide_eq_false_2 by done.
    apply arista_enlazado in Hab as [Hab|[-> ->]].
    + pose proof (Had a0 b0 Hab) as Hd. unfold arista_al_dia in Hd.
      pose proof (Hmono b0). lia.
    + rewrite HL, bool_decide_eq_true_2 by done. lia.
Qed.

Lemma paso_capas_ok d op d' :
  sin_desenlazar op → bien_formado d → capas_ok d → paso d op d' →
  capas_ok d'.
Proof.
  intros Hop Hbf Hco.
  destruct op as [nom ip nh|id|p c|p c|id datos]; simpl; [| | |done|].
  - intros ->. unfold añadirNodo; simpl.
    eapply capas_ok_mismo_grafo; [apply actualizarHomologos_mismo_grafo|].
    by apply capas_ok_añadido.
  - intros (fuel & b & Hel).
    apply eliminarNodo_encoge in Hel as [He _]. by eapply capas_ok_encogido.
  - intros (fuel & b & Hen). by eapply capas_ok_enlazarNodos.
  - intros ->. eapply capas_ok_mismo_grafo; [|done].
    apply actualizar_nodo_mismo_grafo.
Qed.

Lemma alcanzable_sin_desenlazar_capas_ok d :
  alcanzable_con sin_desenlazar d → capas_ok d.
Proof.
  induction 1 as [nom|d op d' Halc IH Hop Hpaso].
  - apply capas_ok_init.
  - eapply paso_capas_ok; [done| |done..].
    by eapply alcanzable_con_bien_formado.
Qed.

(** * The claims *)

(** C1.  In every reachable state and for every pair of ids, [enlazarNodos]
    returns, and it returns [True] exactly when both ids are registered, the
    child is not already in the parent's [hijos], and the parent is not
    reachable from the child through children edges of the state before the
    call (in zero or more steps, so a node is never linked to itself).  On
    [True] the child is appended to the parent's [hijos] and the parent to
    the child's [padres], and no other edge list or registry entry changes;
    on [False] the diagram is the one before the call. *)
Theorem C1_enlazarNodos_sii (d : Diagrama) (id_padre id_hijo : Z) (fuel : nat) :
  alcanzable d → (length (nodos d) < fuel)%nat →
  ∃ b d',
    enlazarNodos fuel d id_padre id_hijo = Some (b, d') ∧
    (b = true ↔
       id_padre ∈ nodos d ∧ id_hijo ∈ nodos d ∧
       (id_hijo ∉ hijos (obj d id_padre)) ∧
       ¬ rtc (arista d) id_hijo id_padre) ∧
    (b = true →
       nodos d' = nodos d ∧
       hijos (obj d' id_padre) = hijos (obj d id_padre) ++ [id_hijo] ∧
       padres (obj d' id_hijo) = padres (obj d id_hijo) ++ [id_padre] ∧
       (∀ k, k ≠ id_padre → hijos (obj d' k) = hijos (obj d k)) ∧
       (∀ k, k ≠ id_hijo → padres (obj d' k) = padres (obj d k))) ∧
    (b = false → d' = d).
Proof.
  intros Halc Hf. apply alcanzable_con_bien_formado in Halc as Hbf.
  destruct (enlazarNodos_termina fuel d id_padre id_hijo) as [[b d'] Hen];
    [apply (bf_aciclico _ Hbf)|done|].
  exists b, d'. split; [done|].
  apply enlazarNodos_casos in Hen as [(-> & -> & Hno)|(-> & Hsi & Hpr)].
  - split; [|done]. split; [done|]. intros H. by destruct Hno.
  - split; [done|]. split; [|done]. intros _.
    apply _propagarRestricciones_propagado in Hpr as [Hmf _ _].
    split; [by rewrite (mf_nodos _ _ Hmf)|].
    rewrite !(mf_hijos _ _ _ Hmf), !(mf_padres _ _ _ Hmf).
    rewrite hijos_enlazado, padres_enlazado, !bool_decide_eq_true_2 by done.
    split; [done|]. split; [done|]. split; intros k Hk.
    + by rewrite (mf_hijos _ _ _ Hmf), hijos_enlazado, bool_decide_eq_false_2.
    + by rewrite (mf_padres _ _ _ Hmf), padres_enlazado, bool_decide_eq_false_2.
Qed.

Lemma C1_enlazarNodos_sii_witness :
  ∃ b d', enlazarNodos 4 ej_PAB 2 3 = Some (b, d') ∧
          (b = false → d' = ej_PAB).
Proof.
  destruct (C1_enlazarNodos_sii ej_PAB 2 3 4) as (b & d' & H1 & _ & _ & H4).
  - apply alcanzable_ej_PAB. done.
  - vm_compute. lia.
  - exists b, d'. split; [exact H1|exact H4].
Defined.

(** C3.  In every reachable state the graph is acyclic: no node reaches
    itself by following one or more children edges of registered nodes. *)
Theorem C3_aciclico (d : Diagrama) :
  alcanzable d → ∀ k, ¬ tc (arista d) k k.
Proof. intros Halc%alcanzable_con_bien_formado. apply (bf_aciclico _ Halc). Qed.

Lemma C3_aciclico_witness : ¬ tc (arista ej_PAB) 1 1.
Proof. apply (C3_aciclico ej_PAB). apply alcanzable_ej_PAB. done. Defined.

(** C6.  In every reachable state, for registered nodes [p] and [c]: [p]
    lists [c] among its [hijos] if and only if [c] lists [p] among its
    [padres].  Deletion is one of the operations. *)
Theorem C6_padres_hijos_consistentes (d : Diagrama) (p c : Z) :
  alcanzable d → p ∈ nodos d → c ∈ nodos d →
  c ∈ hijos (obj d p) ↔ p ∈ padres (obj d c).
Proof.
  intros Halc%alcanzable_con_bien_formado. apply (bf_consistente _ Halc).
Qed.

Lemma C6_padres_hijos_consistentes_witness :
  2 ∈ hijos (obj ej_PAB 1) ↔ 1 ∈ padres (obj ej_PAB 2).
Proof.
  apply (C6_padres_hijos_consistentes ej_PAB 1 2).
  - apply alcanzable_ej_PAB. done.
  - apply (bool_decide_unpack _). vm_compute. exact I.
  - apply (bool_decide_unpack _). vm_compute. exact I.
Defined.

(** C7.  Whenever [enlazarNodos(p, c)] returns [True], the inherited layers
    of [c] after the call contain, layer by layer, the layers [c] had before
    and the layers of [p]'s full stack [p.restricciones] (which the call
    leaves as it was); and no node of the diagram, descendant of [c] or not,
    has lost a layer or a token. *)
Theorem C7_enlace_monotono (fuel : nat) (d : Diagrama) (p c : Z)
    (d' : Diagrama) :
  enlazarNodos fuel d p c = Some (true, d') →
  capas_le (restricciones_heredadas (obj d c))
           (restricciones_heredadas (obj d' c)) ∧
  capas_le (restricciones (obj d p)) (restricciones_heredadas (obj d' c)) ∧
  restricciones (obj d' p) = restricciones (obj d p) ∧
  ∀ k, capas_le (restricciones_heredadas (obj d k))
                (restricciones_heredadas (obj d' k)).
Proof.
  intros [(? & _)|(_ & Hsi & Hpr)]%enlazarNodos_casos; [done|].
  pose proof (enlazable_ne _ _ _ Hsi) as Hpc.
  destruct Hsi as (Hp & Hc & Hnin & Hr).
  apply _propagarRestricciones_propagado in Hpr as [Hmf Hcrece Hmarco].
  assert (∀ k, capas_le (restricciones_heredadas (obj d k))
                        (restricciones_heredadas (obj d' k))) as Htodos.
  { intros k. eapply capas_le_trans; [|apply Hcrece].
    rewrite heredadas_enlazado.
    case_bool_decide; [subst k; apply capas_le_combinar_r|apply capas_le_refl]. }
  split; [apply Htodos|]. split; [|split; [|apply Htodos]].
  - eapply capas_le_trans; [|apply Hcrece].
    rewrite heredadas_enlazado, bool_decide_eq_true_2 by done.
    apply capas_le_combinar_l.
  - unfold restricciones. rewrite (mf_propias _ _ _ Hmf), propias_enlazado.
    rewrite Hmarco, heredadas_enlazado, bool_decide_eq_false_2; [done..|].
    intros Htc. apply Hr, tc_rtc.
    eapply (tc_añadir_arista_desde_c (arista d)); [|done..].
    apply arista_enlazado.
Qed.

Lemma C7_enlace_monotono_witness :
  capas_le (restricciones (obj ej_PAB 2))
           (restricciones_heredadas (obj ej_PAB_23 3)).
Proof. apply (C7_enlace_monotono 4 ej_PAB 2 3 ej_PAB_23). apply ej_PAB_enlaza. Defined.

(** C10.  On an acyclic diagram the recursions of [eliminarNodo] and of
    [_propagarRestricciones] (also as run by a successful [enlazarNodos])
    return: a recursion depth above the number of registered nodes is never
    needed, whatever node they start from. *)
Theorem C10_recursiones_terminan (d : Diagrama) (fuel : nat) (id p c : Z) :
  aciclico d → (length (nodos d) < fuel)%nat →
  is_Some (eliminarNodo fuel d id) ∧
  is_Some (_propagarRestricciones fuel d id) ∧
  is_Some (enlazarNodos fuel d p c).
Proof.
  intros Hac Hf. split; [by apply eliminarNodo_termina|].
  split; [by apply _propagarRestricciones_termina|].
  by apply enlazarNodos_termina.
Qed.

Lemma C10_recursiones_terminan_witness :
  is_Some (eliminarNodo 4 ej_PAB 1) ∧
  is_Some (_propagarRestricciones 4 ej_PAB 1) ∧
  is_Some (enlazarNodos 4 ej_PAB 2 3).
Proof.
  apply (C10_recursiones_terminan ej_PAB 4 1 2 3).
  - apply (bf_aciclico ej_PAB).
    apply (alcanzable_con_bien_formado (λ _, True)), alcanzable_ej_PAB. done.
  - vm_compute. lia.
Defined.

(** [raise HTTPException(...)] as opposed to a returned message. *)
Definition es_fallo (r : Respuesta) : bool :=
  match r with
  | HTTPException _ _ => true
  | Mensaje _ => false
  end.

(** [Diagrama("P")], then a parentless [añadirNodo("A")]. *)
Definition ej_P_A : Diagrama := (añadirNodo ej_P "A" None None).2.

(** C8, as stated, fails: with both ids registered and no edge between
    them, [eliminar_enlace] answers "Enlace eliminado" instead of failing. *)
Lemma C8_desenlazar_contraejemplo :
  ¬ (es_fallo (eliminar_enlace ej_P_A 1 2).1 = true ↔
     1 ∉ nodos ej_P_A ∨ 2 ∉ nodos ej_P_A ∨ 2 ∉ hijos (obj ej_P_A 1)).
Proof.
  intros [_ H].
  assert (es_fallo (eliminar_enlace ej_P_A 1 2).1 = true) as Hf.
  { apply H. right. right. apply (bool_decide_unpack _). vm_compute. exact I. }
  vm_compute in Hf. discriminate.
Qed.

(** C8, amended.  [eliminar_enlace] fails (404) if and only if one of the two
    ids is not registered, and then the diagram is untouched.  When both are
    registered it reports success whether or not the edge exists; if the
    edge is absent in both directions the diagram is left as it was. *)
Theorem C8_desenlazar_falla_sii (d : Diagrama) (id_padre id_hijo : Z) :
  (es_fallo (eliminar_enlace d id_padre id_hijo).1 = true ↔
     id_padre ∉ nodos d ∨ id_hijo ∉ nodos d) ∧
  (es_fallo (eliminar_enlace d id_padre id_hijo).1 = true →
     (eliminar_enlace d id_padre id_hijo).2 = d) ∧
  (id_padre ∈ nodos d → id_hijo ∈ nodos d →
   id_hijo ∉ hijos (obj d id_padre) → id_padre ∉ padres (obj d id_hijo) →
   eliminar_enlace d id_padre id_hijo = (Mensaje "Enlace eliminado", d)).
Proof.
  unfold eliminar_enlace.
  destruct (registrado d id_padre) eqn:Hp; simpl.
  2:{ apply registrado_false in Hp. repeat split; try done. by left. }
  destruct (registrado d id_hijo) eqn:Hh; simpl.
  2:{ apply registrado_false in Hh. repeat split; try done. by right. }
  apply registrado_true in Hp, Hh.
  split; [split; [done|tauto]|]. split; [done|].
  intros _ _ Hnh Hnp.
  rewrite (bool_decide_eq_false_2 _ Hnh), (bool_decide_eq_false_2 _ Hnp). done.
Qed.

Lemma C8_desenlazar_falla_sii_witness :
  eliminar_enlace ej_P_A 1 2 = (Mensaje "Enlace eliminado", ej_P_A).
Proof.
  apply (C8_desenlazar_falla_sii ej_P_A 1 2);
    apply (bool_decide_unpack _); vm_compute; exact I.
Defined.

(** C9, as stated, fails: with a negative [num_hijo] the new node is not
    placed at position 0 of the parent's children but at the end. *)
Lemma C9_indice_negativo_contraejemplo :
  let r := añadirNodo ej_PA "B" (Some 1) (Some (-1)) in
  hijos (obj ej_PA 1) = [2] ∧
  hijos (obj r.2 1) !! 0%nat ≠ Some r.1 ∧
  hijos (obj r.2 1) = [2; r.1].
Proof. vm_compute. repeat split; congruence. Qed.

(** C9, amended.  For a registered parent, [añadirNodo] inserts the new node
    at position [num_hijo] of the parent's children when
    [0 <= num_hijo <= len(padre.hijos)]; for every other index, negative or
    beyond the length, and when no index is given, it appends the node at
    the end (position [len(padre.hijos)]).  The id returned is the counter
    [_siguiente_id]. *)
Theorem C9_posicion_del_hijo (d : Diagrama) (nom : string) (id_padre : Z)
    (num_hijo : option Z) :
  alcanzable d → id_padre ∈ nodos d →
  let r := añadirNodo d nom (Some id_padre) num_hijo in
  let hs := hijos (obj d id_padre) in
  r.1 = _siguiente_id d ∧
  (∀ k, num_hijo = Some k → 0 ≤ k ≤ Z.of_nat (length hs) →
     hijos (obj r.2 id_padre)
     = take (Z.to_nat k) hs ++ r.1 :: drop (Z.to_nat k) hs) ∧
  (∀ k, num_hijo = Some k → k < 0 ∨ Z.of_nat (length hs) < k →
     hijos (obj r.2 id_padre) = hs ++ [r.1]) ∧
  (num_hijo = None → hijos (obj r.2 id_padre) = hs ++ [r.1]).
Proof.
  intros Halc%alcanzable_con_bien_formado Hp r hs.
  assert (id_padre ≠ _siguiente_id d) as Hne.
  { intros ->. by apply (bien_formado_fresco d). }
  assert (hijos (obj r.2 id_padre)
          = anexar_hijo num_hijo (_siguiente_id d) hs) as ->.
  { unfold r, añadirNodo; simpl.
    rewrite (mg_hijos _ _ _ (actualizarHomologos_mismo_grafo _ _ _)).
    rewrite obj_añadido. unfold padre_valido.
    apply registrado_true in Hp. rewrite Hp.
    rewrite bool_decide_eq_false_2 by done.
    by rewrite bool_decide_eq_true_2. }
  split; [done|]. unfold anexar_hijo, list_insertar. simpl.
  split; [|split].
  - intros k -> [H0 Hl].
    by rewrite !bool_decide_eq_true_2.
  - intros k -> [H0|Hl].
    + by rewrite (bool_decide_eq_false_2 (0 ≤ k)) by lia.
    + rewrite (bool_decide_eq_false_2 (k ≤ _)) by lia.
      by rewrite andb_false_r.
  - by intros ->.
Qed.

Lemma C9_posicion_del_hijo_witness :
  hijos (obj (añadirNodo ej_PA "B" (Some 1) (Some 0)).2 1)
  = take (Z.to_nat 0) (hijos (obj ej_PA 1))
    ++ (añadirNodo ej_PA "B" (Some 1) (Some 0)).1
    :: drop (Z.to_nat 0) (hijos (obj ej_PA 1)).
Proof.
  refine (proj1 (proj2 (C9_posicion_del_hijo ej_PA "B" 1 (Some 0) _ _))
                0 eq_refl _).
  - apply (alc_paso _ ej_P (OpAñadir "A" (Some 1) None)); [|done..].
    apply alc_inicio.
  - apply (bool_decide_unpack _). vm_compute. exact I.
  - vm_compute. split; discriminate.
Defined.

(** [Diagrama("P")], two parentless nodes named "X" (ids 2 and 3), then
    node 3 renamed to "Y" through [actualizar_nodo]. *)
Definition ej_XX : Diagrama :=
  (añadirNodo (añadirNodo ej_P "X" None None).2 "X" None None).2.
Definition ej_XY : Diagrama :=
  (actualizar_nodo ej_XX 3 (Mk_NodoUpdate (Some "Y") None None)).2.

(** C2, evaluated where the code departs from it.  After two nodes named
    "X" are created they are mutual homologs; after the second is renamed
    to "Y" its own set is empty, but the first node still lists it: its
    stale entry is never removed. *)
Theorem C2_homologos_tras_renombrar :
  homologos (obj ej_XX 2) = {[3]} ∧ homologos (obj ej_XX 3) = {[2]} ∧
  nombre (obj ej_XY 2) = "X" ∧ nombre (obj ej_XY 3) = "Y" ∧
  2 ∈ nodos ej_XY ∧ 3 ∈ nodos ej_XY ∧
  homologos (obj ej_XY 3) = ∅ ∧ homologos (obj ej_XY 2) = {[3]}.
Proof.
  repeat split; try (vm_compute; reflexivity);
    apply (bool_decide_unpack _); vm_compute; exact I.
Qed.

(** C4, evaluated where the code departs from it.  Deleting node 3 of the
    state above returns [True] and unregisters it, yet the remaining node 2
    still lists 3 among its homologs: [eliminarNodo] only visits the ids in
    the deleted node's own set. *)
Theorem C4_eliminar_deja_homologo :
  ∃ d', eliminarNodo 4 ej_XY 3 = Some (true, d') ∧
        obtenerNodo d' 3 = None ∧ nodos d' = [1; 2] ∧
        homologos (obj d' 2) = {[3]}.
Proof.
  eexists. split; [vm_compute; reflexivity|].
  repeat split; vm_compute; reflexivity.
Qed.


(** [Diagrama("P")], [añadirNodo("A", 1)], then the edge 1 -> 2 removed
    through [eliminar_enlace]. *)
Definition ej_PA_suelto : Diagrama := (eliminar_enlace ej_PA 1 2).2.

(** C5, as stated, fails: after an unlink the child keeps the layers it
    had, while its current parents (none) derive no layer at all.  The state
    is reachable, and a state with the same edges and own constraints where
    the node has no layer is reachable too, so the layers are not a function
    of the edge set and the own constraints. *)
Lemma C5_capas_tras_desenlazar_contraejemplo :
  alcanzable ej_PA_suelto ∧ 2 ∈ nodos ej_PA_suelto ∧
  padres (obj ej_PA_suelto 2) = [] ∧
  restricciones_heredadas (obj ej_PA_suelto 2) = [∅] ∧
  derivadas ej_PA_suelto 2 = [] ∧
  restricciones_heredadas (obj ej_PA_suelto 2) ≠ derivadas ej_PA_suelto 2 ∧
  alcanzable ej_P_A ∧
  nodos ej_P_A = nodos ej_PA_suelto ∧
  (∀ k, k ∈ nodos ej_P_A →
        hijos (obj ej_P_A k) = hijos (obj ej_PA_suelto k) ∧
        padres (obj ej_P_A k) = padres (obj ej_PA_suelto k) ∧
        restricciones_propias (obj ej_P_A k)
        = restricciones_propias (obj ej_PA_suelto k)) ∧
  restricciones_heredadas (obj ej_P_A 2) = [].
Proof.
  split.
  { apply (alc_paso _ ej_PA (OpDesenlazar 1 2)); [|done..].
    apply (alc_paso _ ej_P (OpAñadir "A" (Some 1) None)); [|done..].
    apply alc_inicio. }
  split; [apply (bool_decide_unpack _); vm_compute; exact I|].
  split; [vm_compute; reflexivity|].
  split; [vm_compute; reflexivity|].
  split; [vm_compute; reflexivity|].
  split; [vm_compute; discriminate|].
  split.
  { apply (alc_paso _ ej_P (OpAñadir "A" None None)); [|done..].
    apply alc_inicio. }
  split; [vm_compute; reflexivity|].
  split; [|vm_compute; reflexivity].
  intros k Hk.
  assert (nodos ej_P_A = [1; 2]) as Hn by (vm_compute; reflexivity).
  rewrite Hn in Hk.
  apply elem_of_cons in Hk as [->|Hk]; [vm_compute; done|].
  apply list_elem_of_singleton in Hk as ->. vm_compute. done.
Qed.

(** C5, amended.  In every state reached without [eliminar_enlace]
    (creation, [añadirNodo], [enlazarNodos], [eliminarNodo],
    [actualizar_nodo]) the inherited layers of every registered node are
    the layer-wise union, over its current parents, of the parent's full
    stack.  [eliminar_enlace] leaves every node's layers as they were; it
    retracts nothing. *)
Theorem C5_capas_derivadas_sin_desenlazar :
  (∀ d k, alcanzable_con sin_desenlazar d → k ∈ nodos d →
          restricciones_heredadas (obj d k) = derivadas d k) ∧
  (∀ d p c k,
     restricciones_heredadas (obj (eliminar_enlace d p c).2 k)
     = restricciones_heredadas (obj d k) ∧
     restricciones_propias (obj (eliminar_enlace d p c).2 k)
     = restricciones_propias (obj d k)).
Proof.
  split.
  - intros d k Halc Hk. apply capas_ok_derivadas; [|by apply alcanzable_sin_desenlazar_capas_ok|done].
    by eapply alcanzable_con_bien_formado.
  - intros d p c k.
    by destruct (estructura_resto_eliminar_enlace d p c k) as (-> & -> & _).
Qed.

Lemma C5_capas_derivadas_sin_desenlazar_witness :
  restricciones_heredadas (obj ej_PAB_23 3) = derivadas ej_PAB_23 3.
Proof.
  apply (proj1 C5_capas_derivadas_sin_desenlazar ej_PAB_23 3).
  - apply (alc_paso _ ej_PAB (OpEnlazar 2 3)); [|done|].
    + apply alcanzable_ej_PAB. done.
    + exists 4%nat, true. apply ej_PAB_enlaza.
  - apply (bool_decide_unpack _). vm_compute. exact I.
Defined.

(** * Further properties of the engine *)

(** ** Cycle guard, deletion, identifiers *)

(** X1.  On every diagram state, well formed or not, cyclic or not,
    [_creaCiclo(id_padre, id_hijo)] returns once the recursion depth may
    exceed the number of registered nodes, and its answer is [True] exactly
    when [id_padre] is reachable from [id_hijo] through zero or more
    children edges of registered nodes. *)
Theorem X1_creaCiclo_decide_alcance (d : Diagrama) (id_padre id_hijo : Z)
    (fuel : nat) :
  (length (nodos d) < fuel)%nat →
  ∃ b, _creaCiclo fuel d id_padre id_hijo = Some b ∧
       (b = true ↔ rtc (arista d) id_hijo id_padre).
Proof.
  intros Hf.
  destruct (_creaCiclo_termina fuel d id_padre id_hijo Hf) as [b Hb].
  exists b. split; [done|]. by eapply _creaCiclo_spec.
Qed.

Lemma X1_creaCiclo_decide_alcance_witness :
  ∃ b, _creaCiclo 4 ej_PAB 1 2 = Some b ∧
       (b = true ↔ rtc (arista ej_PAB) 2 1).
Proof. apply (X1_creaCiclo_decide_alcance ej_PAB 1 2 4). vm_compute. lia. Defined.

(** X2.  In a reachable state [eliminarNodo(id)] returns; it returns [False]
    and changes nothing when [id] is not registered.  Otherwise it returns
    [True] and the registry afterwards holds exactly the nodes that were not
    reachable from [id] (so [id] and all its descendants are gone, and
    nothing else).  Every surviving node keeps its [padres] list, its
    [hijos] are the former ones that survive, and [id] occurs in neither. *)
Theorem X2_eliminarNodo_quita_descendientes (d : Diagrama) (id : Z)
    (fuel : nat) :
  alcanzable d → (length (nodos d) < fuel)%nat →
  ∃ b d',
    eliminarNodo fuel d id = Some (b, d') ∧
    (b = true ↔ id ∈ nodos d) ∧
    (b = false → d' = d) ∧
    (b = true →
       (∀ k, k ∈ nodos d' ↔ k ∈ nodos d ∧ ¬ rtc (arista d) id k) ∧
       (∀ k, k ∈ nodos d' →
          padres (obj d' k) = padres (obj d k) ∧
          (∀ h, h ∈ hijos (obj d' k) ↔ h ∈ hijos (obj d k) ∧ h ∈ nodos d') ∧
          (id ∉ hijos (obj d' k)) ∧ (id ∉ padres (obj d' k)))).
Proof.
  intros Halc Hf. apply alcanzable_con_bien_formado in Halc as Hbf.
  destruct (eliminarNodo_termina fuel d id (bf_aciclico _ Hbf) Hf)
    as [[b d'] He].
  exists b, d'. split; [done|].
  destruct (eliminarNodo_encoge _ _ _ _ _ He) as (Hen & Hid & Hb & Hfalse).
  destruct (eliminarNodo_bien_formado _ _ _ _ _ Hbf He) as [Hbf' Hquedan].
  split; [done|]. split; [done|]. intros _.
  assert (∀ k, rtc (arista d) id k → k ∉ nodos d') as Hdesc.
  { apply (rtc_ind_r (λ k, k ∉ nodos d')); [done|].
    intros y z _ [Hy Hz] IH Hzin. apply IH.
    apply (bf_padres_reg _ Hbf' z y Hzin).
    rewrite (en_padres _ _ Hen).
    apply (bf_consistente _ Hbf); [done|by apply (en_nodos _ _ Hen)|done]. }
  split.
  - intros k. split.
    + intros Hk. split; [by apply (en_nodos _ _ Hen)|].
      intros Hr. by apply (Hdesc k).
    + intros [Hk Hr]. by apply Hquedan.
  - intros k Hk. split; [apply (en_padres _ _ Hen)|]. split; [|split].
    + intros h. split.
      * intros Hh. split; [by apply (en_hijos _ _ Hen)|].
        by apply (bf_hijos_reg _ Hbf' k).
      * intros [Hh Hhin].
        apply (bf_consistente _ Hbf'); [done..|].
        rewrite (en_padres _ _ Hen).
        apply (bf_consistente _ Hbf); [|by apply (en_nodos _ _ Hen)|done].
        by apply (en_nodos _ _ Hen).
    + intros Hin. apply Hid. by apply (bf_hijos_reg _ Hbf' k).
    + intros Hin. apply Hid. by apply (bf_padres_reg _ Hbf' k).
Qed.

Lemma X2_eliminarNodo_quita_descendientes_witness :
  ∃ b d', eliminarNodo 4 ej_PAB 2 = Some (b, d') ∧ (b = true ↔ 2 ∈ nodos ej_PAB).
Proof.
  destruct (X2_eliminarNodo_quita_descendientes ej_PAB 2 4)
    as (b & d' & H1 & H2 & _).
  - apply alcanzable_ej_PAB. done.
  - vm_compute. lia.
  - exists b, d'. split; [exact H1|exact H2].
Defined.

(** One operation of the program, whichever it is. *)
Definition evoluciona (d d' : Diagrama) : Prop := ∃ op, paso d op d'.

(** What one operation does to the registry and to the id counter: the only
    key that can enter is the counter's current value. *)
Lemma paso_registro d op d' :
  bien_formado d → paso d op d' →
  _siguiente_id d ≤ _siguiente_id d' ∧
  ∀ k, k ∈ nodos d' → k ∈ nodos d ∨ k = _siguiente_id d.
Proof.
  intros Hbf Hp. destruct op as [nom ip nh|id|p c|p c|id datos]; simpl in Hp.
  - subst d'. unfold añadirNodo; simpl.
    pose proof (actualizarHomologos_mismo_grafo (añadido d nom ip nh)
                  (_siguiente_id d) nom) as Hmg.
    rewrite (mg_siguiente _ _ Hmg), (mg_nodos _ _ Hmg), siguiente_añadido.
    rewrite nodos_añadido by by apply bien_formado_fresco.
    split; [lia|]. intros k [Hk|Hk%list_elem_of_singleton]%elem_of_app; auto.
  - destruct Hp as (fuel & b & He).
    destruct (eliminarNodo_encoge _ _ _ _ _ He) as (Hen & _).
    rewrite (en_siguiente _ _ Hen). split; [lia|].
    intros k Hk. left. by apply (en_nodos _ _ Hen).
  - destruct Hp as (fuel & b & He).
    apply enlazarNodos_casos in He as [(_ & -> & _)|(_ & _ & Hpr)].
    + split; [lia|]. auto.
    + apply _propagarRestricciones_propagado in Hpr as [Hmf _ _].
      rewrite (mf_siguiente _ _ Hmf), (mf_nodos _ _ Hmf), nodos_enlazado.
      split; [done|]. auto.
  - subst d'. rewrite siguiente_eliminar_enlace, nodos_eliminar_enlace.
    split; [lia|]. auto.
  - subst d'. pose proof (actualizar_nodo_mismo_grafo d id datos) as Hmg.
    rewrite (mg_siguiente _ _ Hmg), (mg_nodos _ _ Hmg). split; [lia|]. auto.
Qed.

(** X3.  Identifiers are never reused.  From a reachable state, along any
    further sequence of operations, the counter [_siguiente_id] never
    decreases, and an id below the counter that is not registered (it was
    deleted) is never registered again. *)
Theorem X3_ids_no_se_reutilizan (d d' : Diagrama) (k : Z) :
  alcanzable d → rtc evoluciona d d' →
  k < _siguiente_id d → k ∉ nodos d →
  _siguiente_id d ≤ _siguiente_id d' ∧ k ∉ nodos d'.
Proof.
  intros Halc%alcanzable_con_bien_formado Hr. revert Halc.
  induction Hr as [d|d d1 d2 [op Hop] _ IH]; intros Hbf Hk Hnin.
  - split; [lia|done].
  - destruct (paso_registro _ _ _ Hbf Hop) as [Hle Hreg].
    destruct IH as [Hle2 Hnin2].
    + by eapply paso_bien_formado.
    + lia.
    + intros [?|?]%Hreg; [done|lia].
    + split; [lia|done].
Qed.

(** [ej_PAB] after [eliminarNodo(3)], and then a node created again. *)
Definition ej_PAB_sin3 : Diagrama :=
  match eliminarNodo 4 ej_PAB 3 with
  | Some (_, d) => d
  | None => ej_PAB
  end.
Definition ej_PAB_sin3_C : Diagrama := (añadirNodo ej_PAB_sin3 "C" None None).2.

Lemma alcanzable_ej_PAB_sin3 : alcanzable ej_PAB_sin3.
Proof.
  apply (alc_paso _ ej_PAB (OpEliminar 3)); [|done|].
  - apply alcanzable_ej_PAB. done.
  - exists 4%nat, true. vm_compute. reflexivity.
Qed.

Lemma X3_ids_no_se_reutilizan_witness :
  _siguiente_id ej_PAB_sin3 ≤ _siguiente_id ej_PAB_sin3_C ∧
  3 ∉ nodos ej_PAB_sin3_C.
Proof.
  apply (X3_ids_no_se_reutilizan ej_PAB_sin3 ej_PAB_sin3_C 3).
  - apply alcanzable_ej_PAB_sin3.
  - apply rtc_once. exists (OpAñadir "C" None None). reflexivity.
  - vm_compute. reflexivity.
  - apply (bool_decide_unpack _). vm_compute. exact I.
Defined.

(** ** Homolog tracker *)

(** Ids of the registered nodes named [nom], [id] itself left out: the nodes
    the loop of [actualizarHomologos] selects. *)
Definition tocayos (d : Diagrama) (id : Z) (nom : string) : gset Z :=
  list_to_set (filter (λ k, nombre (obj d k) = nom ∧ k ≠ id) (nodos d)).

Lemma elem_of_tocayos d id nom k :
  k ∈ tocayos d id nom ↔ k ∈ nodos d ∧ nombre (obj d k) = nom ∧ k ≠ id.
Proof.
  unfold tocayos. rewrite elem_of_list_to_set, list_elem_of_filter. tauto.
Qed.

(** Fields other than [homologos]. *)
Definition sin_homologos (n : Nodo) : Nodo := con_homologos ∅ n.

Lemma sin_homologos_mutar k (f : gset Z → gset Z) d j :
  sin_homologos (obj (mutar k (λ n, con_homologos (f (homologos n)) n) d) j)
  = sin_homologos (obj d j).
Proof. rewrite obj_mutar. by case_bool_decide; subst. Qed.

Lemma sin_homologos_nombre n m :
  sin_homologos n = sin_homologos m → nombre n = nombre m.
Proof. unfold sin_homologos, con_homologos. congruence. Qed.

(** The loop of [actualizarHomologos]: what it collects and what it writes. *)
Lemma paso_homologos_efecto id nom l homs d homs' d' :
  foldl (paso_homologos id nom) (homs, d) l = (homs', d') →
  homs' = homs ∪ list_to_set
                   (filter (λ k, nombre (obj d k) = nom ∧ k ≠ id) l) ∧
  ∀ k, sin_homologos (obj d' k) = sin_homologos (obj d k) ∧
       homologos (obj d' k)
       = if bool_decide (k ∈ l ∧ nombre (obj d k) = nom ∧ k ≠ id)
         then homologos (obj d k) ∪ {[id]} else homologos (obj d k).
Proof.
  revert homs d. induction l as [|x l IH]; intros homs d; cbn [foldl].
  - intros [= <- <-].
    split; [by rewrite ?filter_nil, ?list_to_set_nil, (right_id_L ∅ (∪))|].
    intros k. split; [done|].
    rewrite (bool_decide_eq_false_2 (k ∈ [] ∧ _)); [done|].
    intros [?%elem_of_nil _]. done.
  - destruct (decide (nombre (obj d x) = nom ∧ x ≠ id)) as [Hx|Hx].
    + destruct Hx as [Hnom Hne].
      set (d1 := mutar x (λ n, con_homologos (homologos n ∪ {[id]}) n) d).
      assert (paso_homologos id nom (homs, d) x = (homs ∪ {[x]}, d1)) as ->.
      { unfold paso_homologos.
        by rewrite (bool_decide_eq_true_2 _ Hnom), (bool_decide_eq_true_2 _ Hne). }
      intros Hf. apply IH in Hf as [-> Hobj].
      assert (∀ k, sin_homologos (obj d1 k) = sin_homologos (obj d k)) as Hs.
      { intros k. apply (sin_homologos_mutar x (λ h, h ∪ {[id]})). }
      assert (∀ k, nombre (obj d1 k) = nombre (obj d k)) as Hn.
      { intros k. apply sin_homologos_nombre, Hs. }
      split.
      * rewrite filter_cons_True by done. rewrite list_to_set_cons.
        rewrite (list_filter_iff _ (λ k, nombre (obj d k) = nom ∧ k ≠ id)).
        -- by rewrite (assoc_L (∪)).
        -- intros k. by rewrite Hn.
      * intros k. destruct (Hobj k) as [-> ->]. split; [apply Hs|].
        rewrite Hn. unfold d1. rewrite obj_mutar.
        destruct (decide (k = x)) as [->|Hkx].
        -- rewrite (bool_decide_eq_true_2 (x = x)) by done. cbn [homologos con_homologos].
           rewrite (bool_decide_eq_true_2 (x ∈ x :: l ∧ _)).
           2:{ split; [by left|done]. }
           destruct (bool_decide (x ∈ l ∧ nombre (obj d x) = nom ∧ x ≠ id));
             [|done].
           by rewrite <- (assoc_L (∪)), (idemp_L (∪)).
        -- rewrite (bool_decide_eq_false_2 (k = x)) by done.
           apply (f_equal (λ b : bool, if b then _ else _)).
           apply bool_decide_ext. rewrite elem_of_cons. tauto.
    + assert (paso_homologos id nom (homs, d) x = (homs, d)) as ->.
      { unfold paso_homologos.
        destruct (decide (nombre (obj d x) = nom)) as [Hn|Hn].
        - rewrite (bool_decide_eq_false_2 (x ≠ id)) by tauto.
          by rewrite andb_false_r.
        - by rewrite (bool_decide_eq_false_2 _ Hn). }
      intros Hf. apply IH in Hf as [-> Hobj]. split.
      * by rewrite filter_cons_False by done.
      * intros k. destruct (Hobj k) as [-> ->]. split; [done|].
        apply (f_equal (λ b : bool, if b then _ else _)).
        apply bool_decide_ext. rewrite elem_of_cons.
        split; [tauto|]. intros [[->|?] ?]; [done|tauto].
Qed.

(** [actualizarHomologos(id, nom)] on a registered [id], field by field. *)
Lemma actualizarHomologos_campos d id nom k :
  id ∈ nodos d →
  sin_homologos (obj (actualizarHomologos d id nom) k)
  = sin_homologos (obj d k) ∧
  homologos (obj (actualizarHomologos d id nom) k)
  = if bool_decide (k = id) then tocayos d id nom
    else if bool_decide (k ∈ tocayos d id nom)
    then homologos (obj d k) ∪ {[id]}
    else homologos (obj d k).
Proof.
  intros Hid. unfold actualizarHomologos.
  apply registrado_true in Hid as Hreg. rewrite Hreg. simpl.
  destruct (foldl (paso_homologos id nom) (∅, d) (nodos d)) as [homs d1] eqn:Hf.
  apply paso_homologos_efecto in Hf as [-> Hobj].
  rewrite (left_id_L ∅ (∪)). rewrite obj_mutar.
  destruct (Hobj k) as [Hs Hh]. destruct (decide (k = id)) as [->|Hk].
  - rewrite !(bool_decide_eq_true_2 (id = id)) by done.
    split; [|done]. rewrite <- Hs. done.
  - rewrite !(bool_decide_eq_false_2 (k = id)) by done.
    split; [done|]. rewrite Hh.
    apply (f_equal (λ b : bool, if b then _ else _)).
    apply bool_decide_ext. by rewrite elem_of_tocayos.
Qed.

Lemma actualizarHomologos_no_registrado d id nom :
  id ∉ nodos d → actualizarHomologos d id nom = d.
Proof.
  intros Hid%registrado_false. unfold actualizarHomologos. by rewrite Hid.
Qed.

Lemma actualizarHomologos_nombre d id nom k :
  nombre (obj (actualizarHomologos d id nom) k) = nombre (obj d k).
Proof.
  destruct (decide (id ∈ nodos d)) as [Hid|Hid].
  - apply sin_homologos_nombre. by apply actualizarHomologos_campos.
  - by rewrite actualizarHomologos_no_registrado.
Qed.

(** X5.  [actualizarHomologos(id, nom)] does nothing for an unregistered
    [id].  For a registered one it replaces the node's homolog set by the
    set of the other registered nodes named [nom], adds [id] to the homolog
    set of each of those, and leaves every other homolog set, and every
    field other than [homologos] of every node, as it was.  Nothing is ever
    removed from the set of a node other than [id]. *)
Theorem X5_actualizarHomologos_efecto (d : Diagrama) (id : Z) (nom : string) :
  (id ∉ nodos d → actualizarHomologos d id nom = d) ∧
  (id ∈ nodos d →
   let d' := actualizarHomologos d id nom in
   homologos (obj d' id) = tocayos d id nom ∧
   (∀ k, k ≠ id → k ∈ tocayos d id nom →
         homologos (obj d' k) = homologos (obj d k) ∪ {[id]}) ∧
   (∀ k, k ≠ id → k ∉ tocayos d id nom →
         homologos (obj d' k) = homologos (obj d k)) ∧
   (∀ k, sin_homologos (obj d' k) = sin_homologos (obj d k)) ∧
   nodos d' = nodos d).
Proof.
  split; [apply actualizarHomologos_no_registrado|].
  intros Hid. cbv zeta. split; [|split; [|split; [|split]]].
  - destruct (actualizarHomologos_campos d id nom id Hid) as [_ ->].
    by rewrite bool_decide_eq_true_2.
  - intros k Hk Hin.
    destruct (actualizarHomologos_campos d id nom k Hid) as [_ ->].
    by rewrite bool_decide_eq_false_2, bool_decide_eq_true_2.
  - intros k Hk Hin.
    destruct (actualizarHomologos_campos d id nom k Hid) as [_ ->].
    by rewrite !bool_decide_eq_false_2.
  - intros k. by apply actualizarHomologos_campos.
  - apply (mg_nodos _ _ (actualizarHomologos_mismo_grafo d id nom)).
Qed.

Lemma X5_actualizarHomologos_efecto_witness :
  homologos (obj (actualizarHomologos ej_PAB 3 "A") 3) = tocayos ej_PAB 3 "A".
Proof.
  apply (proj2 (X5_actualizarHomologos_efecto ej_PAB 3 "A")).
  apply (bool_decide_unpack _). vm_compute. exact I.
Defined.

(** ** Node creation *)

(** Name and homolog set of every object after the first part of
    [añadirNodo]. *)
Lemma añadido_nombre_homologos d nom ip nh k :
  nombre (obj (añadido d nom ip nh) k)
  = (if bool_decide (k = _siguiente_id d) then nom else nombre (obj d k)) ∧
  homologos (obj (añadido d nom ip nh) k)
  = (if bool_decide (k = _siguiente_id d) then ∅ else homologos (obj d k)).
Proof.
  rewrite obj_añadido. destruct (padre_valido d ip) as [p|];
    repeat case_bool_decide; by subst.
Qed.

(** What [añadirNodo] creates and what it leaves alone, in a well-formed
    state. *)
Lemma añadirNodo_efecto (d : Diagrama) (nom : string)
    (id_padre num_hijo : option Z) :
  bien_formado d →
  let r := añadirNodo d nom id_padre num_hijo in
  r.1 = _siguiente_id d ∧ (r.1 ∉ nodos d) ∧
  nodos r.2 = nodos d ++ [r.1] ∧ _siguiente_id r.2 = r.1 + 1 ∧
  nombre (obj r.2 r.1) = nom ∧ hijos (obj r.2 r.1) = [] ∧
  (∀ p, id_padre = Some p → p ∈ nodos d →
        padres (obj r.2 r.1) = [p] ∧ r.1 ∈ hijos (obj r.2 p) ∧
        restricciones_heredadas (obj r.2 r.1) = restricciones (obj d p)) ∧
  (id_padre = None ∨ (∃ p, id_padre = Some p ∧ p ∉ nodos d) →
        padres (obj r.2 r.1) = [] ∧
        restricciones_heredadas (obj r.2 r.1) = [] ∧
        ∀ k, k ∈ nodos d → hijos (obj r.2 k) = hijos (obj d k)) ∧
  (∀ k, k ∈ nodos d →
        padres (obj r.2 k) = padres (obj d k) ∧
        nombre (obj r.2 k) = nombre (obj d k) ∧
        restricciones_heredadas (obj r.2 k)
        = restricciones_heredadas (obj d k)).
Proof.
  intros Halc. cbv zeta.
  pose proof (bien_formado_fresco d Halc) as Hfr.
  unfold añadirNodo; cbn [fst snd].
  pose proof (actualizarHomologos_mismo_grafo (añadido d nom id_padre num_hijo)
                (_siguiente_id d) nom) as Hmg.
  assert (∀ k, k ∈ nodos d → k ≠ _siguiente_id d) as Hne.
  { intros k Hk ->. done. }
  split; [done|]. split; [done|].
  split; [by rewrite (mg_nodos _ _ Hmg), nodos_añadido|].
  split; [by rewrite (mg_siguiente _ _ Hmg), siguiente_añadido|].
  split.
  { rewrite actualizarHomologos_nombre.
    destruct (añadido_nombre_homologos d nom id_padre num_hijo
                (_siguiente_id d)) as [-> _].
    by rewrite bool_decide_eq_true_2. }
  rewrite !(mg_hijos _ _ _ Hmg), !(mg_padres _ _ _ Hmg),
    !(mg_heredadas _ _ _ Hmg).
  split.
  { rewrite obj_añadido. destruct (padre_valido d id_padre);
      by rewrite bool_decide_eq_true_2. }
  split; [|split].
  - intros p -> Hp. rewrite (mg_hijos _ _ _ Hmg). rewrite !obj_añadido.
    unfold padre_valido. apply registrado_true in Hp as Hr. rewrite Hr.
    rewrite (bool_decide_eq_true_2 (_siguiente_id d = _)) by done.
    rewrite (bool_decide_eq_false_2 (p = _siguiente_id d)) by by apply Hne.
    rewrite (bool_decide_eq_true_2 (p = p)) by done.
    split; [done|]. split; [|done]. cbn [hijos con_hijos].
    apply elem_of_anexar_hijo. by right.
  - intros Hip.
    assert (padre_valido d id_padre = None) as Hpv.
    { destruct Hip as [->|(p & -> & Hp)]; [done|].
      unfold padre_valido. apply registrado_false in Hp. by rewrite Hp. }
    rewrite obj_añadido, Hpv, bool_decide_eq_true_2 by done.
    split; [done|]. split; [done|]. intros k Hk.
    rewrite (mg_hijos _ _ _ Hmg), obj_añadido, Hpv.
    by rewrite bool_decide_eq_false_2 by by apply Hne.
  - intros k Hk. rewrite (mg_padres _ _ _ Hmg), (mg_heredadas _ _ _ Hmg).
    rewrite actualizarHomologos_nombre.
    destruct (añadido_nombre_homologos d nom id_padre num_hijo k) as [-> _].
    rewrite obj_añadido.
    specialize (Hne k Hk).
    rewrite (bool_decide_eq_false_2 (k = _siguiente_id d) Hne).
    destruct (padre_valido d id_padre) as [p|]; [|done].
    case_bool_decide; by subst.
Qed.

(** X4.  In a reachable state [añadirNodo] returns the value of the counter
    [_siguiente_id], which is not a registered id; afterwards the registry is
    the former one with that id appended and the counter is one higher.  The
    new node carries the given name and has no children.  If [id_padre] is a
    registered id the new node has exactly that parent, is among the
    parent's children and inherits the parent's full constraint stack;
    if [id_padre] is absent or not registered the node is created all the
    same, without parents and without layers, and no children list changes.
    No existing node changes its parents, name or layers. *)
Theorem X4_anadirNodo_nodo_nuevo (d : Diagrama) (nom : string)
    (id_padre num_hijo : option Z) :
  alcanzable d →
  let r := añadirNodo d nom id_padre num_hijo in
  r.1 = _siguiente_id d ∧ (r.1 ∉ nodos d) ∧
  nodos r.2 = nodos d ++ [r.1] ∧ _siguiente_id r.2 = r.1 + 1 ∧
  nombre (obj r.2 r.1) = nom ∧ hijos (obj r.2 r.1) = [] ∧
  (∀ p, id_padre = Some p → p ∈ nodos d →
        padres (obj r.2 r.1) = [p] ∧ r.1 ∈ hijos (obj r.2 p) ∧
        restricciones_heredadas (obj r.2 r.1) = restricciones (obj d p)) ∧
  (id_padre = None ∨ (∃ p, id_padre = Some p ∧ p ∉ nodos d) →
        padres (obj r.2 r.1) = [] ∧
        restricciones_heredadas (obj r.2 r.1) = [] ∧
        ∀ k, k ∈ nodos d → hijos (obj r.2 k) = hijos (obj d k)) ∧
  (∀ k, k ∈ nodos d →
        padres (obj r.2 k) = padres (obj d k) ∧
        nombre (obj r.2 k) = nombre (obj d k) ∧
        restricciones_heredadas (obj r.2 k)
        = restricciones_heredadas (obj d k)).
Proof.
  intros Halc%alcanzable_con_bien_formado. by apply añadirNodo_efecto.
Qed.

Lemma X4_anadirNodo_nodo_nuevo_witness :
  (añadirNodo ej_PAB "C" (Some 9) None).1 = _siguiente_id ej_PAB ∧
  padres (obj (añadirNodo ej_PAB "C" (Some 9) None).2
              (añadirNodo ej_PAB "C" (Some 9) None).1) = [].
Proof.
  destruct (X4_anadirNodo_nodo_nuevo ej_PAB "C" (Some 9) None)
    as (H1 & _ & _ & _ & _ & _ & _ & H8 & _).
  - apply alcanzable_ej_PAB. done.
  - split; [exact H1|]. apply H8. right. exists 9. split; [done|].
    apply (bool_decide_unpack _). vm_compute. exact I.
Defined.

(** ** Homologs in reachable states *)

(** The half of the homolog relation the program maintains: registered
    nodes of the same name list each other; no node lists itself; every id
    listed was handed out by the counter. *)
Record homologos_ok (d : Diagrama) : Prop := Mk_homologos_ok {
  ho_completos : ∀ a b, a ∈ nodos d → b ∈ nodos d → a ≠ b →
                        nombre (obj d a) = nombre (obj d b) →
                        b ∈ homologos (obj d a);
  ho_propio : ∀ a, a ∉ homologos (obj d a);
  ho_creados : ∀ a j, j ∈ homologos (obj d a) → j < _siguiente_id d
}.

(** A change that renames nothing and removes from the homolog sets only
    ids that are no longer registered. *)
Record homologos_encogidos (d d' : Diagrama) : Prop := Mk_homologos_encogidos {
  he_nodos : ∀ k, k ∈ nodos d' → k ∈ nodos d;
  he_siguiente : _siguiente_id d ≤ _siguiente_id d';
  he_nombre : ∀ k, nombre (obj d' k) = nombre (obj d k);
  he_sub : ∀ k j, j ∈ homologos (obj d' k) → j ∈ homologos (obj d k);
  he_quedan : ∀ k j, j ∈ homologos (obj d k) → j ∈ nodos d' →
                     j ∈ homologos (obj d' k)
}.

Lemma homologos_encogidos_refl d : homologos_encogidos d d.
Proof. by split. Qed.

Lemma homologos_encogidos_trans d1 d2 d3 :
  homologos_encogidos d1 d2 → homologos_encogidos d2 d3 →
  homologos_encogidos d1 d3.
Proof.
  intros [Hn1 Hs1 Hm1 Hb1 Hq1] [Hn2 Hs2 Hm2 Hb2 Hq2]. split.
  - intros k Hk. by apply Hn1, Hn2.
  - lia.
  - intros k. by rewrite Hm2.
  - intros k j Hj. by apply Hb1, Hb2.
  - intros k j Hj Hin. apply Hq2; [|done]. apply Hq1; [done|]. by apply Hn2.
Qed.

Lemma homologos_encogidos_igual d d' :
  nodos d' = nodos d → _siguiente_id d' = _siguiente_id d →
  (∀ k, nombre (obj d' k) = nombre (obj d k)) →
  (∀ k, homologos (obj d' k) = homologos (obj d k)) →
  homologos_encogidos d d'.
Proof.
  intros Hn Hs Hm Hh. split.
  - intros k. by rewrite Hn.
  - lia.
  - done.
  - intros k j. by rewrite Hh.
  - intros k j. by rewrite Hh.
Qed.

Lemma homologos_ok_encogidos d d' :
  homologos_encogidos d d' → homologos_ok d → homologos_ok d'.
Proof.
  intros [Hn Hs Hm Hb Hq] [Hc Hp Hcr]. split.
  - intros a b Ha Hb' Hab Hnom. rewrite !Hm in Hnom.
    apply Hq; [|done]. apply Hc; [by apply Hn|by apply Hn|done..].
  - intros a Ha. by apply (Hp a), Hb.
  - intros a j Hj%Hb%Hcr. lia.
Qed.

Lemma homologos_ok_init nom : homologos_ok (Diagrama_init nom).
Proof.
  assert (∀ k, homologos (obj (Diagrama_init nom) k) = ∅) as H0.
  { intros k. unfold obj, Diagrama_init, _crear_nodo_raiz; simpl.
    destruct (decide (k = 1)) as [->|Hk].
    - by rewrite lookup_total_insert_eq.
    - rewrite lookup_total_insert_ne by done.
      by rewrite lookup_total_empty. }
  split.
  - intros a b ->%list_elem_of_singleton ->%list_elem_of_singleton. done.
  - intros a. rewrite H0. apply not_elem_of_empty.
  - intros a j. rewrite H0. by intros ?%elem_of_empty.
Qed.

(** [actualizarHomologos(id, nom)] on a node named [nom] restores the
    invariant when only the pairs that involve [id] may be missing. *)
Lemma homologos_ok_actualizarHomologos d id nom :
  id ∈ nodos d → nombre (obj d id) = nom →
  (∀ k, k ∈ nodos d → k < _siguiente_id d) →
  (∀ a b, a ∈ nodos d → b ∈ nodos d → a ≠ b → a ≠ id → b ≠ id →
          nombre (obj d a) = nombre (obj d b) → b ∈ homologos (obj d a)) →
  (∀ a, a ≠ id → a ∉ homologos (obj d a)) →
  (∀ a j, a ≠ id → j ∈ homologos (obj d a) → j < _siguiente_id d) →
  homologos_ok (actualizarHomologos d id nom).
Proof.
  intros Hid Hnom Hfr Hc Hp Hcr.
  pose proof (actualizarHomologos_mismo_grafo d id nom) as Hmg.
  pose proof (actualizarHomologos_campos d id nom) as Hcampos.
  assert (∀ k, homologos (obj (actualizarHomologos d id nom) k)
               = if bool_decide (k = id) then tocayos d id nom
                 else if bool_decide (k ∈ tocayos d id nom)
                      then homologos (obj d k) ∪ {[id]}
                      else homologos (obj d k)) as Hh.
  { intros k. by destruct (Hcampos k Hid). }
  split.
  - intros a b. rewrite !(mg_nodos _ _ Hmg), !actualizarHomologos_nombre.
    intros Ha Hb Hab Hn. rewrite Hh.
    destruct (decide (a = id)) as [->|Ha'].
    + rewrite bool_decide_eq_true_2 by done.
      apply elem_of_tocayos. split; [done|]. split; [congruence|done].
    + rewrite (bool_decide_eq_false_2 (a = id)) by done.
      destruct (decide (b = id)) as [->|Hb'].
      * rewrite bool_decide_eq_true_2; [set_solver|].
        apply elem_of_tocayos. split; [done|]. split; [congruence|done].
      * assert (b ∈ homologos (obj d a)) by by apply Hc.
        case_bool_decide; set_solver.
  - intros a. rewrite Hh. case_bool_decide as Ha.
    + subst a. rewrite elem_of_tocayos. tauto.
    + specialize (Hp a Ha). case_bool_decide; set_solver.
  - intros a j. rewrite Hh, (mg_siguiente _ _ Hmg).
    case_bool_decide as Ha.
    + intros Hj%elem_of_tocayos. apply Hfr. tauto.
    + case_bool_decide.
      * intros [Hj| ->%elem_of_singleton]%elem_of_union;
          [by eapply Hcr|by apply Hfr].
      * by apply Hcr.
Qed.

Lemma homologos_ok_añadirNodo d nom ip nh :
  bien_formado d → homologos_ok d → homologos_ok (añadirNodo d nom ip nh).2.
Proof.
  intros Hbf [Hc Hp Hcr]. unfold añadirNodo; cbn [snd].
  pose proof (bien_formado_fresco d Hbf) as Hfr.
  pose proof (añadido_nombre_homologos d nom ip nh) as Hnh.
  assert (∀ k, k ≠ _siguiente_id d →
               nombre (obj (añadido d nom ip nh) k) = nombre (obj d k) ∧
               homologos (obj (añadido d nom ip nh) k) = homologos (obj d k))
    as Hviejo.
  { intros k Hk. destruct (Hnh k) as [-> ->].
    by rewrite (bool_decide_eq_false_2 _ Hk). }
  assert (∀ k, k ∈ nodos (añadido d nom ip nh) → k ≠ _siguiente_id d →
               k ∈ nodos d) as Hreg.
  { intros k. rewrite nodos_añadido by done.
    intros [?|?%list_elem_of_singleton]%elem_of_app ?; done. }
  apply homologos_ok_actualizarHomologos.
  - rewrite nodos_añadido by done. apply elem_of_app. right. by left.
  - destruct (Hnh (_siguiente_id d)) as [-> _].
    by rewrite bool_decide_eq_true_2.
  - intros k. rewrite nodos_añadido, siguiente_añadido by done.
    intros [Hk|Hk%list_elem_of_singleton]%elem_of_app; [|lia].
    pose proof (bf_fresco _ Hbf k Hk). lia.
  - intros a b Ha Hb Hab Ha' Hb'.
    destruct (Hviejo a Ha') as [-> ->]. destruct (Hviejo b Hb') as [-> _].
    apply Hc; [by apply Hreg|by apply Hreg|done].
  - intros a Ha. destruct (Hviejo a Ha) as [_ ->]. apply Hp.
  - intros a j Ha. destruct (Hviejo a Ha) as [_ ->].
    rewrite siguiente_añadido. intros Hj%Hcr. lia.
Qed.

(** Name and homolog set after [actualizar_nodo] on a registered id: those
    after the rename and its homolog refresh, if a name is given. *)
Lemma actualizar_nodo_nombre_homologos d id datos k :
  id ∈ nodos d →
  nombre (obj (actualizar_nodo d id datos).2 k)
  = nombre (obj (match u_nombre datos with
                 | Some nom =>
                     actualizarHomologos (mutar id (con_nombre nom) d) id nom
                 | None => d
                 end) k) ∧
  homologos (obj (actualizar_nodo d id datos).2 k)
  = homologos (obj (match u_nombre datos with
                    | Some nom =>
                        actualizarHomologos (mutar id (con_nombre nom) d) id nom
                    | None => d
                    end) k).
Proof.
  intros Hid%registrado_true. unfold actualizar_nodo. rewrite Hid. cbn [negb snd].
  destruct (u_contenido datos), (u_gitURL datos); rewrite ?obj_mutar;
    repeat case_bool_decide; by subst.
Qed.

Lemma homologos_ok_actualizar_nodo d id datos :
  bien_formado d → homologos_ok d →
  homologos_ok (actualizar_nodo d id datos).2.
Proof.
  intros Hbf Hok.
  destruct (decide (id ∈ nodos d)) as [Hid|Hid].
  2:{ apply registrado_false in Hid. unfold actualizar_nodo. by rewrite Hid. }
  pose proof (actualizar_nodo_mismo_grafo d id datos) as Hmg.
  pose proof (actualizar_nodo_nombre_homologos d id datos) as Hnh.
  destruct (u_nombre datos) as [nom|].
  - apply (homologos_ok_encogidos
             (actualizarHomologos (mutar id (con_nombre nom) d) id nom)).
    + pose proof (actualizarHomologos_mismo_grafo
                    (mutar id (con_nombre nom) d) id nom) as Hmg2.
      apply homologos_encogidos_igual.
      * by rewrite (mg_nodos _ _ Hmg), (mg_nodos _ _ Hmg2).
      * by rewrite (mg_siguiente _ _ Hmg), (mg_siguiente _ _ Hmg2).
      * intros k. by destruct (Hnh k Hid).
      * intros k. by destruct (Hnh k Hid).
    + destruct Hok as [Hc Hp Hcr].
      apply homologos_ok_actualizarHomologos.
      * done.
      * by rewrite obj_mutar_eq.
      * apply (bf_fresco _ Hbf).
      * intros a b Ha Hb Hab Ha' Hb'. rewrite !obj_mutar_ne by done.
        by apply Hc.
      * intros a Ha. rewrite obj_mutar_ne by done. apply Hp.
      * intros a j Ha. rewrite obj_mutar_ne by done. apply Hcr.
  - apply (homologos_ok_encogidos d); [|done].
    apply homologos_encogidos_igual.
    + apply (mg_nodos _ _ Hmg).
    + apply (mg_siguiente _ _ Hmg).
    + intros k. by destruct (Hnh k Hid).
    + intros k. by destruct (Hnh k Hid).
Qed.

Lemma homologos_encogidos_enlazarNodos fuel d p c b d' :
  enlazarNodos fuel d p c = Some (b, d') → homologos_encogidos d d'.
Proof.
  intros [(_ & -> & _)|(_ & _ & Hpr)]%enlazarNodos_casos.
  - apply homologos_encogidos_refl.
  - apply _propagarRestricciones_propagado in Hpr as [Hmf _ _].
    apply homologos_encogidos_igual.
    + by rewrite (mf_nodos _ _ Hmf).
    + by rewrite (mf_siguiente _ _ Hmf).
    + intros k. by rewrite (mf_nombre_nodo _ _ _ Hmf), nombre_enlazado.
    + intros k. by rewrite (mf_homologos _ _ _ Hmf), homologos_enlazado.
Qed.

Lemma homologos_encogidos_eliminar_enlace d p c :
  homologos_encogidos d (eliminar_enlace d p c).2.
Proof.
  apply homologos_encogidos_igual.
  - apply nodos_eliminar_enlace.
  - apply siguiente_eliminar_enlace.
  - intros k. by destruct (estructura_resto_eliminar_enlace d p c k)
      as (_ & _ & ? & _).
  - intros k. by destruct (estructura_resto_eliminar_enlace d p c k)
      as (_ & _ & _ & ?).
Qed.

Lemma quitar_de_homologos_homologos id hs d k :
  nombre (obj (quitar_de_homologos id d hs) k) = nombre (obj d k) ∧
  homologos (obj (quitar_de_homologos id d hs) k) ⊆ homologos (obj d k) ∧
  homologos (obj d k) ∖ {[id]} ⊆ homologos (obj (quitar_de_homologos id d hs) k).
Proof.
  unfold quitar_de_homologos.
  revert d. induction hs as [|h hs IH]; intros d; cbn [foldl].
  { split; [done|]. split; [done|]. apply subseteq_difference_l. done. }
  destruct (IH (quitar_de_homologo id d h)) as (-> & Hsub & Hsup). clear IH.
  assert (nombre (obj (quitar_de_homologo id d h) k) = nombre (obj d k) ∧
          homologos (obj (quitar_de_homologo id d h) k) ⊆ homologos (obj d k) ∧
          homologos (obj d k) ∖ {[id]}
          ⊆ homologos (obj (quitar_de_homologo id d h) k)) as (Hn & H1 & H2).
  { unfold quitar_de_homologo. destruct (registrado d h).
    - rewrite obj_mutar. case_bool_decide; subst; simpl.
      + split; [done|]. split; [apply subseteq_difference_l|]; done.
      + split; [done|]. split; [done|]. by apply subseteq_difference_l.
    - split; [done|]. split; [done|]. by apply subseteq_difference_l. }
  split; [done|]. split.
  - by transitivity (homologos (obj (quitar_de_homologo id d h) k)).
  - transitivity (homologos (obj (quitar_de_homologo id d h) k) ∖ {[id]});
      [|done].
    intros j [Hj Hne]%elem_of_difference. apply elem_of_difference.
    split; [|done]. apply H2. by apply elem_of_difference.
Qed.

Lemma homologos_encogidos_desregistrar d id :
  homologos_encogidos d (desregistrar d id).
Proof.
  destruct (desregistrar_campos d id) as (Hn & Hs & _).
  assert (∀ k,
    nombre (obj (desregistrar d id) k) = nombre (obj d k) ∧
    homologos (obj (desregistrar d id) k) ⊆ homologos (obj d k) ∧
    homologos (obj d k) ∖ {[id]} ⊆ homologos (obj (desregistrar d id) k))
    as Hk.
  { intros k. unfold desregistrar.
    destruct (quitar_de_padres_campos id (padres (obj d id)) d k)
      as (_ & _ & _ & Hr).
    set (d2 := quitar_de_padres id d (padres (obj d id))) in *.
    destruct (quitar_de_homologos_homologos id
                (elements (homologos (obj d id))) (dict_borrar id d2) k)
      as (Hq1 & Hq2 & Hq3).
    change (obj (dict_borrar id d2) k) with (obj d2 k) in *.
    assert (nombre (obj d2 k) = nombre (obj d k)) as Hrn
      by apply (f_equal nombre Hr).
    assert (homologos (obj d2 k) = homologos (obj d k)) as Hrh
      by apply (f_equal homologos Hr).
    rewrite <- Hrn, <- Hrh. done. }
  split.
  - intros k ?%Hn. tauto.
  - lia.
  - intros k. by destruct (Hk k).
  - intros k j Hj. destruct (Hk k) as (_ & Hsub & _). by apply Hsub.
  - intros k j Hj Hin. destruct (Hk k) as (_ & _ & Hsup). apply Hsup.
    apply elem_of_difference. split; [done|].
    apply Hn in Hin as [_ Hne]. by intros ->%elem_of_singleton.
Qed.

Lemma homologos_encogidos_eliminarNodo fuel d id b d' :
  eliminarNodo fuel d id = Some (b, d') → homologos_encogidos d d'.
Proof.
  revert d id b d'. induction fuel as [|fuel IH]; intros d id b d'; [done|].
  rewrite eliminarNodo_S.
  destruct (registrado d id) eqn:Hreg; simpl.
  2:{ intros [= <- <-]. apply homologos_encogidos_refl. }
  destruct (para_cada _ d (hijos (obj d id))) as [d1|] eqn:Hloop; [|done].
  intros [= <- <-].
  eapply homologos_encogidos_trans; [|apply homologos_encogidos_desregistrar].
  revert Hloop. apply para_cada_inv; [apply homologos_encogidos_refl|].
  intros s x s' _ Hs Hx.
  destruct (eliminarNodo fuel s x) as [[b1 s1]|] eqn:Hx1; [|done].
  simpl in Hx. injection Hx as <-.
  apply IH in Hx1. by eapply homologos_encogidos_trans.
Qed.

Lemma paso_homologos_ok d op d' :
  bien_formado d → homologos_ok d → paso d op d' → homologos_ok d'.
Proof.
  intros Hbf Hok Hp. destruct op as [nom ip nh|id|p c|p c|id datos]; simpl in Hp.
  - subst d'. by apply homologos_ok_añadirNodo.
  - destruct Hp as (fuel & b & He).
    by eapply homologos_ok_encogidos; [eapply homologos_encogidos_eliminarNodo|].
  - destruct Hp as (fuel & b & He).
    by eapply homologos_ok_encogidos; [eapply homologos_encogidos_enlazarNodos|].
  - subst d'.
    by eapply homologos_ok_encogidos; [eapply homologos_encogidos_eliminar_enlace|].
  - subst d'. by apply homologos_ok_actualizar_nodo.
Qed.

(** X6.  In every reachable state, two distinct registered nodes with the
    same name list each other in [homologos]; no node lists itself; and
    every id in a homolog set is below the counter [_siguiente_id], that is,
    the id of a node that exists or existed. *)
Theorem X6_homologos_mismo_nombre (d : Diagrama) :
  alcanzable d →
  (∀ a b, a ∈ nodos d → b ∈ nodos d → a ≠ b →
          nombre (obj d a) = nombre (obj d b) →
          b ∈ homologos (obj d a) ∧ a ∈ homologos (obj d b)) ∧
  (∀ a, a ∉ homologos (obj d a)) ∧
  (∀ a j, j ∈ homologos (obj d a) → j < _siguiente_id d).
Proof.
  intros Halc.
  assert (homologos_ok d) as [Hc Hp Hcr].
  { induction Halc as [nom|d op d' Halc IH _ Hpaso].
    - apply homologos_ok_init.
    - eapply paso_homologos_ok; [|done..].
      by eapply alcanzable_con_bien_formado. }
  split; [|done]. intros a b Ha Hb Hab Hn. split; by apply Hc.
Qed.

Lemma X6_homologos_mismo_nombre_witness :
  3 ∈ homologos (obj ej_XX 2) ∧ 2 ∈ homologos (obj ej_XX 3).
Proof.
  refine (proj1 (X6_homologos_mismo_nombre ej_XX _) 2 3 _ _ _ _).
  - apply (alc_paso _ (añadirNodo ej_P "X" None None).2
                      (OpAñadir "X" None None)); [|done..].
    apply (alc_paso _ ej_P (OpAñadir "X" None None)); [|done..].
    apply alc_inicio.
  - apply (bool_decide_unpack _). vm_compute. exact I.
  - apply (bool_decide_unpack _). vm_compute. exact I.
  - done.
  - vm_compute. reflexivity.
Defined.

(** ** Constraint sets *)

Lemma vacias_mismo_grafo d e : mismo_grafo d e → vacias d → vacias e.
Proof.
  intros Hmg Hv k. rewrite (mg_propias _ _ _ Hmg), (mg_heredadas _ _ _ Hmg).
  apply Hv.
Qed.

Lemma vacias_añadido d nom ip nh : vacias d → vacias (añadido d nom ip nh).
Proof.
  intros Hv k. rewrite obj_añadido.
  destruct (padre_valido d ip) as [p|].
  - case_bool_decide.
    + split; [done|]. by apply vacias_restricciones.
    + case_bool_decide; apply Hv.
  - case_bool_decide; [|apply Hv]. split; [done|constructor].
Qed.

Lemma vacias_propagarRestricciones fuel d x d' :
  _propagarRestricciones fuel d x = Some d' → vacias d → vacias d'.
Proof.
  revert d x d'. induction fuel as [|fuel IH]; intros d x d'; [done|].
  simpl. destruct (registrado d x); simpl.
  2:{ by intros [= <-]. }
  intros Hloop Hv. revert Hloop. apply para_cada_inv; [done|].
  intros s h s' _ Hs Hs'. apply IH in Hs'; [done|].
  by apply vacias_mutar_combinar.
Qed.

Lemma vacias_enlazarNodos fuel d p c b d' :
  enlazarNodos fuel d p c = Some (b, d') → vacias d → vacias d'.
Proof.
  intros [(_ & -> & _)|(_ & _ & Hpr)]%enlazarNodos_casos Hv; [done|].
  eapply vacias_propagarRestricciones; [done|].
  intros k. rewrite propias_enlazado, heredadas_enlazado.
  split; [apply Hv|]. case_bool_decide; [|apply Hv].
  apply Forall_vacio_combinar; [by apply vacias_restricciones|apply Hv].
Qed.

Lemma paso_vacias d op d' : vacias d → paso d op d' → vacias d'.
Proof.
  intros Hv Hp. destruct op as [nom ip nh|id|p c|p c|id datos]; simpl in Hp.
  - subst d'. unfold añadirNodo; cbn [snd].
    eapply vacias_mismo_grafo; [apply actualizarHomologos_mismo_grafo|].
    by apply vacias_añadido.
  - destruct Hp as (fuel & b & He).
    destruct (eliminarNodo_encoge _ _ _ _ _ He) as (Hen & _).
    intros k. rewrite (en_propias _ _ Hen), (en_heredadas _ _ Hen). apply Hv.
  - destruct Hp as (fuel & b & He). by eapply vacias_enlazarNodos.
  - subst d'. intros k.
    destruct (estructura_resto_eliminar_enlace d p c k) as (-> & -> & _).
    apply Hv.
  - subst d'.
    eapply vacias_mismo_grafo; [apply actualizar_nodo_mismo_grafo|done].
Qed.

Lemma Forall_vacio_replicate (l : list (gset string)) :
  Forall (λ s, s = ∅) l → l = replicate (length l) ∅.
Proof. induction 1 as [|s l -> _ IH]; simpl; [done|]. by rewrite <- IH. Qed.

(** X7.  No operation of the program ever puts a token into a constraint
    set: in every reachable state, whatever operations led to it, the own
    constraints of every node are the empty set and each of its inherited
    layers is the empty set.  Only the number of layers varies. *)
Theorem X7_restricciones_siempre_vacias (d : Diagrama) (k : Z) :
  alcanzable d →
  restricciones_propias (obj d k) = ∅ ∧
  restricciones_heredadas (obj d k) = replicate (profundidad d k) ∅ ∧
  restricciones (obj d k) = replicate (S (profundidad d k)) ∅.
Proof.
  intros Halc.
  assert (vacias d) as Hv.
  { induction Halc as [nom|d op d' _ IH _ Hpaso].
    - apply (co_vacias _ (capas_ok_init nom)).
    - by eapply paso_vacias. }
  destruct (Hv k) as [Hp Hh]. split; [done|].
  apply Forall_vacio_replicate in Hh. fold (profundidad d k) in Hh.
  split; [done|].
  unfold restricciones. rewrite Hp, Hh at 1. by rewrite replicate_S_end.
Qed.

Lemma X7_restricciones_siempre_vacias_witness :
  restricciones_propias (obj ej_PAB_23 3) = ∅ ∧
  restricciones_heredadas (obj ej_PAB_23 3)
  = replicate (profundidad ej_PAB_23 3) ∅ ∧
  restricciones (obj ej_PAB_23 3) = replicate (S (profundidad ej_PAB_23 3)) ∅.
Proof.
  apply (X7_restricciones_siempre_vacias ej_PAB_23 3).
  apply (alc_paso _ ej_PAB (OpEnlazar 2 3)); [|done|].
  - apply alcanzable_ej_PAB. done.
  - exists 4%nat, true. apply ej_PAB_enlaza.
Defined.

(** Two layer lists of the same length with the same layers are equal. *)
Lemma lista_capas_eq (l1 l2 : list (gset string)) :
  length l1 = length l2 → (∀ i, capa l1 i = capa l2 i) → l1 = l2.
Proof.
  intros Hl Hc. apply list_eq. intros i. specialize (Hc i). unfold capa in Hc.
  destruct (l1 !! i) as [x|] eqn:H1, (l2 !! i) as [y|] eqn:H2; simpl in Hc.
  - by subst.
  - apply lookup_lt_Some in H1. apply lookup_ge_None in H2. lia.
  - apply lookup_lt_Some in H2. apply lookup_ge_None in H1. lia.
  - done.
Qed.

(** X8.  The merge of two layer lists used by [enlazarNodos] and
    [_propagarRestricciones] ([a | b] over [zip_longest] with the empty set
    as fill value) has as many layers as the longer list, its layer [i] is
    the union of the two layers [i] (a missing layer counting as empty), and
    it is commutative, associative and idempotent with the empty list as
    neutral element: the result of merging the stacks of several parents
    does not depend on the order of the merges. *)
Theorem X8_combinar_semirreticulo (a b c : list (gset string)) :
  length (combinar a b) = (length a `max` length b)%nat ∧
  (∀ i, capa (combinar a b) i = capa a i ∪ capa b i) ∧
  combinar a b = combinar b a ∧
  combinar (combinar a b) c = combinar a (combinar b c) ∧
  combinar a a = a ∧
  combinar [] a = a ∧ combinar a [] = a.
Proof.
  split; [apply length_combinar|]. split; [apply capa_combinar|].
  assert (∀ i, capa ([] : list (gset string)) i = ∅) as Hnil.
  { intros i. unfold capa. by rewrite lookup_nil. }
  repeat split; apply lista_capas_eq;
    rewrite ?length_combinar; simpl; try lia; intros i;
    rewrite ?capa_combinar, ?Hnil.
  - apply (comm_L (∪)).
  - by rewrite (assoc_L (∪)).
  - apply (idemp_L (∪)).
  - apply (left_id_L ∅ (∪)).
  - apply (right_id_L ∅ (∪)).
Qed.

(** ** Reading a node *)

(** X10.  In every reachable state [obtenerNodo(id)] is [None] exactly for
    the unregistered ids.  For a registered id the record returned carries
    that id, which is below the counter; its [hijos] and [padres] hold no
    id twice and do not hold [id] itself; and every id listed in them can be
    read in turn, the record read listing [id] on the opposite side: no
    record ever refers to a node that cannot be obtained. *)
Theorem X10_obtenerNodo_cerrado (d : Diagrama) (id : Z) :
  alcanzable d →
  (obtenerNodo d id = None ↔ id ∉ nodos d) ∧
  ∀ nd, obtenerNodo d id = Some nd →
    nd_id nd = id ∧ id < _siguiente_id d ∧
    NoDup (nd_hijos nd) ∧ NoDup (nd_padres nd) ∧
    (id ∉ nd_hijos nd) ∧ (id ∉ nd_padres nd) ∧
    (∀ h, h ∈ nd_hijos nd →
          ∃ hd, obtenerNodo d h = Some hd ∧ id ∈ nd_padres hd) ∧
    (∀ p, p ∈ nd_padres nd →
          ∃ pd, obtenerNodo d p = Some pd ∧ id ∈ nd_hijos pd).
Proof.
  intros Hbf%alcanzable_con_bien_formado. unfold obtenerNodo. split.
  - destruct (registrado d id) eqn:Hr; simpl.
    + apply registrado_true in Hr. split; [done|tauto].
    + apply registrado_false in Hr. tauto.
  - intros nd. destruct (registrado d id) eqn:Hr; simpl; [|done].
    apply registrado_true in Hr. intros [= <-]. simpl.
    assert (id ∉ hijos (obj d id)) as Hself.
    { intros Hin. apply (bf_aciclico _ Hbf id). by apply tc_once. }
    split; [done|]. split; [by apply (bf_fresco _ Hbf)|].
    split; [by apply (bf_nodup_hijos _ Hbf)|].
    split; [by apply (bf_nodup_padres _ Hbf)|].
    split; [done|]. split.
    { intros Hin. by apply Hself, (bf_consistente _ Hbf). }
    split.
    + intros h Hh. pose proof (bf_hijos_reg _ Hbf id h Hr Hh) as Hhr.
      exists (to_dict h (obj d h)). apply registrado_true in Hhr as Hhr'.
      rewrite Hhr'. split; [done|]. simpl. by apply (bf_consistente _ Hbf).
    + intros p Hp. pose proof (bf_padres_reg _ Hbf id p Hr Hp) as Hpr.
      exists (to_dict p (obj d p)). apply registrado_true in Hpr as Hpr'.
      rewrite Hpr'. split; [done|]. simpl. by apply (bf_consistente _ Hbf).
Qed.

Lemma X10_obtenerNodo_cerrado_witness :
  obtenerNodo ej_PAB 7 = None ↔ 7 ∉ nodos ej_PAB.
Proof.
  apply (X10_obtenerNodo_cerrado ej_PAB 7). apply alcanzable_ej_PAB. done.
Defined.

(** ** Unlinking *)

Lemma list_quitar_app_final x l : x ∉ l → list_quitar x (l ++ [x]) = l.
Proof.
  induction l as [|y l IH]; simpl; intros Hx.
  - by rewrite bool_decide_eq_true_2.
  - apply not_elem_of_cons in Hx as [Hxy Hx].
    rewrite bool_decide_eq_false_2 by done. by rewrite IH.
Qed.

(** X11.  In a reachable state, after [eliminar_enlace] on two registered
    ids the child is no longer among the parent's [hijos] nor the parent
    among the child's [padres]; every other entry of those two lists, every
    other list and the registry are as before.  If the edge existed, the
    pair can be linked again: none of the refusals of [enlazarNodos]
    applies to the state after the unlink. *)
Theorem X11_eliminar_enlace_quita_arista (d : Diagrama) (p c : Z) :
  alcanzable d → p ∈ nodos d → c ∈ nodos d →
  let d' := (eliminar_enlace d p c).2 in
  (c ∉ hijos (obj d' p)) ∧ (p ∉ padres (obj d' c)) ∧
  (∀ h, h ≠ c → h ∈ hijos (obj d' p) ↔ h ∈ hijos (obj d p)) ∧
  (∀ q, q ≠ p → q ∈ padres (obj d' c) ↔ q ∈ padres (obj d c)) ∧
  (∀ k, k ≠ p → hijos (obj d' k) = hijos (obj d k)) ∧
  (∀ k, k ≠ c → padres (obj d' k) = padres (obj d k)) ∧
  nodos d' = nodos d ∧
  (c ∈ hijos (obj d p) → enlazable d' p c).
Proof.
  intros Hbf%alcanzable_con_bien_formado Hp Hc. cbv zeta.
  pose proof (hijos_eliminar_enlace d p c) as Hh.
  pose proof (padres_eliminar_enlace d p c) as Hq.
  pose proof (bf_nodup_hijos _ Hbf p Hp) as Hnh.
  pose proof (bf_nodup_padres _ Hbf c Hc) as Hnp.
  assert (c ∉ hijos (obj (eliminar_enlace d p c).2 p)) as Hfuera.
  { rewrite Hh, bool_decide_eq_true_2 by done.
    rewrite elem_of_list_quitar by done. tauto. }
  split; [done|]. split.
  { rewrite Hq, bool_decide_eq_true_2 by done.
    rewrite elem_of_list_quitar by done. tauto. }
  split.
  { intros h Hne. rewrite Hh, bool_decide_eq_true_2 by done.
    rewrite elem_of_list_quitar by done. tauto. }
  split.
  { intros q Hne. rewrite Hq, bool_decide_eq_true_2 by done.
    rewrite elem_of_list_quitar by done. tauto. }
  split.
  { intros k Hne. by rewrite Hh, bool_decide_eq_false_2. }
  split.
  { intros k Hne. by rewrite Hq, bool_decide_eq_false_2. }
  split; [apply nodos_eliminar_enlace|].
  intros Hpc. unfold enlazable. rewrite nodos_eliminar_enlace.
  split; [done|]. split; [done|]. split; [done|].
  intros Hr. apply (bf_aciclico _ Hbf p).
  eapply tc_rtc_r; [by apply tc_once|].
  eapply rtc_sub; [|exact Hr].
  intros a b [Ha Hb]. rewrite nodos_eliminar_enlace in Ha.
  split; [done|]. rewrite Hh in Hb by done.
  case_bool_decide; [subst a|done].
  apply elem_of_list_quitar in Hb; [tauto|done].
Qed.

Lemma X11_eliminar_enlace_quita_arista_witness :
  2 ∉ hijos (obj (eliminar_enlace ej_PAB 1 2).2 1).
Proof.
  destruct (X11_eliminar_enlace_quita_arista ej_PAB 1 2) as [H1 _].
  - apply alcanzable_ej_PAB. done.
  - apply (bool_decide_unpack _). vm_compute. exact I.
  - apply (bool_decide_unpack _). vm_compute. exact I.
  - exact H1.
Defined.

(** X12.  Link, then unlink.  In a reachable state, when
    [enlazarNodos(p, c)] returns [True] and the same pair is then passed to
    [eliminar_enlace], the endpoint reports success and every [hijos] and
    [padres] list and the registry are exactly those before the link.  The
    inherited layers are not restored: they stay as the link and its
    propagation left them, so the child keeps at least one layer more than
    the parent has. *)
Theorem X12_enlazar_y_desenlazar (d : Diagrama) (p c : Z) (fuel : nat)
    (d1 : Diagrama) :
  alcanzable d → enlazarNodos fuel d p c = Some (true, d1) →
  let r := eliminar_enlace d1 p c in
  r.1 = Mensaje "Enlace eliminado" ∧
  nodos r.2 = nodos d ∧
  (∀ k, hijos (obj r.2 k) = hijos (obj d k) ∧
        padres (obj r.2 k) = padres (obj d k) ∧
        restricciones_heredadas (obj r.2 k)
        = restricciones_heredadas (obj d1 k)) ∧
  (profundidad d p + 1 ≤ profundidad r.2 c)%nat.
Proof.
  intros Hbf%alcanzable_con_bien_formado Hen. cbv zeta.
  apply enlazarNodos_casos in Hen as [(? & _)|(_ & Hsi & Hpr)]; [done|].
  pose proof (enlazable_ne _ _ _ Hsi) as Hpc.
  destruct Hsi as (Hp & Hc & Hnin & Hr).
  apply _propagarRestricciones_propagado in Hpr as [Hmf Hcrece _].
  assert (nodos d1 = nodos d) as Hn by by rewrite (mf_nodos _ _ Hmf).
  assert (p ∈ nodos d1 ∧ c ∈ nodos d1) as [Hp1 Hc1] by by rewrite Hn.
  assert (p ∉ padres (obj d c)) as Hnin2.
  { intros Hin. by apply Hnin, (bf_consistente _ Hbf). }
  split.
  { unfold eliminar_enlace.
    apply registrado_true in Hp1, Hc1. by rewrite Hp1, Hc1. }
  split; [by rewrite nodos_eliminar_enlace|].
  split.
  - intros k.
    rewrite hijos_eliminar_enlace, padres_eliminar_enlace by done.
    rewrite !(mf_hijos _ _ _ Hmf), !(mf_padres _ _ _ Hmf).
    rewrite !hijos_enlazado, !padres_enlazado.
    rewrite (bool_decide_eq_true_2 (p = p)), (bool_decide_eq_true_2 (c = c))
      by done.
    split; [|split].
    + case_bool_decide; [subst k; by apply list_quitar_app_final|done].
    + case_bool_decide; [subst k; by apply list_quitar_app_final|done].
    + by destruct (estructura_resto_eliminar_enlace d1 p c k) as (_ & -> & _).
  - unfold profundidad.
    destruct (estructura_resto_eliminar_enlace d1 p c c) as (_ & -> & _).
    destruct (Hcrece c) as [Hle _].
    rewrite heredadas_enlazado, bool_decide_eq_true_2 in Hle by done.
    rewrite length_combinar in Hle. unfold restricciones in Hle.
    rewrite length_app in Hle. simpl in Hle. lia.
Qed.

Lemma X12_enlazar_y_desenlazar_witness :
  nodos (eliminar_enlace ej_PAB_23 2 3).2 = nodos ej_PAB ∧
  (profundidad ej_PAB 2 + 1 ≤ profundidad (eliminar_enlace ej_PAB_23 2 3).2 3)%nat.
Proof.
  destruct (X12_enlazar_y_desenlazar ej_PAB 2 3 4 ej_PAB_23)
    as (_ & H2 & _ & H4).
  - apply alcanzable_ej_PAB. done.
  - apply ej_PAB_enlaza.
  - split; [exact H2|exact H4].
Defined.

(** ** What propagation achieves *)

(** An edge along which the child holds, layer by layer, at least the full
    stack of the parent. *)
Definition arista_cubierta (d : Diagrama) (a b : Z) : Prop :=
  capas_le (restricciones (obj d a)) (restricciones_heredadas (obj d b)).

Lemma restricciones_mutar_heredadas t h v k :
  k ≠ h →
  restricciones (obj (mutar h (con_heredadas v) t) k) = restricciones (obj t k).
Proof. intros Hk. by rewrite obj_mutar_ne. Qed.

(** One pass of [_propagarRestricciones] from [x] on an acyclic diagram
    covers every edge that leaves [x] and keeps covered every edge that
    was. *)
Lemma _propagarRestricciones_cubre fuel s x s' :
  _propagarRestricciones fuel s x = Some s' → aciclico s →
  ∀ a b, arista s a b → arista_cubierta s a b ∨ a = x → arista_cubierta s' a b.
Proof.
  revert s x s'. induction fuel as [|fuel IH]; intros s x s'; [done|].
  simpl. destruct (registrado s x) eqn:Hreg; simpl.
  2:{ intros [= <-] _ a b [Ha _] [?| ->]; [done|].
      apply registrado_false in Hreg. done. }
  apply registrado_true in Hreg. intros Hloop Hac.
  assert (∀ t h t',
            h ∈ hijos (obj s x) → misma_forma s t →
            _propagarRestricciones fuel
              (mutar h (con_heredadas
                          (combinar (restricciones (obj t x))
                                    (restricciones_heredadas (obj t h)))) t) h
            = Some t' →
            misma_forma s t' ∧
            restricciones (obj t' x) = restricciones (obj t x) ∧
            (∀ k, capas_le (restricciones_heredadas (obj t k))
                           (restricciones_heredadas (obj t' k))) ∧
            arista_cubierta t' x h ∧
            (∀ a b, arista s a b → arista_cubierta t a b → a ≠ x →
                    arista_cubierta t' a b)) as Hcuerpo.
  { intros t h t' Hh Hmf Hprop.
    set (v := combinar (restricciones (obj t x))
                       (restricciones_heredadas (obj t h))) in *.
    set (t1 := mutar h (con_heredadas v) t) in *.
    assert (misma_forma t t1) as Hmf1 by apply misma_forma_mutar.
    assert (misma_forma s t1) as Hmfs1 by (by eapply misma_forma_trans).
    assert (aciclico t1) as Hac1 by (by eapply mf_aciclico).
    assert (arista s x h) as Hxh by done.
    assert (x ≠ h) as Hne by (intros ->; by apply (Hac h), tc_once).
    assert (∀ k, capas_le (restricciones_heredadas (obj t k))
                          (restricciones_heredadas (obj t1 k))) as Hmono1.
    { intros k. unfold t1. rewrite obj_mutar.
      case_bool_decide; [subst k; apply capas_le_combinar_r|apply capas_le_refl]. }
    pose proof (_propagarRestricciones_propagado _ _ _ _ Hprop) as Hpr.
    pose proof (IH _ _ _ Hprop Hac1) as Had'.
    split; [eapply misma_forma_trans; [done|apply Hpr]|].
    split.
    { unfold restricciones.
      rewrite (mf_propias _ _ _ (pr_forma _ _ _ Hpr)), (pr_marco _ _ _ Hpr).
      - unfold t1. by rewrite obj_mutar_ne.
      - intros Htc. apply (Hac x). eapply tc_l; [done|]. by eapply mf_tc. }
    split.
    { intros k. eapply capas_le_trans; [apply Hmono1|apply (pr_crece _ _ _ Hpr)]. }
    split.
    - apply Had'; [by apply (mf_arista s t1)|]. left.
      unfold arista_cubierta, t1.
      rewrite restricciones_mutar_heredadas by done. rewrite obj_mutar_eq.
      apply capas_le_combinar_l.
    - intros a b Hab Hcub Hax. apply Had'; [by apply (mf_arista s t1)|].
      destruct (decide (a = h)) as [->|Hah]; [by right|]. left.
      unfold arista_cubierta, t1 in *.
      rewrite restricciones_mutar_heredadas by done.
      eapply capas_le_trans; [exact Hcub|apply Hmono1]. }
  apply (para_cada_inv2
           (λ t, misma_forma s t ∧
                 restricciones (obj t x) = restricciones (obj s x) ∧
                 ∀ a b, arista s a b → arista_cubierta s a b → a ≠ x →
                        arista_cubierta t a b)
           (λ h t, arista_cubierta t x h)) in Hloop.
  - destruct Hloop as [(Hmf & Hrx & Hed) Hq].
    intros a b Hab Hcaso.
    destruct (decide (a = x)) as [->|Hax]; [apply Hq, Hab|].
    destruct Hcaso as [?|?]; [by apply Hed|done].
  - split; [apply misma_forma_refl|]. done.
  - intros t h t' Hh (Hmf & Hrx & Hed) Hbody.
    destruct (Hcuerpo t h t' Hh Hmf Hbody) as (Hmf' & Hrx' & Hmono & Hcub & Hed').
    split; [|done]. split; [done|]. split; [congruence|].
    intros a b Hab Hd Hax. apply Hed'; [done| |done]. by apply Hed.
  - intros t y t' h Hy (Hmf & Hrx & Hed) Hbody Hq.
    destruct (Hcuerpo t y t' Hy Hmf Hbody) as (_ & Hrx' & Hmono & _).
    unfold arista_cubierta in *. rewrite Hrx'.
    eapply capas_le_trans; [exact Hq|apply Hmono].
Qed.

(** X9.  [_propagarRestricciones(x)] on an acyclic diagram, whatever the
    constraint sets hold, returns and: changes nothing but inherited layers,
    and those only of strict descendants of [x], where layers only grow;
    afterwards every child of [x] holds at least the full stack of [x],
    layer by layer, and every edge whose child already held at least the
    stack of its parent still does, also where the parent's stack has grown.
    On an unregistered id, or a node without children, nothing changes. *)
Theorem X9_propagar_cubre (d : Diagrama) (x : Z) (fuel : nat) :
  aciclico d → (length (nodos d) < fuel)%nat →
  ∃ d', _propagarRestricciones fuel d x = Some d' ∧
    nodos d' = nodos d ∧
    (∀ k, sin_capas (obj d' k) = sin_capas (obj d k)) ∧
    (∀ k, capas_le (restricciones_heredadas (obj d k))
                   (restricciones_heredadas (obj d' k))) ∧
    (∀ k, ¬ tc (arista d) x k →
          restricciones_heredadas (obj d' k)
          = restricciones_heredadas (obj d k)) ∧
    (∀ h, arista d x h → arista_cubierta d' x h) ∧
    (∀ a b, arista d a b → arista_cubierta d a b → arista_cubierta d' a b) ∧
    (x ∉ nodos d ∨ hijos (obj d x) = [] → d' = d).
Proof.
  intros Hac Hf.
  destruct (_propagarRestricciones_termina fuel d x Hac Hf) as [d' Hpr].
  exists d'. split; [done|].
  pose proof (_propagarRestricciones_propagado _ _ _ _ Hpr) as [Hmf Hc Hm].
  pose proof (_propagarRestricciones_cubre _ _ _ _ Hpr Hac) as Hcub.
  split; [apply (mf_nodos _ _ Hmf)|]. split; [apply (mf_obj _ _ Hmf)|].
  split; [done|]. split; [done|].
  split; [intros h Hh; apply Hcub; [done|by right]|].
  split; [intros a b Hab Hd; apply Hcub; [done|by left]|].
  destruct fuel as [|fuel]; [lia|]. simpl in Hpr.
  intros [Hx|Hx].
  - apply registrado_false in Hx. rewrite Hx in Hpr. simpl in Hpr. congruence.
  - rewrite Hx in Hpr. destruct (registrado d x); simpl in Hpr; congruence.
Qed.

Lemma X9_propagar_cubre_witness :
  ∃ d', _propagarRestricciones 4 ej_PAB 1 = Some d' ∧ nodos d' = nodos ej_PAB.
Proof.
  destruct (X9_propagar_cubre ej_PAB 1 4) as (d' & H1 & H2 & _).
  - apply (bf_aciclico ej_PAB).
    apply (alcanzable_con_bien_formado (λ _, True)), alcanzable_ej_PAB. done.
  - vm_compute. lia.
  - exists d'. split; [exact H1|exact H2].
Defined.

(** ** The node and link endpoints of [server.py] *)

(** [NodoCreate] *)
Record NodoCreate := Mk_NodoCreate {
  c_nombre : string;
  c_id_padre : option Z;
  c_num_hijo : option Z
}.

(** Outcome of [crear_nodo]: the body [{"id": ..., "message": ...}] or the
    exception raised. *)
Inductive RespuestaNodo :=
| NodoCreado (id : Z) (message : string)
| NodoError (status_code : Z) (detail : string).

(** [crear_nodo], for the diagram [diag] already looked up. *)
Definition crear_nodo (d : Diagrama) (nodo : NodoCreate)
    : RespuestaNodo * Diagrama :=
  if match c_id_padre nodo with
     | Some p => negb (registrado d p)
     | None => false
     end
  then (NodoError 404 "Nodo padre no encontrado", d)
  else
    let '(nuevo_id, d) :=
      añadirNodo d (c_nombre nodo) (c_id_padre nodo) (c_num_hijo nodo) in
    (NodoCreado nuevo_id "Nodo creado", d).

(** [eliminar_nodo], for the diagram [diag] already looked up. *)
Definition eliminar_nodo (fuel : nat) (d : Diagrama) (nodo_id : Z)
    : option (Respuesta * Diagrama) :=
  match eliminarNodo fuel d nodo_id with
  | None => None
  | Some (b, d) =>
      if negb b then Some (HTTPException 404 "Nodo no encontrado", d)
      else Some (Mensaje "Nodo eliminado", d)
  end.

(** [EnlaceCreate] *)
Record EnlaceCreate := Mk_EnlaceCreate {
  e_id_padre : Z;
  e_id_hijo : Z
}.

(** [crear_enlace], for the diagram [diag] already looked up. *)
Definition crear_enlace (fuel : nat) (d : Diagrama) (enlace : EnlaceCreate)
    : option (Respuesta * Diagrama) :=
  match enlazarNodos fuel d (e_id_padre enlace) (e_id_hijo enlace) with
  | None => None
  | Some (b, d) =>
      if negb b then Some (HTTPException 400 "No se pudo crear el enlace", d)
      else Some (Mensaje "Enlace creado", d)
  end.

(** X13.  In a reachable state [crear_nodo] raises 404 exactly when a parent
    id is given and is not registered, and then the diagram is untouched.
    Otherwise it answers with the id taken from the counter, and the state
    is the one [añadirNodo] produces.  When a parent id was given, the new
    node has exactly that parent and is among its children: through the
    endpoint, the branch of [añadirNodo] that silently creates a parentless
    node for an unknown parent is never taken. *)
Theorem X13_crear_nodo (d : Diagrama) (nodo : NodoCreate) :
  alcanzable d →
  let r := crear_nodo d nodo in
  ((∃ p, c_id_padre nodo = Some p ∧ p ∉ nodos d) →
   r = (NodoError 404 "Nodo padre no encontrado", d)) ∧
  (¬ (∃ p, c_id_padre nodo = Some p ∧ p ∉ nodos d) →
   r.1 = NodoCreado (_siguiente_id d) "Nodo creado" ∧
   r.2 = (añadirNodo d (c_nombre nodo) (c_id_padre nodo) (c_num_hijo nodo)).2 ∧
   nodos r.2 = nodos d ++ [_siguiente_id d] ∧
   nombre (obj r.2 (_siguiente_id d)) = c_nombre nodo ∧
   (∀ p, c_id_padre nodo = Some p →
         padres (obj r.2 (_siguiente_id d)) = [p] ∧
         _siguiente_id d ∈ hijos (obj r.2 p)) ∧
   (c_id_padre nodo = None → padres (obj r.2 (_siguiente_id d)) = [])).
Proof.
  intros Hbf%alcanzable_con_bien_formado. cbv zeta. unfold crear_nodo. split.
  - intros (p & -> & Hp%registrado_false). by rewrite Hp.
  - intros Hno.
    assert (match c_id_padre nodo with
            | Some p => negb (registrado d p)
            | None => false
            end = false) as ->.
    { destruct (c_id_padre nodo) as [p|]; [|done].
      destruct (registrado d p) eqn:Hr; [done|].
      destruct Hno. exists p. by apply registrado_false in Hr. }
    destruct (añadirNodo_efecto d (c_nombre nodo) (c_id_padre nodo)
                (c_num_hijo nodo) Hbf)
      as (H1 & _ & H3 & _ & H5 & _ & H7 & H8 & _).
    destruct (añadirNodo d (c_nombre nodo) (c_id_padre nodo) (c_num_hijo nodo))
      as [nid d'] eqn:Ha.
    simpl in *. subst nid.
    split; [done|]. split; [done|]. split; [done|]. split; [done|]. split.
    + intros p Hp. destruct (H7 p Hp) as (? & ? & _); [|done].
      destruct (decide (p ∈ nodos d)) as [?|Hn]; [done|].
      destruct Hno. by exists p.
    + intros Hnone. destruct H8 as (? & _); [by left|done].
Qed.

Lemma X13_crear_nodo_witness :
  crear_nodo ej_PAB (Mk_NodoCreate "C" (Some 9) None)
  = (NodoError 404 "Nodo padre no encontrado", ej_PAB).
Proof.
  apply (X13_crear_nodo ej_PAB (Mk_NodoCreate "C" (Some 9) None)).
  - apply alcanzable_ej_PAB. done.
  - exists 9. split; [reflexivity|].
    apply (bool_decide_unpack _). vm_compute. exact I.
Defined.

(** X14.  The deleting and linking endpoints, on any diagram state.  When
    [eliminar_nodo] returns, it raises 404 exactly when the id is not
    registered; when [crear_enlace] returns, it raises 400 exactly when the
    pair cannot be linked (an id unregistered, the edge present, or the
    parent reachable from the child); [actualizar_nodo] raises 404 exactly
    when the id is not registered.  An endpoint that raises has left the
    diagram as it was.  In a reachable state the first two do return. *)
Theorem X14_endpoints_fallo_sin_efecto (d : Diagrama) (fuel : nat) :
  (∀ id r d', eliminar_nodo fuel d id = Some (r, d') →
     (r = HTTPException 404 "Nodo no encontrado" ∨ r = Mensaje "Nodo eliminado") ∧
     (es_fallo r = true ↔ id ∉ nodos d) ∧ (es_fallo r = true → d' = d)) ∧
  (∀ e r d', crear_enlace fuel d e = Some (r, d') →
     (r = HTTPException 400 "No se pudo crear el enlace"
      ∨ r = Mensaje "Enlace creado") ∧
     (es_fallo r = true ↔ ¬ enlazable d (e_id_padre e) (e_id_hijo e)) ∧
     (es_fallo r = true → d' = d)) ∧
  (∀ id datos,
     (es_fallo (actualizar_nodo d id datos).1 = true ↔ id ∉ nodos d) ∧
     (es_fallo (actualizar_nodo d id datos).1 = true →
      (actualizar_nodo d id datos).2 = d)) ∧
  (alcanzable d → (length (nodos d) < fuel)%nat →
   ∀ id e, is_Some (eliminar_nodo fuel d id) ∧ is_Some (crear_enlace fuel d e)).
Proof.
  split; [|split; [|split]].
  - intros id r d'. unfold eliminar_nodo.
    destruct (eliminarNodo fuel d id) as [[b d1]|] eqn:He; [|done].
    destruct (eliminarNodo_encoge _ _ _ _ _ He) as (_ & _ & Hb & Hfalse).
    destruct b; simpl; intros [= <- <-]; simpl.
    + split; [by right|]. split; [|done]. split; [done|].
      intros Hid. destruct Hid. by apply Hb.
    + split; [by left|]. split; [|auto]. split; [|done].
      intros _ Hid. by apply Hb in Hid.
  - intros e r d'. unfold crear_enlace.
    destruct (enlazarNodos fuel d (e_id_padre e) (e_id_hijo e))
      as [[b d1]|] eqn:He; [|done].
    apply enlazarNodos_casos in He as [(-> & -> & Hno)|(-> & Hsi & _)];
      simpl; intros [= <- <-]; simpl.
    + split; [by left|]. done.
    + split; [by right|]. split; [|done]. split; [done|]. by intros [].
  - intros id datos. unfold actualizar_nodo.
    destruct (registrado d id) eqn:Hr; simpl.
    + apply registrado_true in Hr. split; [|done]. split; [done|]. by intros [].
    + apply registrado_false in Hr. done.
  - intros Hbf%alcanzable_con_bien_formado Hf id e.
    unfold eliminar_nodo, crear_enlace.
    destruct (eliminarNodo_termina fuel d id (bf_aciclico _ Hbf) Hf)
      as [[b1 d1] ->].
    destruct (enlazarNodos_termina fuel d (e_id_padre e) (e_id_hijo e)
                (bf_aciclico _ Hbf) Hf) as [[b2 d2] ->].
    split; [by destruct b1|by destruct b2].
Qed.

Lemma X14_endpoints_fallo_sin_efecto_witness :
  is_Some (eliminar_nodo 4 ej_PAB 3) ∧
  is_Some (crear_enlace 4 ej_PAB (Mk_EnlaceCreate 2 3)).
Proof.
  refine (proj2 (proj2 (proj2 (X14_endpoints_fallo_sin_efecto ej_PAB 4)))
            _ _ 3 (Mk_EnlaceCreate 2 3)).
  - apply alcanzable_ej_PAB. done.
  - vm_compute. lia.
Defined.

(** ** The diagram's name and root id *)

(** The two attributes of [Diagrama] set by [__init__] and
    [_crear_nodo_raiz] only. *)
Definition cabecera (d : Diagrama) : string * option Z :=
  (d_nombre d, nodo_raiz_id d).

Lemma cabecera_paso_homologos id nom l homs d homs' d' :
  foldl (paso_homologos id nom) (homs, d) l = (homs', d') →
  cabecera d' = cabecera d.
Proof.
  revert homs d. induction l as [|x l IH]; intros homs d; cbn [foldl].
  - by intros [= _ <-].
  - unfold paso_homologos at 2.
    destruct (bool_decide (nombre (obj d x) = nom) && bool_decide (x ≠ id));
      intros Hf; by apply IH in Hf.
Qed.

Lemma cabecera_actualizarHomologos d id nom :
  cabecera (actualizarHomologos d id nom) = cabecera d.
Proof.
  unfold actualizarHomologos. destruct (registrado d id); simpl; [|done].
  destruct (foldl (paso_homologos id nom) (∅, d) (nodos d)) as [homs d1] eqn:Hf.
  by apply cabecera_paso_homologos in Hf.
Qed.

Lemma cabecera_añadirNodo d nom ip nh :
  cabecera (añadirNodo d nom ip nh).2 = cabecera d.
Proof.
  unfold añadirNodo; cbn [snd]. rewrite cabecera_actualizarHomologos.
  unfold añadido, registrado. destruct ip as [p|]; [|done].
  simpl. by case_bool_decide.
Qed.

Lemma cabecera_actualizar_nodo d id datos :
  cabecera (actualizar_nodo d id datos).2 = cabecera d.
Proof.
  unfold actualizar_nodo. destruct (registrado d id); simpl; [|done].
  destruct (u_contenido datos), (u_gitURL datos), (u_nombre datos);
    unfold cabecera; simpl;
    try apply (cabecera_actualizarHomologos (mutar id (con_nombre _) d));
    done.
Qed.

Lemma cabecera_eliminar_enlace d p c :
  cabecera (eliminar_enlace d p c).2 = cabecera d.
Proof.
  unfold eliminar_enlace.
  destruct (negb (registrado d p) || negb (registrado d c)); simpl; [done|].
  by repeat case_bool_decide.
Qed.

Lemma cabecera_enlazarNodos fuel d p c b d' :
  enlazarNodos fuel d p c = Some (b, d') → cabecera d' = cabecera d.
Proof.
  intros [(_ & -> & _)|(_ & _ & Hpr)]%enlazarNodos_casos; [done|].
  apply _propagarRestricciones_propagado in Hpr as [Hmf _ _].
  unfold cabecera. by rewrite (mf_nombre _ _ Hmf), (mf_raiz _ _ Hmf).
Qed.

Lemma cabecera_desregistrar d id : cabecera (desregistrar d id) = cabecera d.
Proof.
  unfold desregistrar.
  assert (∀ hs e, cabecera (quitar_de_homologos id e hs) = cabecera e) as H1.
  { unfold quitar_de_homologos.
    induction hs as [|h hs IH]; intros e; cbn [foldl]; [done|].
    rewrite IH. unfold quitar_de_homologo. by destruct (registrado e h). }
  assert (∀ ps e, cabecera (quitar_de_padres id e ps) = cabecera e) as H2.
  { unfold quitar_de_padres.
    induction ps as [|q ps IH]; intros e; cbn [foldl]; [done|].
    rewrite IH. unfold quitar_de_padre. by destruct (registrado e q). }
  rewrite H1. unfold cabecera at 1. simpl. apply H2.
Qed.

Lemma cabecera_eliminarNodo fuel d id b d' :
  eliminarNodo fuel d id = Some (b, d') → cabecera d' = cabecera d.
Proof.
  revert d id b d'. induction fuel as [|fuel IH]; intros d id b d'; [done|].
  rewrite eliminarNodo_S.
  destruct (registrado d id); simpl.
  2:{ by intros [= <- <-]. }
  destruct (para_cada _ d (hijos (obj d id))) as [d1|] eqn:Hloop; [|done].
  intros [= <- <-]. rewrite cabecera_desregistrar.
  revert Hloop. apply (para_cada_inv (λ s, cabecera s = cabecera d)); [done|].
  intros s x s' _ Hs Hx.
  destruct (eliminarNodo fuel s x) as [[b1 s1]|] eqn:Hx1; [|done].
  simpl in Hx. injection Hx as <-.
  apply IH in Hx1. congruence.
Qed.

Lemma paso_cabecera d op d' : paso d op d' → cabecera d' = cabecera d.
Proof.
  intros Hp. destruct op as [nom ip nh|id|p c|p c|id datos]; simpl in Hp.
  - subst d'. apply cabecera_añadirNodo.
  - destruct Hp as (fuel & b & He). by eapply cabecera_eliminarNodo.
  - destruct Hp as (fuel & b & He). by eapply cabecera_enlazarNodos.
  - subst d'. apply cabecera_eliminar_enlace.
  - subst d'. apply cabecera_actualizar_nodo.
Qed.

(** X15.  No operation assigns [nombre] or [nodo_raiz_id] of a diagram after
    its construction.  In every reachable state [nodo_raiz_id] is 1, the
    counter is at least 2 and every registered id is at least 1; no
    operation changes the diagram's name or root id.  In particular, when
    node 1 is registered, [eliminarNodo(1)] succeeds and leaves a reachable
    state whose [nodo_raiz_id] is still 1 although [obtenerNodo(1)] is
    [None]. *)
Theorem X15_raiz_constante (d : Diagrama) :
  alcanzable d →
  nodo_raiz_id d = Some 1 ∧ 2 ≤ _siguiente_id d ∧
  (∀ k, k ∈ nodos d → 1 ≤ k) ∧
  (∀ op d', paso d op d' →
     d_nombre d' = d_nombre d ∧ nodo_raiz_id d' = nodo_raiz_id d) ∧
  (∀ fuel, 1 ∈ nodos d → (length (nodos d) < fuel)%nat →
     ∃ d', eliminarNodo fuel d 1 = Some (true, d') ∧ alcanzable d' ∧
           nodo_raiz_id d' = Some 1 ∧ obtenerNodo d' 1 = None).
Proof.
  intros Halc.
  assert (nodo_raiz_id d = Some 1 ∧ 2 ≤ _siguiente_id d ∧
          ∀ k, k ∈ nodos d → 1 ≤ k) as (Hr & Hs & Hk).
  { induction Halc as [nom|d op d' Halc (IHr & IHs & IHk) _ Hpaso].
    - split; [done|]. split; [done|].
      intros k ->%list_elem_of_singleton. done.
    - pose proof (alcanzable_con_bien_formado _ _ Halc) as Hbf.
      destruct (paso_registro _ _ _ Hbf Hpaso) as [Hle Hreg].
      pose proof (paso_cabecera _ _ _ Hpaso) as [= _ ->].
      split; [done|]. split; [lia|].
      intros k [Hk| ->]%Hreg; [by apply IHk|lia]. }
  split; [done|]. split; [done|]. split; [done|]. split.
  - intros op d' Hpaso. by pose proof (paso_cabecera _ _ _ Hpaso) as [= -> ->].
  - intros fuel H1 Hf.
    pose proof (alcanzable_con_bien_formado _ _ Halc) as Hbf.
    destruct (eliminarNodo_termina fuel d 1 (bf_aciclico _ Hbf) Hf)
      as [[b d'] He].
    destruct (eliminarNodo_encoge _ _ _ _ _ He) as (_ & Hid & Hb & _).
    assert (b = true) as -> by by apply Hb.
    exists d'. split; [done|]. split.
    { apply (alc_paso _ d (OpEliminar 1)); [done..|]. by exists fuel, true. }
    split.
    + pose proof (cabecera_eliminarNodo _ _ _ _ _ He) as [= _ ->]. done.
    + unfold obtenerNodo. apply registrado_false in Hid. by rewrite Hid.
Qed.

Lemma X15_raiz_constante_witness :
  nodo_raiz_id ej_PAB = Some 1 ∧ 2 ≤ _siguiente_id ej_PAB.
Proof.
  destruct (X15_raiz_constante ej_PAB) as (H1 & H2 & _).
  - apply alcanzable_ej_PAB. done.
  - split; [exact H1|exact H2].
Defined.

(** ** Order of the registry *)

Lemma nodos_desregistrar d id :
  nodos (desregistrar d id) = filter (λ j, j ≠ id) (nodos d).
Proof.
  unfold desregistrar.
  rewrite (mg_nodos _ _ (quitar_de_homologos_mismo_grafo _ _ _)).
  unfold dict_borrar; simpl.
  by destruct (quitar_de_padres_campos id (padres (obj d id)) d 0) as (-> & _).
Qed.

Lemma StronglySorted_filter_lt (P : Z → Prop) `{!∀ x, Decision (P x)} l :
  StronglySorted Z.lt l → StronglySorted Z.lt (filter P l).
Proof.
  induction 1 as [|x l _ IH Hx]; [constructor|].
  destruct (decide (P x)).
  - rewrite filter_cons_True by done. constructor; [done|].
    apply Forall_forall. intros y [_ Hy]%list_elem_of_filter.
    by apply (proj1 (Forall_forall _ _) Hx).
  - by rewrite filter_cons_False.
Qed.

Lemma StronglySorted_lt_NoDup l : StronglySorted Z.lt l → NoDup l.
Proof.
  induction 1 as [|x l _ IH Hx]; constructor; [|done].
  intros Hin. pose proof (proj1 (Forall_forall _ _) Hx x Hin). lia.
Qed.

Lemma ordenado_eliminarNodo fuel d id b d' :
  eliminarNodo fuel d id = Some (b, d') →
  StronglySorted Z.lt (nodos d) → StronglySorted Z.lt (nodos d').
Proof.
  revert d id b d'. induction fuel as [|fuel IH]; intros d id b d'; [done|].
  rewrite eliminarNodo_S.
  destruct (registrado d id); simpl.
  2:{ by intros [= <- <-]. }
  destruct (para_cada _ d (hijos (obj d id))) as [d1|] eqn:Hloop; [|done].
  intros [= <- <-] Hs. rewrite nodos_desregistrar.
  apply StronglySorted_filter_lt.
  revert Hloop. apply (para_cada_inv (λ s, StronglySorted Z.lt (nodos s)));
    [done|].
  intros s x s' _ Hss Hx.
  destruct (eliminarNodo fuel s x) as [[b1 s1]|] eqn:Hx1; [|done].
  simpl in Hx. injection Hx as <-. by eapply IH.
Qed.

Lemma paso_ordenado d op d' :
  bien_formado d → paso d op d' →
  StronglySorted Z.lt (nodos d) → StronglySorted Z.lt (nodos d').
Proof.
  intros Hbf Hp Hs. destruct op as [nom ip nh|id|p c|p c|id datos]; simpl in Hp.
  - subst d'. unfold añadirNodo; cbn [snd].
    rewrite (mg_nodos _ _ (actualizarHomologos_mismo_grafo _ _ _)).
    rewrite nodos_añadido by by apply bien_formado_fresco.
    apply StronglySorted_app_2; [|done|repeat constructor].
    intros x1 x2 H1 ->%list_elem_of_singleton. by apply (bf_fresco _ Hbf).
  - destruct Hp as (fuel & b & He). by eapply ordenado_eliminarNodo.
  - destruct Hp as (fuel & b & He).
    apply enlazarNodos_casos in He as [(_ & -> & _)|(_ & _ & Hpr)]; [done|].
    apply _propagarRestricciones_propagado in Hpr as [Hmf _ _].
    by rewrite (mf_nodos _ _ Hmf), nodos_enlazado.
  - subst d'. by rewrite nodos_eliminar_enlace.
  - subst d'. by rewrite (mg_nodos _ _ (actualizar_nodo_mismo_grafo d id datos)).
Qed.

(** X16.  In every reachable state the dictionary [self.nodos] lists its
    keys in strictly increasing order, the order in which the nodes were
    created: deletions take keys out, and a key is only ever appended, being
    larger than all present.  In particular no key occurs twice, and
    [eliminarNodo] leaves the surviving keys in their order. *)
Theorem X16_registro_ordenado (d : Diagrama) :
  alcanzable d →
  StronglySorted Z.lt (nodos d) ∧ NoDup (nodos d) ∧
  ∀ fuel id b d', eliminarNodo fuel d id = Some (b, d') →
    nodos d' = filter (λ k, k ∈ nodos d') (nodos d).
Proof.
  intros Halc.
  assert (StronglySorted Z.lt (nodos d)) as Hs.
  { induction Halc as [nom|d op d' Halc IH _ Hpaso].
    - repeat constructor.
    - eapply paso_ordenado; [|done..]. by eapply alcanzable_con_bien_formado. }
  split; [done|]. split; [by apply StronglySorted_lt_NoDup|].
  intros fuel id b d' He.
  pose proof (ordenado_eliminarNodo _ _ _ _ _ He Hs) as Hs'.
  destruct (eliminarNodo_encoge _ _ _ _ _ He) as (Hen & _).
  apply (StronglySorted_unique_strong Z.lt).
  - intros x1 x2 _ _ ? ?. lia.
  - done.
  - by apply StronglySorted_filter_lt.
  - apply NoDup_Permutation.
    + by apply StronglySorted_lt_NoDup.
    + by apply NoDup_filter, StronglySorted_lt_NoDup.
    + intros k. rewrite list_elem_of_filter.
      split; [|tauto]. intros Hk. split; [done|]. by apply (en_nodos _ _ Hen).
Qed.

Lemma X16_registro_ordenado_witness :
  StronglySorted Z.lt (nodos ej_PAB) ∧ NoDup (nodos ej_PAB).
Proof.
  destruct (X16_registro_ordenado ej_PAB) as (H1 & H2 & _).
  - apply alcanzable_ej_PAB. done.
  - split; [exact H1|exact H2].
Defined.

(** ** Users and the server object of [server.py] *)

(** class [Usuario]; [Usuario_init] is its [__init__]. *)
Record Usuario := Mk_Usuario {
  us_nombre : string;
  us_contraseña : string;
  us_rol : Z;
  us_diagramas : gmap Z Diagrama;
  us_diagrama_actual : option Z
}.

Definition Usuario_init (nom contraseña : string) : Usuario :=
  Mk_Usuario nom contraseña 0 ∅ None.

(** class [ServidorNodos].  [inicio] opens [data.pkl] and reads nothing
    from it, whether or not the file exists, so a new server holds two empty
    dictionaries. *)
Record ServidorNodos := Mk_ServidorNodos {
  usuarios : gmap string Usuario;
  sv_diagramas : gmap string Diagrama
}.

Definition ServidorNodos_init : ServidorNodos := Mk_ServidorNodos ∅ ∅.

(** A value returned, or an [HTTPException] raised. *)
Inductive Resultado (A : Type) :=
| Devuelve (a : A)
| Lanza (status_code : Z) (detail : string).
Arguments Devuelve {A} a.
Arguments Lanza {A} status_code detail.

Definition obtener_usuario (s : ServidorNodos) (nom : string)
    : Resultado Usuario :=
  match usuarios s !! nom with
  | None => Lanza 404 ("Usuario '" +:+ nom +:+ "' no encontrado")
  | Some usuario => Devuelve usuario
  end.

Definition crear_usuario (s : ServidorNodos) (nom contraseña : string)
    : Resultado Usuario * ServidorNodos :=
  match usuarios s !! nom with
  | Some _ => (Lanza 400 ("Usuario '" +:+ nom +:+ "' ya existe"), s)
  | None =>
      let usuario := Usuario_init nom contraseña in
      (Devuelve usuario,
       Mk_ServidorNodos (<[nom := usuario]> (usuarios s)) (sv_diagramas s))
  end.

Definition crearDiagramas (s : ServidorNodos) (usuario : Usuario)
    (nombre_diagrama : string) : Resultado Diagrama * ServidorNodos :=
  if bool_decide (us_rol usuario ≠ 2)
  then (Lanza 404 ("Usuario '" +:+ us_nombre usuario
                   +:+ "' no tiene permitida esta acción."), s)
  else
    let diagrama := Diagrama_init nombre_diagrama in
    (Devuelve diagrama,
     Mk_ServidorNodos (usuarios s)
                      (<[nombre_diagrama := diagrama]> (sv_diagramas s))).

(** The two methods that change a server, [crearDiagramas] with whatever
    [Usuario] object it is handed. *)
Inductive OpServidor :=
| OpCrearUsuario (nom contraseña : string)
| OpCrearDiagramas (usuario : Usuario) (nombre_diagrama : string).

Definition paso_servidor (s : ServidorNodos) (op : OpServidor)
    : ServidorNodos :=
  match op with
  | OpCrearUsuario nom contraseña => (crear_usuario s nom contraseña).2
  | OpCrearDiagramas usuario nombre_diagrama =>
      (crearDiagramas s usuario nombre_diagrama).2
  end.

Inductive servidor_alcanzable : ServidorNodos → Prop :=
| sa_inicio : servidor_alcanzable ServidorNodos_init
| sa_paso s op :
    servidor_alcanzable s → servidor_alcanzable (paso_servidor s op).

(** X17.  [crear_usuario] raises 400 exactly when the name is already a key
    of [usuarios], and then the server is untouched.  Otherwise it returns a
    user with the given name and password, role 0, no diagrams and no
    current diagram; afterwards [obtener_usuario] returns that user for the
    name, answers for every other name as before, and the server's diagrams
    are untouched.  [obtener_usuario] raises 404 exactly for the names that
    are no key. *)
Theorem X17_crear_y_obtener_usuario (s : ServidorNodos)
    (nom contraseña : string) :
  let r := crear_usuario s nom contraseña in
  (is_Some (usuarios s !! nom) →
   r = (Lanza 400 ("Usuario '" +:+ nom +:+ "' ya existe"), s)) ∧
  (usuarios s !! nom = None →
   r.1 = Devuelve (Mk_Usuario nom contraseña 0 ∅ None) ∧
   obtener_usuario r.2 nom = r.1 ∧
   (∀ m, m ≠ nom → obtener_usuario r.2 m = obtener_usuario s m) ∧
   sv_diagramas r.2 = sv_diagramas s) ∧
  (∀ m, obtener_usuario s m
        = Lanza 404 ("Usuario '" +:+ m +:+ "' no encontrado")
        ↔ usuarios s !! m = None).
Proof.
  cbv zeta. unfold crear_usuario, obtener_usuario. split; [|split].
  - intros [u ->]. done.
  - intros ->. simpl. split; [done|]. split.
    + by rewrite lookup_insert_eq.
    + split; [|done]. intros m Hm. by rewrite lookup_insert_ne.
  - intros m. destruct (usuarios s !! m); split; done.
Qed.

Lemma X17_crear_y_obtener_usuario_witness :
  obtener_usuario (crear_usuario ServidorNodos_init "ana" "x").2 "ana"
  = (crear_usuario ServidorNodos_init "ana" "x").1.
Proof.
  apply (X17_crear_y_obtener_usuario ServidorNodos_init "ana" "x").
  reflexivity.
Defined.

(** What every server state built by the two methods satisfies. *)
Lemma servidor_alcanzable_usuarios s :
  servidor_alcanzable s →
  ∀ nom u, usuarios s !! nom = Some u →
           us_nombre u = nom ∧ us_rol u = 0 ∧
           us_diagramas u = ∅ ∧ us_diagrama_actual u = None.
Proof.
  induction 1 as [|s op _ IH]; intros nom u.
  - simpl. by rewrite lookup_empty.
  - destruct op as [n c|usuario nd]; simpl.
    + unfold crear_usuario. destruct (usuarios s !! n) eqn:Hn; simpl.
      * apply IH.
      * destruct (decide (nom = n)) as [->|Hne].
        -- rewrite lookup_insert_eq. by intros [= <-].
        -- rewrite lookup_insert_ne by done. apply IH.
    + unfold crearDiagramas. case_bool_decide; simpl; apply IH.
Qed.

(** X18.  No method assigns [rol], which [Usuario.__init__] sets to 0.  In
    every server state built by [crear_usuario] and [crearDiagramas], every
    user [obtener_usuario] returns is stored under its own name, has role 0
    and no diagrams, and [crearDiagramas] refuses it with 404, leaving the
    server as it was.  For a [Usuario] whose role is 2, [crearDiagramas]
    stores under the given name a new diagram holding only its root node,
    replacing whatever diagram was stored under that name. *)
Theorem X18_roles_y_diagramas (s : ServidorNodos) :
  (servidor_alcanzable s →
   ∀ nom u nombre_diagrama, obtener_usuario s nom = Devuelve u →
     us_nombre u = nom ∧ us_rol u = 0 ∧ us_diagramas u = ∅ ∧
     crearDiagramas s u nombre_diagrama
     = (Lanza 404 ("Usuario '" +:+ nom
                   +:+ "' no tiene permitida esta acción."), s)) ∧
  (∀ u nombre_diagrama, us_rol u = 2 →
     let r := crearDiagramas s u nombre_diagrama in
     r.1 = Devuelve (Diagrama_init nombre_diagrama) ∧
     sv_diagramas r.2 !! nombre_diagrama = Some (Diagrama_init nombre_diagrama) ∧
     nodos (Diagrama_init nombre_diagrama) = [1] ∧
     nombre (obj (Diagrama_init nombre_diagrama) 1) = nombre_diagrama ∧
     (∀ m, m ≠ nombre_diagrama →
           sv_diagramas r.2 !! m = sv_diagramas s !! m) ∧
     usuarios r.2 = usuarios s).
Proof.
  split.
  - intros Hs nom u nd. unfold obtener_usuario.
    destruct (usuarios s !! nom) as [u'|] eqn:Hu; [|done]. intros [= ->].
    destruct (servidor_alcanzable_usuarios s Hs nom u Hu) as (Hn & Hr & Hd & _).
    split; [done|]. split; [done|]. split; [done|].
    unfold crearDiagramas. rewrite Hr, Hn. done.
  - intros u nd Hr. cbv zeta. unfold crearDiagramas. rewrite Hr. simpl.
    split; [done|]. split; [by rewrite lookup_insert_eq|].
    split; [done|]. split; [done|]. split; [|done].
    intros m Hm. by rewrite lookup_insert_ne.
Qed.

Lemma X18_roles_y_diagramas_witness :
  us_rol (Usuario_init "ana" "x") = 0 ∧
  crearDiagramas (crear_usuario ServidorNodos_init "ana" "x").2
                 (Usuario_init "ana" "x") "D"
  = (Lanza 404 "Usuario 'ana' no tiene permitida esta acción.",
     (crear_usuario ServidorNodos_init "ana" "x").2).
Proof.
  destruct (proj1 (X18_roles_y_diagramas
                     (crear_usuario ServidorNodos_init "ana" "x").2)
              (sa_paso _ (OpCrearUsuario "ana" "x") sa_inicio)
              "ana" (Usuario_init "ana" "x") "D" eq_refl)
    as (_ & H2 & _ & H4).
  split; [exact H2|exact H4].
Defined.

(** ** The Mermaid text *)

(** [f'{nodo.id}[{nodo.nombre}]'], with [str] of an [int] as [pretty]. *)
Definition nodo_texto (d : Diagrama) (k : Z) : string :=
  pretty k +:+ "[" +:+ nombre (obj d k) +:+ "]".

(** [Nodo.obtenerDiagrama], for the node with id [k]. *)
Definition obtenerDiagrama (d : Diagrama) (k : Z) : list string :=
  (λ hijo, nodo_texto d k +:+ " --> " +:+ nodo_texto d hijo)
    <$> hijos (obj d k).

(** The first loop of [_construirDiagrama]. *)
Definition lineas_conexiones (d : Diagrama) : list string :=
  nodos d ≫= (λ k, (λ conexion, "    " +:+ conexion) <$> obtenerDiagrama d k).

(** The second loop: the set [nodos_con_conexiones]. *)
Definition nodos_con_conexiones (d : Diagrama) : gset Z :=
  foldl (λ acc k,
           if bool_decide (hijos (obj d k) ≠ [])
           then foldl (λ acc hijo, acc ∪ {[hijo]}) (acc ∪ {[k]})
                      (hijos (obj d k))
           else acc)
        ∅ (nodos d).

(** The nodes the third loop writes on a line of their own. *)
Definition nodos_sueltos (d : Diagrama) : list Z :=
  filter (λ k, k ∉ nodos_con_conexiones d) (nodos d).

Definition lineas_sueltas (d : Diagrama) : list string :=
  (λ k, "    " +:+ nodo_texto d k) <$> nodos_sueltos d.

(** The line break of a Python string literal. *)
Definition salto : string := String (Ascii.ascii_of_nat 10) "".

Definition _construirDiagrama (d : Diagrama) : string :=
  if bool_decide (nodos d = [])
  then "graph TD" +:+ salto +:+ "    empty[Sin nodos]"
  else String.concat salto
         (["graph TD"] ++ lineas_conexiones d ++ lineas_sueltas d).

(** [Diagrama.to_dict]; the dictionary ['nodos'] as its items in order. *)
Record DiagramaDict := Mk_DiagramaDict {
  dd_nombre : string;
  dd_nodo_raiz_id : option Z;
  dd_nodos : list (Z * NodoDict);
  dd_mermaid : string
}.

Definition Diagrama_to_dict (d : Diagrama) : DiagramaDict :=
  Mk_DiagramaDict (d_nombre d) (nodo_raiz_id d)
                  ((λ id, (id, to_dict id (obj d id))) <$> nodos d)
                  (_construirDiagrama d).

(** The edges out of registered nodes, in the order of the first loop. *)
Definition pares (d : Diagrama) : list (Z * Z) :=
  nodos d ≫= (λ a, (λ h, (a, h)) <$> hijos (obj d a)).

Definition texto_arista (d : Diagrama) (ah : Z * Z) : string :=
  "    " +:+ (nodo_texto d ah.1 +:+ " --> " +:+ nodo_texto d ah.2).

Lemma lineas_conexiones_pares d :
  lineas_conexiones d = texto_arista d <$> pares d.
Proof.
  unfold lineas_conexiones, pares.
  induction (nodos d) as [|k l IH]; [done|].
  rewrite !bind_cons, fmap_app, IH. f_equal.
  unfold obtenerDiagrama. by rewrite <- !list_fmap_compose.
Qed.

Lemma elem_of_pares d a h :
  (a, h) ∈ pares d ↔ a ∈ nodos d ∧ h ∈ hijos (obj d a).
Proof.
  unfold pares. rewrite list_elem_of_bind. split.
  - intros (k & [h' [[= -> ->] Hh]]%list_elem_of_fmap & Hk). done.
  - intros [Ha Hh]. exists a. split; [|done].
    apply list_elem_of_fmap. by exists h.
Qed.

Lemma elem_of_nodos_con_conexiones d k :
  k ∈ nodos_con_conexiones d ↔
  ∃ a, a ∈ nodos d ∧ hijos (obj d a) ≠ [] ∧ (k = a ∨ k ∈ hijos (obj d a)).
Proof.
  unfold nodos_con_conexiones.
  assert (∀ hs (acc : gset Z),
            k ∈ foldl (λ acc hijo, acc ∪ {[hijo]}) acc hs ↔ k ∈ acc ∨ k ∈ hs)
    as Hint.
  { induction hs as [|h hs IH]; intros acc; cbn [foldl].
    - rewrite elem_of_nil. tauto.
    - rewrite IH, elem_of_union, elem_of_singleton, elem_of_cons. tauto. }
  assert (∀ l (acc : gset Z),
            k ∈ foldl (λ acc k,
                         if bool_decide (hijos (obj d k) ≠ [])
                         then foldl (λ acc hijo, acc ∪ {[hijo]}) (acc ∪ {[k]})
                                    (hijos (obj d k))
                         else acc) acc l ↔
            k ∈ acc ∨ ∃ a, a ∈ l ∧ hijos (obj d a) ≠ [] ∧
                           (k = a ∨ k ∈ hijos (obj d a))) as Hext.
  { induction l as [|x l IH]; intros acc; cbn [foldl].
    - split; [by left|]. intros [?|(a & ?%elem_of_nil & _)]; done.
    - rewrite IH. clear IH. case_bool_decide as Hx.
      + rewrite Hint, elem_of_union, elem_of_singleton. split.
        * intros [[[?| ->]|?]|(a & Ha & Hne & Hk)].
          -- by left.
          -- right. exists x. split; [by left|]. split; [done|by left].
          -- right. exists x. split; [by left|]. split; [done|by right].
          -- right. exists a. split; [by right|done].
        * intros [?|(a & [->|Ha]%elem_of_cons & Hne & Hk)].
          -- by left; left; left.
          -- left. destruct Hk as [->|?]; [left; by right|by right].
          -- right. by exists a.
      + split.
        * intros [?|(a & Ha & Hne & Hk)]; [by left|].
          right. exists a. split; [by right|done].
        * intros [?|(a & [->|Ha]%elem_of_cons & Hne & Hk)]; [by left|done|].
          right. by exists a. }
  rewrite Hext. split.
  - intros [?%elem_of_empty|?]; done.
  - by right.
Qed.

Lemma alcanzable_ordenado d : alcanzable d → StronglySorted Z.lt (nodos d).
Proof.
  induction 1 as [nom|d op d' Halc IH _ Hpaso].
  - repeat constructor.
  - eapply paso_ordenado; [|done..]. by eapply alcanzable_con_bien_formado.
Qed.

(** X19.  In a reachable state with a non-empty registry the text of
    [_construirDiagrama] is the header line followed by one line per pair
    (registered node, child), registered nodes in key order and children in
    list order, each pair once, followed by one line for each registered
    node that has neither children nor parents, each once; every registered
    node is written on a line of its own or is an end of a pair, never
    both. *)
Theorem X19_construirDiagrama_lineas (d : Diagrama) :
  alcanzable d → nodos d ≠ [] →
  _construirDiagrama d
  = String.concat salto
      (["graph TD"] ++ (texto_arista d <$> pares d)
       ++ ((λ k, "    " +:+ nodo_texto d k) <$> nodos_sueltos d)) ∧
  (∀ a h, (a, h) ∈ pares d ↔ a ∈ nodos d ∧ h ∈ hijos (obj d a)) ∧
  NoDup (pares d) ∧ NoDup (nodos_sueltos d) ∧
  (∀ k, k ∈ nodos_sueltos d ↔
        k ∈ nodos d ∧ hijos (obj d k) = [] ∧ padres (obj d k) = []) ∧
  (∀ k, k ∈ nodos d →
        k ∈ nodos_sueltos d ↔ ¬ ∃ ah, ah ∈ pares d ∧ (k = ah.1 ∨ k = ah.2)).
Proof.
  intros Halc Hne.
  pose proof (alcanzable_con_bien_formado _ _ Halc) as Hbf.
  pose proof (StronglySorted_lt_NoDup _ (alcanzable_ordenado _ Halc)) as Hnd.
  assert (∀ k, k ∈ nodos d →
               k ∈ nodos_con_conexiones d ↔
               ∃ ah, ah ∈ pares d ∧ (k = ah.1 ∨ k = ah.2)) as Hcon.
  { intros k Hk. rewrite elem_of_nodos_con_conexiones. split.
    - intros (a & Ha & Hhs & [->|Hin]).
      + destruct (hijos (obj d a)) as [|h hs] eqn:Hh; [done|].
        exists (a, h). split; [|by left].
        apply elem_of_pares. rewrite Hh. split; [done|by left].
      + exists (a, k). split; [by apply elem_of_pares|by right].
    - intros ([a h] & [Ha Hh]%elem_of_pares & [->| ->]); simpl in *.
      + exists a. split; [done|]. split; [|by left].
        intros Hnil. rewrite Hnil in Hh. by apply elem_of_nil in Hh.
      + exists a. split; [done|]. split; [|by right].
        intros Hnil. rewrite Hnil in Hh. by apply elem_of_nil in Hh. }
  split.
  { unfold _construirDiagrama. rewrite bool_decide_eq_false_2 by done.
    by rewrite lineas_conexiones_pares. }
  split; [apply elem_of_pares|]. split.
  { unfold pares. apply NoDup_bind; [| |done].
    - intros a1 a2 [a h] _ _ [? [[= -> ->] _]]%list_elem_of_fmap
        [? [[= -> _] _]]%list_elem_of_fmap. done.
    - intros a Ha. apply NoDup_fmap_2; [by intros ?? [= ->]|].
      by apply (bf_nodup_hijos _ Hbf). }
  split; [by apply NoDup_filter|]. split.
  - intros k. unfold nodos_sueltos. rewrite list_elem_of_filter. split.
    + intros [Hno Hk]. split; [done|]. rewrite Hcon in Hno by done.
      split.
      * destruct (hijos (obj d k)) as [|h hs] eqn:Hh; [done|].
        destruct Hno. exists (k, h). split; [|by left].
        apply elem_of_pares. rewrite Hh. split; [done|by left].
      * destruct (padres (obj d k)) as [|q qs] eqn:Hq; [done|].
        destruct Hno. exists (q, k). split; [|by right].
        assert (q ∈ padres (obj d k)) as Hin by (rewrite Hq; by left).
        pose proof (bf_padres_reg _ Hbf k q Hk Hin) as Hqr.
        apply elem_of_pares. split; [done|].
        by apply (bf_consistente _ Hbf).
    + intros (Hk & Hh & Hq). split; [|done]. rewrite Hcon by done.
      intros ([a h] & [Ha Hah]%elem_of_pares & [->| ->]); simpl in *.
      * rewrite Hh in Hah. by apply elem_of_nil in Hah.
      * apply (bf_consistente _ Hbf) in Hah; [|done..].
        rewrite Hq in Hah. by apply elem_of_nil in Hah.
  - intros k Hk. unfold nodos_sueltos. rewrite list_elem_of_filter.
    rewrite Hcon by done. tauto.
Qed.

Lemma X19_construirDiagrama_lineas_witness :
  _construirDiagrama ej_PAB
  = String.concat salto
      (["graph TD"] ++ (texto_arista ej_PAB <$> pares ej_PAB)
       ++ ((λ k, "    " +:+ nodo_texto ej_PAB k) <$> nodos_sueltos ej_PAB)).
Proof.
  apply (X19_construirDiagrama_lineas ej_PAB).
  - apply alcanzable_ej_PAB. done.
  - vm_compute. discriminate.
Defined.

(** [Diagrama("P]<line break>    2[A")]: a diagram whose name holds the text
    of a line end and of a node line. *)
Definition ej_inyectado : Diagrama :=
  Diagrama_init ("P]" +:+ salto +:+ "    2[A").

(** X20.  Names enter the Mermaid text unescaped, so the text does not
    determine the diagram: a diagram with the two unconnected nodes "P" and
    "A" and a one-node diagram whose name contains a line break give the
    same text.  With an empty registry the text is the fixed placeholder,
    and that state is reachable: deleting the root of any new diagram
    empties the registry. *)
Theorem X20_construirDiagrama_no_determina :
  (alcanzable ej_P_A ∧ alcanzable ej_inyectado ∧
   length (nodos ej_P_A) = 2%nat ∧ length (nodos ej_inyectado) = 1%nat ∧
   _construirDiagrama ej_P_A = _construirDiagrama ej_inyectado) ∧
  (∀ nom fuel, (1 < fuel)%nat →
     ∃ d', eliminarNodo fuel (Diagrama_init nom) 1 = Some (true, d') ∧
           alcanzable d' ∧ nodos d' = [] ∧
           _construirDiagrama d'
           = "graph TD" +:+ salto +:+ "    empty[Sin nodos]").
Proof.
  split.
  - split.
    { apply (alc_paso _ ej_P (OpAñadir "A" None None)); [|done..].
      apply alc_inicio. }
    split; [apply alc_inicio|].
    split; [vm_compute; reflexivity|].
    split; [vm_compute; reflexivity|].
    vm_compute. reflexivity.
  - intros nom fuel Hf.
    destruct (eliminarNodo_termina fuel (Diagrama_init nom) 1) as [[b d'] He].
    { apply (bf_aciclico _ (bien_formado_init nom)). }
    { simpl. lia. }
    destruct (eliminarNodo_encoge _ _ _ _ _ He) as (Hen & Hid & Hb & _).
    assert (b = true) as ->.
    { apply Hb. simpl. by left. }
    assert (nodos d' = []) as Hnil.
    { destruct (nodos d') as [|k l] eqn:Hk; [done|].
      assert (k ∈ nodos d') as Hin by (rewrite Hk; by left).
      pose proof (en_nodos _ _ Hen k Hin) as Hk1. simpl in Hk1.
      apply list_elem_of_singleton in Hk1 as ->.
      exfalso. apply Hid. rewrite ?Hk. by left. }
    exists d'. split; [done|]. split.
    { apply (alc_paso _ (Diagrama_init nom) (OpEliminar 1)); [|done|].
      - apply alc_inicio.
      - by exists fuel, true. }
    split; [done|].
    unfold _construirDiagrama. by rewrite bool_decide_eq_true_2.
Qed.

Lemma X20_construirDiagrama_no_determina_witness :
  ∃ d', eliminarNodo 2 (Diagrama_init "P") 1 = Some (true, d') ∧ nodos d' = [].
Proof.
  destruct (proj2 X20_construirDiagrama_no_determina "P" 2%nat)
    as (d' & H1 & _ & H3 & _); [lia|].
  exists d'. split; [exact H1|exact H3].
Defined.

Lemma alcanzable_raiz d : alcanzable d → nodo_raiz_id d = Some 1.
Proof.
  induction 1 as [nom|d op d' _ IH _ Hpaso]; [done|].
  by pose proof (paso_cabecera _ _ _ Hpaso) as [= _ ->].
Qed.

(** X21.  [Diagrama.to_dict] in a reachable state: the entries of ['nodos']
    are the registered ids in strictly increasing order, each with the
    record [obtenerNodo] gives for it; every id listed as child or parent
    in one of the records is itself a key of ['nodos']; ['mermaid'] is the
    text of [_construirDiagrama]; and ['nodo_raiz_id'] is 1, whether or
    not 1 is a key. *)
Theorem X21_to_dict_cerrado (d : Diagrama) :
  alcanzable d →
  let dd := Diagrama_to_dict d in
  (dd_nodos dd).*1 = nodos d ∧ StronglySorted Z.lt ((dd_nodos dd).*1) ∧
  (∀ k nd, (k, nd) ∈ dd_nodos dd ↔ obtenerNodo d k = Some nd) ∧
  (∀ k nd j, (k, nd) ∈ dd_nodos dd → j ∈ nd_hijos nd ∨ j ∈ nd_padres nd →
             j ∈ (dd_nodos dd).*1) ∧
  dd_mermaid dd = _construirDiagrama d ∧
  dd_nodo_raiz_id dd = Some 1 ∧ dd_nombre dd = d_nombre d.
Proof.
  intros Halc. cbv zeta.
  pose proof (alcanzable_con_bien_formado _ _ Halc) as Hbf.
  assert ((dd_nodos (Diagrama_to_dict d)).*1 = nodos d) as Hkeys.
  { unfold Diagrama_to_dict; simpl. rewrite <- list_fmap_compose.
    apply list_fmap_id. }
  assert (∀ k nd, (k, nd) ∈ dd_nodos (Diagrama_to_dict d) ↔
                  k ∈ nodos d ∧ nd = to_dict k (obj d k)) as Hent.
  { intros k nd. unfold Diagrama_to_dict; simpl.
    rewrite list_elem_of_fmap. split.
    - by intros (k' & [= -> ->] & Hk).
    - intros [Hk ->]. by exists k. }
  split; [done|]. rewrite Hkeys.
  split; [by apply alcanzable_ordenado|]. split.
  { intros k nd. rewrite Hent. unfold obtenerNodo.
    destruct (registrado d k) eqn:Hr; simpl.
    - apply registrado_true in Hr. split; [by intros [_ ->]|].
      by intros [= <-].
    - apply registrado_false in Hr. split; [by intros [? _]|done]. }
  split.
  { intros k nd j [Hk ->]%Hent. simpl. intros [Hj|Hj].
    - by apply (bf_hijos_reg _ Hbf k).
    - by apply (bf_padres_reg _ Hbf k). }
  split; [done|]. split; [|done].
  by apply alcanzable_raiz.
Qed.

Lemma X21_to_dict_cerrado_witness :
  (dd_nodos (Diagrama_to_dict ej_PAB)).*1 = nodos ej_PAB ∧
  dd_nodo_raiz_id (Diagrama_to_dict ej_PAB) = Some 1.
Proof.
  destruct (X21_to_dict_cerrado ej_PAB) as (H1 & _ & _ & _ & _ & H6 & _).
  - apply alcanzable_ej_PAB. done.
  - split; [exact H1|exact H6].
Defined.
